(** * fpga-tools: the Trellis configuration parser and the bitmap exporter

    A shallow embedding of [trellis-conf.c] and [bitmap-export.c].

    The C library calls the two files make ([fscanf], [ungetc], [ferror],
    [vsnprintf], [fprintf], [fputc]) are modelled in [CLib] the way glibc
    implements them on an LP64 target: [unsigned] is 32 bits wide,
    [unsigned long], [unsigned long long] and [size_t] are 64 bits wide.
    Whether plain [char] is signed is left as a parameter of the parser. *)

From Stdlib Require Import ZArith Lia List String Ascii Bool Arith.
From Stdlib Require Import DecimalString.
Import ListNotations.

Local Open Scope string_scope.
Local Open Scope Z_scope.

(* ================================================================== *)
(** * The C library, as far as the sources use it *)

Module CLib.

Definition NUL : ascii := "000"%char.
Definition TAB : ascii := "009"%char.
Definition LF : ascii := "010"%char.

Definition code (c : ascii) : Z := Z.of_N (N_of_ascii c).

(** [isspace], [isdigit], [isxdigit] in the C locale. *)
Definition isspace (c : ascii) : bool :=
  (code c =? 32) || ((9 <=? code c) && (code c <=? 13)).

Definition isdigit (c : ascii) : bool := (48 <=? code c) && (code c <=? 57).

Definition isxdigit (c : ascii) : bool :=
  isdigit c || ((97 <=? code c) && (code c <=? 102))
            || ((65 <=? code c) && (code c <=? 70)).

Definition digit_value (c : ascii) : Z :=
  if isdigit c then code c - 48
  else if (97 <=? code c) then code c - 87 else code c - 55.

(** What a C string holds: the characters before the first NUL. *)
Fixpoint cstr (s : string) : string :=
  match s with
  | "" => ""
  | String c s' => if Ascii.eqb c NUL then "" else String c (cstr s')
  end.

(** [strcmp (a, b) == 0]. *)
Definition streq (a b : string) : bool := String.eqb (cstr a) (cstr b).

(** ** Streams

    [data] is what is left to read.  [fault] tells what happens once [data]
    is exhausted: the next read is a read error instead of end-of-file.
    [err] is the error indicator that [ferror] reports. *)
Record FILE := mkFILE { data : string; fault : bool; err : bool }.

Definition ferror (f : FILE) : bool := err f.

(** The stream after a directive left [rest] unread; [hit] tells that it
    tried to read past the last character. *)
Definition arrive (f : FILE) (rest : string) (hit : bool) : FILE :=
  {| data := rest; fault := fault f; err := err f || (hit && fault f) |}.

Definition EOF : Z := -1.

(** [ungetc (c, f)]: nothing is pushed back when [c] is [EOF]; otherwise
    [c] converted to [unsigned char] becomes the next character. *)
Definition ungetc (c : Z) (f : FILE) : FILE :=
  if c =? EOF then f
  else {| data := String (ascii_of_N (Z.to_N (c mod 256))) (data f);
          fault := fault f; err := err f |}.

(** ** Scanning

    [read_run w p s] reads characters of [s] while they satisfy [p], at most
    [w] of them when a width is given.  It stops without looking further
    once the width is used up; otherwise it stops at the first character
    that fails [p], which stays unread, or at the end of the data, which it
    then has hit. *)
Fixpoint read_run (w : option nat) (p : ascii -> bool) (s : string)
  : string * string * bool :=
  match w with
  | Some O => ("", s, false)
  | _ =>
    match s with
    | "" => ("", "", true)
    | String c s' =>
        if p c then
          let '(t, r, h) := read_run (option_map pred w) p s' in
          (String c t, r, h)
        else ("", s, false)
    end
  end.

Definition is_empty (s : string) : bool :=
  match s with "" => true | _ => false end.

Fixpoint all (p : ascii -> bool) (s : string) : bool :=
  match s with
  | "" => true
  | String c s' => p c && all p s'
  end.

Fixpoint mem (c : ascii) (set : string) : bool :=
  match set with
  | "" => false
  | String x set' => Ascii.eqb c x || mem c set'
  end.

(** Conversions of a format: [%c], [%s], [%[set]] and [%[^set]], and the
    unsigned conversions [%u] (base 10) and [%x] (base 16). *)
Inductive conv : Type :=
| CChar
| CStr
| CSet (negated : bool) (set : string)
| CUns (base : Z).

(** Directives: white space, an ordinary character, or a conversion with
    its assignment flag (false for [*]) and optional field width.  The [m]
    modifier only changes where the characters are stored. *)
Inductive directive : Type :=
| DSpace
| DLit (c : ascii)
| DConv (assign : bool) (width : option nat) (cv : conv).

Inductive arg : Type :=
| AChar (c : ascii)
| AStr (s : string)
| AUns (n : Z).

Definition in_base (base : Z) (c : ascii) : bool :=
  if base =? 16 then isxdigit c
  else isdigit c && (code c - 48 <? base).

Fixpoint digits_value (base : Z) (acc : Z) (s : string) : Z :=
  match s with
  | "" => acc
  | String c s' => digits_value base (acc * base + digit_value c) s'
  end.

Definition ULONG_MAX : Z := 2 ^ 64 - 1.

(** [strtoul] on sign and digits, then the cast to [unsigned int]. *)
Definition to_unsigned (neg : bool) (magnitude : Z) : Z :=
  let ul := if ULONG_MAX <? magnitude then ULONG_MAX
            else if neg then (2 ^ 64 - magnitude) mod 2 ^ 64
            else magnitude in
  ul mod 2 ^ 32.

(** The optional sign of a number: whether it is [-], and what follows. *)
Definition uns_sign (s : string) : bool * string :=
  match s with
  | String c r =>
      if Ascii.eqb c "-" then (true, r)
      else if Ascii.eqb c "+" then (false, r)
      else (false, s)
  | "" => (false, s)
  end.

(** The leading [0] of a number: whether there is one, and what follows.
    In base 16 an [x] or [X] after it is read and dropped. *)
Definition uns_lead (base : Z) (s : string) : bool * string :=
  match s with
  | String c r =>
      if Ascii.eqb c "0" then
        (true,
         if base =? 16 then
           match r with
           | String x r' =>
               if Ascii.eqb x "x" || Ascii.eqb x "X" then r' else r
           | "" => r
           end
         else r)
      else (false, s)
  | "" => (false, s)
  end.

(** An unsigned number: white space, an optional sign, a leading [0],
    then digits.  Without a leading [0] and without digits there is no
    number; what was read up to there is gone. *)
Definition conv_uns (base : Z) (s : string) : option arg * string * bool :=
  let '(_, s1, _) := read_run None isspace s in
  if is_empty s1 then (None, "", true)
  else
    let (neg, s2) := uns_sign s1 in
    let (lead, s3) := uns_lead base s2 in
    let '(ds, s4, _) := read_run None (in_base base) s3 in
    if negb lead && is_empty ds then (None, s4, is_empty s4)
    else (Some (AUns (to_unsigned neg (digits_value base 0 ds))),
          s4, is_empty s4).

Definition conv_run (w : option nat) (cv : conv) (s : string)
  : option arg * string * bool :=
  match cv with
  | CChar =>
      match s with
      | "" => (None, "", true)
      | String c r => (Some (AChar c), r, false)
      end
  | CStr =>
      let '(_, s1, h1) := read_run None isspace s in
      let '(tok, s2, h2) := read_run w (fun c => negb (isspace c)) s1 in
      if is_empty tok then (None, s2, h1 || h2)
      else (Some (AStr (cstr tok)), s2, h2)
  | CSet negated set =>
      let '(tok, r, h) := read_run w (fun c => xorb negated (mem c set)) s in
      if is_empty tok then (None, r, h) else (Some (AStr (cstr tok)), r, h)
  | CUns base => conv_uns base s
  end.

Inductive outcome : Type :=
| Stop            (* matching or input failure: the call returns *)
| Skip            (* directive done, nothing assigned *)
| Got (a : arg).  (* conversion done and assigned *)

Definition directive_run (d : directive) (s : string)
  : outcome * string * bool :=
  match d with
  | DSpace => let '(_, r, h) := read_run None isspace s in (Skip, r, h)
  | DLit c =>
      match s with
      | "" => (Stop, "", true)
      | String x r => if Ascii.eqb x c then (Skip, r, false)
                      else (Stop, s, false)
      end
  | DConv assign w cv =>
      match conv_run w cv s with
      | (None, r, h) => (Stop, r, h)
      | (Some a, r, h) => (if assign then Got a else Skip, r, h)
      end
  end.

(** [fscanf (f, fmt, ...)]: the assigned arguments in order, and the stream
    afterwards.  The call's return value is the number of arguments when
    there is one (or [EOF], or 0, when there is none), so a test
    [fscanf (...) != n] fails exactly when [n] arguments come back. *)
Fixpoint fscanf (f : FILE) (fmt : list directive) : list arg * FILE :=
  match fmt with
  | [] => ([], f)
  | d :: fmt' =>
      let '(o, rest, hit) := directive_run d (data f) in
      let f' := arrive f rest hit in
      match o with
      | Stop => ([], f')
      | Skip => fscanf f' fmt'
      | Got a => let (args, f'') := fscanf f' fmt' in (a :: args, f'')
      end
  end.

(** [vsnprintf (buf, cap + 1, ...)] keeps the first [cap] characters. *)
Definition snprintf (cap : nat) (msg : string) : string :=
  String.substring 0 cap msg.

End CLib.

(* ================================================================== *)
(** * Loops

    A C loop is a pass function iterated under a fuel bound: a pass either
    runs the body and asks for the condition again, or leaves the loop
    because the condition failed, or returns from inside the body.  [None]
    means that the fuel ran out. *)

Module Loop.

Inductive step (A R : Type) : Type :=
| Again (a : A)
| Leave (a : A)
| Return (r : R).
Arguments Again {A R} a.
Arguments Leave {A R} a.
Arguments Return {A R} r.

Fixpoint loop {A R : Type} (pass : A -> option (step A R)) (fuel : nat)
  (a : A) : option (A + R) :=
  match pass a with
  | None => None
  | Some (Leave a') => Some (inl a')
  | Some (Return r) => Some (inr r)
  | Some (Again a') =>
      match fuel with
      | O => None
      | S n => loop pass n a'
      end
  end.

(** The loop started at [a] ends with [r], whatever fuel that takes. *)
Definition ends {A R : Type} (pass : A -> option (step A R)) (a : A)
  (r : A + R) : Prop :=
  exists fuel, loop pass fuel a = Some r.

(** [a'] is the loop variable some passes after [a]. *)
Inductive reaches {A R : Type} (pass : A -> option (step A R))
  : A -> A -> Prop :=
| reaches_here : forall a, reaches pass a a
| reaches_next : forall a a' a'',
    pass a = Some (Again a') -> reaches pass a' a'' -> reaches pass a a''.

End Loop.

(* ================================================================== *)
(** * trellis-conf.c *)

Module Trellis.
Import CLib Loop.

(** ** The action interface

    [trellis-conf.h] is not among the sources.  The parser calls eleven
    callbacks through [o->action], each with [o->cookie] first, and uses
    the result as an [int] truth value.  A callback is modelled as a
    function from the consumer's state behind the cookie to its result and
    the new state. *)
Inductive event : Type :=
| Device (name : string)
| Comment (value : string)
| Sysconfig (name value : string)
| Tile (name : string)
| Arc (sink source : string)
| Word (name value : string)
| Enum (name value : string)
| Unknown (value : string)
| Bram (index : Z)
| Data (index i value : Z)
| Commit.

Record action (C : Type) : Type := {
  on_device : C -> string -> Z * C;
  on_comment : C -> string -> Z * C;
  on_sysconfig : C -> string -> string -> Z * C;
  on_tile : C -> string -> Z * C;
  on_arc : C -> string -> string -> Z * C;
  on_word : C -> string -> string -> Z * C;
  on_enum : C -> string -> string -> Z * C;
  on_unknown : C -> string -> Z * C;
  on_bram : C -> Z -> Z * C;
  on_data : C -> Z -> Z -> Z -> Z * C;
  on_commit : C -> Z * C
}.
Arguments on_device {C}. Arguments on_comment {C}.
Arguments on_sysconfig {C}. Arguments on_tile {C}. Arguments on_arc {C}.
Arguments on_word {C}. Arguments on_enum {C}. Arguments on_unknown {C}.
Arguments on_bram {C}. Arguments on_data {C}. Arguments on_commit {C}.

(** The call that an event stands for. *)
Definition perform {C : Type} (a : action C) (e : event) (c : C) : Z * C :=
  match e with
  | Device name => on_device a c name
  | Comment value => on_comment a c value
  | Sysconfig name value => on_sysconfig a c name value
  | Tile name => on_tile a c name
  | Arc sink source => on_arc a c sink source
  | Word name value => on_word a c name value
  | Enum name value => on_enum a c name value
  | Unknown value => on_unknown a c value
  | Bram index => on_bram a c index
  | Data index i value => on_data a c index i value
  | Commit => on_commit a c
  end.

(** ** The parser's state

    [struct config] ([cookie], [error]) and the stream [in], together with
    the record of the calls made so far and what each returned.  [error]
    is [None] until the parser writes the buffer. *)
Record state (C : Type) : Type := mkState {
  cookie : C;
  error : option string;
  input : FILE;
  calls : list (event * Z)
}.
Arguments mkState {C}. Arguments cookie {C}. Arguments error {C}.
Arguments input {C}. Arguments calls {C}.

Definition start {C : Type} (c : C) (f : FILE) : state C :=
  {| cookie := c; error := None; input := f; calls := [] |}.

(** The formats of the source. *)
Definition blank : string := String " " (String TAB "").
Definition newline : string := String LF "".

(* " %c" *)
Definition fmt_char : list directive := [DSpace; DConv true None CChar].
(* "#%*[^\n]" *)
Definition fmt_comment_line : list directive :=
  [DLit "#"; DConv false None (CSet true newline)].
(* "%*[ \t]%ms" *)
Definition fmt_token : list directive :=
  [DConv false None (CSet false blank); DConv true None CStr].
(* "%*[ \t]%m[^\n]" *)
Definition fmt_line : list directive :=
  [DConv false None (CSet false blank); DConv true None (CSet true newline)].
(* "%*[ \t]%ms%*[ \t]%ms" *)
Definition fmt_pair : list directive := fmt_token ++ fmt_token.
(* "%15s" *)
Definition fmt_word : list directive := [DConv true (Some 15%nat) CStr].
(* "%*[ \t]%u" *)
Definition fmt_index : list directive :=
  [DConv false None (CSet false blank); DConv true None (CUns 10)].
(* "%x" *)
Definition fmt_hex : list directive := [DConv true None (CUns 16)].

Section Parser.

Context {C : Type}.
Variable act : action C.
(** Whether plain [char] is signed. *)
Variable char_signed : bool.
(** [sizeof (o->error) - 1]. *)
Variable error_cap : nat.
(** [strerror (errno)] after the stream failed. *)
Variable strerror_errno : string.

#[local] Abbreviation state := (state C).

(** What a [char] holding [c] is as an [int]. *)
Definition char_int (c : ascii) : Z :=
  if char_signed && (128 <=? code c) then code c - 256 else code c.

Definition conf_error (s : state) (msg : string) : Z * state :=
  (0, {| cookie := cookie s; error := Some (snprintf error_cap msg);
         input := input s; calls := calls s |}).

(** [o->action->on_... (o->cookie, ...)]. *)
Definition call (s : state) (e : event) : Z * state :=
  let rc := perform act e (cookie s) in
  (fst rc, {| cookie := snd rc; error := error s; input := input s;
              calls := calls s ++ [(e, fst rc)] |}).

Definition with_input (s : state) (f : FILE) : state :=
  {| cookie := cookie s; error := error s; input := f; calls := calls s |}.

Definition scan (s : state) (fmt : list directive) : list arg * state :=
  let (args, f) := fscanf (input s) fmt in (args, with_input s f).

Definition next_ns (f : FILE) : Z * FILE :=
  match fscanf f fmt_char with
  | ([AChar la], f1) => (char_int la, ungetc (char_int la) f1)
  | (_, f1) => (EOF, f1)
  end.

Definition next_entry_pass (x : Z * FILE) : option (step (Z * FILE) unit) :=
  let (la, f1) := next_ns (snd x) in
  if la =? code "#" then Some (Again (la, snd (fscanf f1 fmt_comment_line)))
  else Some (Leave (la, f1)).

Definition next_entry (f : FILE) : option (bool * FILE) :=
  match loop next_entry_pass (String.length (data f)) (0, f) with
  | Some (inl (la, f')) => Some (negb (la =? EOF), f')
  | _ => None
  end.

Definition next_record (f : FILE) : bool * FILE :=
  let (la, f1) := next_ns f in
  (negb (la =? EOF) && negb (la =? code "."), f1).

Definition read_device (s : state) : Z * state :=
  match scan s fmt_token with
  | ([AStr name], s1) => call s1 (Device name)
  | (_, s1) => conf_error s1 "device name required"
  end.

Definition read_comment (s : state) : Z * state :=
  match scan s fmt_line with
  | ([AStr value], s1) => call s1 (Comment value)
  | (_, s1) => conf_error s1 "empty comment"
  end.

Definition read_sysconfig (s : state) : Z * state :=
  match scan s fmt_pair with
  | ([AStr name; AStr value], s1) => call s1 (Sysconfig name value)
  | (_, s1) => conf_error s1 "sysconfig requres name and value"
  end.

Definition read_arc (s : state) : Z * state :=
  match scan s fmt_pair with
  | ([AStr sink; AStr source], s1) => call s1 (Arc sink source)
  | (_, s1) => conf_error s1 "arc requires sink and source"
  end.

Definition read_word (s : state) : Z * state :=
  match scan s fmt_pair with
  | ([AStr name; AStr value], s1) => call s1 (Word name value)
  | (_, s1) => conf_error s1 "word requires name and value"
  end.

Definition read_enum (s : state) : Z * state :=
  match scan s fmt_pair with
  | ([AStr name; AStr value], s1) => call s1 (Enum name value)
  | (_, s1) => conf_error s1 "enum requires name and value"
  end.

Definition read_unknown (s : state) : Z * state :=
  match scan s fmt_token with
  | ([AStr value], s1) => call s1 (Unknown value)
  | (_, s1) => conf_error s1 "unknown requires value"
  end.

(** The body of the loop of [read_tile_conf]. *)
Definition tile_record (type : string) (s : state) : Z * state :=
  if streq type "arc:" then read_arc s
  else if streq type "word:" then read_word s
  else if streq type "enum:" then read_enum s
  else if streq type "unknown:" then read_unknown s
  else conf_error s ("unknown tile record type '" ++ type ++ "'").

Definition tile_conf_pass (x : Z * state)
  : option (step (Z * state) (Z * state)) :=
  let (ok, s) := x in
  if ok =? 0 then Some (Leave (ok, s))
  else
    let (more, f1) := next_record (input s) in
    if negb more then Some (Leave (ok, with_input s f1))
    else
      match scan (with_input s f1) fmt_word with
      | ([AStr type], s2) => Some (Again (tile_record type s2))
      | (_, s2) => Some (Leave (ok, s2))
      end.

Definition read_tile_conf (s : state) : option (Z * state) :=
  match loop tile_conf_pass (String.length (data (input s))) (1, s) with
  | Some (inl (ok, s')) =>
      Some (if ok =? 0 then (0, s') else call s' Commit)
  | Some (inr r) => Some r
  | None => None
  end.

Definition read_tile (s : state) : option (Z * state) :=
  match scan s fmt_token with
  | ([AStr name], s1) =>
      let (ok, s2) := call s1 (Tile name) in
      if ok =? 0 then Some (0, s2) else read_tile_conf s2
  | (_, s1) => Some (conf_error s1 "tile name required")
  end.

Definition tile_names_pass (x : Z * state)
  : option (step (Z * state) (Z * state)) :=
  let (ok, s) := x in
  if ok =? 0 then Some (Leave (ok, s))
  else
    match scan s fmt_token with
    | ([AStr name], s1) => Some (Again (call s1 (Tile name)))
    | (_, s1) => Some (Leave (ok, s1))
    end.

Definition read_tile_group (s : state) : option (Z * state) :=
  match scan s fmt_token with
  | ([AStr name], s1) =>
      match loop tile_names_pass (String.length (data (input s1)))
                 (call s1 (Tile name)) with
      | Some (inl (ok, s2)) =>
          if ok =? 0 then Some (0, s2) else read_tile_conf s2
      | Some (inr r) => Some r
      | None => None
      end
  | (_, s1) => Some (conf_error s1 "tile name required")
  end.

(** [size_t] arithmetic. *)
Definition size_t (n : Z) : Z := n mod 2 ^ 64.

(** The loop of [read_bram] over [ok], [i] and the state; [index] is
    fixed. *)
Definition bram_pass (index : Z) (x : Z * Z * state)
  : option (step (Z * Z * state) (Z * state)) :=
  let '(ok, i, s) := x in
  if ok =? 0 then Some (Leave (ok, i, s))
  else
    let (more, f1) := next_record (input s) in
    if negb more then Some (Leave (ok, i, with_input s f1))
    else
      match scan (with_input s f1) fmt_hex with
      | ([AUns value], s2) =>
          let (ok', s3) := call s2 (Data index i value) in
          Some (Again (ok', size_t (i + 1), s3))
      | (_, s2) => Some (Return (conf_error s2 "hex bram value required"))
      end.

Definition read_bram (s : state) : option (Z * state) :=
  match scan s fmt_index with
  | ([AUns index], s1) =>
      let (ok, s2) := call s1 (Bram index) in
      match loop (bram_pass index) (String.length (data (input s2)))
                 (ok, 0, s2) with
      | Some (inl (ok', _, s3)) =>
          Some (if ok' =? 0 then (0, s3) else call s3 Commit)
      | Some (inr r) => Some r
      | None => None
      end
  | (_, s1) => Some (conf_error s1 "bram index required")
  end.

(** The body of the loop of [read_conf]. *)
Definition entry (verb : string) (s : state) : option (Z * state) :=
  if streq verb ".device" then Some (read_device s)
  else if streq verb ".comment" then Some (read_comment s)
  else if streq verb ".sysconfig" then Some (read_sysconfig s)
  else if streq verb ".tile" then read_tile s
  else if streq verb ".tile_group" then read_tile_group s
  else if streq verb ".bram_init" then read_bram s
  else Some (conf_error s ("unknown verb '" ++ verb ++ "'")).

Definition conf_pass (x : Z * state)
  : option (step (Z * state) (Z * state)) :=
  let (ok, s) := x in
  if ok =? 0 then Some (Leave (ok, s))
  else
    match next_entry (input s) with
    | None => None
    | Some (more, f1) =>
        if negb more then Some (Leave (ok, with_input s f1))
        else
          match scan (with_input s f1) fmt_word with
          | ([AStr verb], s2) =>
              match entry verb s2 with
              | Some r => Some (Again r)
              | None => None
              end
          | (_, s2) => Some (Leave (ok, s2))
          end
    end.

Definition read_conf (s : state) : option (Z * state) :=
  match loop conf_pass (String.length (data (input s))) (1, s) with
  | Some (inl (ok, s')) =>
      Some (if ferror (input s') then conf_error s' strerror_errno
            else (ok, s'))
  | Some (inr r) => Some r
  | None => None
  end.

(** ** Vocabulary of the properties *)

(** A reader that runs from [s] to [s'] and returns [r] gives no input
    back and only adds calls, with the results the callbacks returned; it
    leaves the error buffer alone when it succeeds; when it fails it has
    written the buffer, or else the last call it made returned failure. *)
Definition consumed (s s' : state) : Prop :=
  (String.length (data (input s')) <= String.length (data (input s)))%nat.

Definition wrote (s' : state) : Prop :=
  exists msg, error s' = Some (snprintf error_cap msg).

Definition refused (s s' : state) : Prop :=
  exists l e, calls s' = (calls s ++ l ++ [(e, 0)])%list.

(** Only the stream moved. *)
Definition moved (s s' : state) : Prop :=
  cookie s' = cookie s /\ error s' = error s /\ calls s' = calls s /\
  consumed s s'.

(** Each recorded result is what the callback returned. *)
Definition answered (new : list (event * Z)) : Prop :=
  forall e x, In (e, x) new -> exists c, x = fst (perform act e c).

Definition outcome (s : state) (r : Z) (s' : state) : Prop :=
  consumed s s' /\
  (exists new, calls s' = (calls s ++ new)%list /\ answered new) /\
  (r <> 0 -> error s' = error s) /\
  (r = 0 -> wrote s' \/ (error s' = error s /\ refused s s')).

End Parser.

(** Every callback of [a] reports success. *)
Definition all_succeed {C : Type} (a : action C) : Prop :=
  forall e c, fst (perform a e c) <> 0.

(** The events of the calls made, in order. *)
Definition events {C : Type} (s : state C) : list event :=
  map fst (calls s).

(** An action interface without state whose callbacks all return [r]. *)
Definition answer (r : Z) : action unit :=
  {| on_device := fun c _ => (r, c);
     on_comment := fun c _ => (r, c);
     on_sysconfig := fun c _ _ => (r, c);
     on_tile := fun c _ => (r, c);
     on_arc := fun c _ _ => (r, c);
     on_word := fun c _ _ => (r, c);
     on_enum := fun c _ _ => (r, c);
     on_unknown := fun c _ => (r, c);
     on_bram := fun c _ => (r, c);
     on_data := fun c _ _ _ => (r, c);
     on_commit := fun c => (r, c) |}.

(** A stream over [text] that ends with end-of-file. *)
Definition stream (text : string) : FILE :=
  {| data := text; fault := false; err := false |}.

(** [.tile_group A B C] on one line, [arc: x y] on the next. *)
Definition tile_group_text : string :=
  ".tile_group A B C" ++ newline ++ "arc: x y" ++ newline.

(** [.bram_init 5] and the three lines [0a], [1b], [2c]. *)
Definition bram_init_text : string :=
  ".bram_init 5" ++ newline ++ "0a" ++ newline ++ "1b" ++ newline
  ++ "2c" ++ newline.

(** The data events of a block: the values in order, the [k]-th of them
    at position [k] (as a [size_t]). *)
Fixpoint numbered (index : Z) (k : nat) (values : list Z) : list event :=
  match values with
  | [] => []
  | v :: values' =>
      Data index (size_t (Z.of_nat k)) v :: numbered index (S k) values'
  end.

(** [needle] occurs in [hay]. *)
Definition contains (needle hay : string) : Prop :=
  exists p q, hay = p ++ needle ++ q.

(** The leaf readers, with the format each one scans, the number of
    fields it needs, and the message it writes when they are not there.
    The message of [read_sysconfig] is left open. *)
Inductive leaf : Type :=
| LDevice | LComment | LSysconfig | LArc | LWord | LEnum | LUnknown.

Definition leaf_reader {C : Type} (act : action C) (error_cap : nat)
  (k : leaf) : state C -> Z * state C :=
  match k with
  | LDevice => read_device act error_cap
  | LComment => read_comment act error_cap
  | LSysconfig => read_sysconfig act error_cap
  | LArc => read_arc act error_cap
  | LWord => read_word act error_cap
  | LEnum => read_enum act error_cap
  | LUnknown => read_unknown act error_cap
  end.

Definition leaf_format (k : leaf) : list directive :=
  match k with
  | LDevice | LUnknown => fmt_token
  | LComment => fmt_line
  | LSysconfig | LArc | LWord | LEnum => fmt_pair
  end.

Definition leaf_fields (k : leaf) : nat :=
  match k with
  | LDevice | LUnknown | LComment => 1
  | LSysconfig | LArc | LWord | LEnum => 2
  end.

Definition leaf_message (k : leaf) : option string :=
  match k with
  | LDevice => Some "device name required"
  | LComment => Some "empty comment"
  | LSysconfig => None
  | LArc => Some "arc requires sink and source"
  | LWord => Some "word requires name and value"
  | LEnum => Some "enum requires name and value"
  | LUnknown => Some "unknown requires value"
  end.

(** The two forms of message of the specification:
    [<field> required] and [<kind> requires <n> and <m>]. *)
Definition form_required (m : string) : bool :=
  let n := String.length " required" in
  (n <=? String.length m)%nat
  && String.eqb (substring (String.length m - n) n m) " required".

Definition form_requires (m : string) : bool :=
  match index 0 " requires " m with
  | Some i =>
      match index (i + String.length " requires ") " and " m with
      | Some _ => true
      | None => false
      end
  | None => false
  end.

(** The sentence "a leaf reader whose required field cannot be extracted
    writes an error of one of the two forms", for a buffer that holds the
    longest message. *)
Definition missing_field_form : Prop :=
  forall (C : Type) (act : action C) (error_cap : nat) (k : leaf)
         (s : state C),
    (32 <= error_cap)%nat ->
    List.length (fst (fscanf (input s) (leaf_format k))) <> leaf_fields k ->
    exists m,
      error (snd (leaf_reader act error_cap k s)) = Some m /\
      form_required m || form_requires m = true.

(** The sentence "after [read_conf] returns, the error buffer has been
    written if and only if it returned failure", for a buffer that was
    not written before the call. *)
Definition written_iff_failure : Prop :=
  forall (C : Type) (act : action C) (char_signed : bool) (error_cap : nat)
         (strerror_errno : string) (c : C) (f : FILE) (r : Z) (s' : state C),
    read_conf act char_signed error_cap strerror_errno (start c f)
      = Some (r, s') ->
    (error s' <> None <-> r = 0).

(** ** Vocabulary of further properties *)

(** The events of the records of a tile body. *)
Definition record_event (e : event) : bool :=
  match e with
  | Arc _ _ | Word _ _ | Enum _ _ | Unknown _ => true
  | _ => false
  end.

(** Calls in which nothing follows a callback that returned failure: all
    of them succeeded, but possibly the last, and then the reader's result
    [r] is failure too. *)
Definition orderly (new : list (event * Z)) (r : Z) : Prop :=
  exists l, Forall (fun x => snd x <> 0) l /\
            (new = l \/ (r = 0 /\ exists e, new = (l ++ [(e, 0)])%list)).

(** The values of [unsigned] and of [size_t]. *)
Definition is_unsigned (n : Z) : Prop := 0 <= n < 2 ^ 32.
Definition is_size_t (n : Z) : Prop := 0 <= n < 2 ^ 64.

(** The call a leaf reader makes with the one token, or the two tokens,
    it has read. *)
Definition token_event (k : leaf) (v : string) : option event :=
  match k with
  | LDevice => Some (Device v)
  | LUnknown => Some (Unknown v)
  | _ => None
  end.

Definition pair_event (k : leaf) (a b : string) : option event :=
  match k with
  | LSysconfig => Some (Sysconfig a b)
  | LArc => Some (Arc a b)
  | LWord => Some (Word a b)
  | LEnum => Some (Enum a b)
  | _ => None
  end.

(** A token: characters that are no white space, at least one. *)
Definition is_token (tok : string) : Prop :=
  tok <> "" /\ all (fun x => negb (isspace x)) tok = true.

(** What is left behind a token: nothing, or white space first. *)
Definition behind_token (rest : string) : Prop :=
  rest = "" \/ exists x rest', rest = String x rest' /\ isspace x = true.

(** The sentence "an input whose next top-level token is none of the six
    verbs makes [read_conf] fail with a message that contains the token",
    for a buffer that holds the longest such message. *)
Definition unknown_verb_is_named : Prop :=
  forall (C : Type) (act : action C) (char_signed : bool) (error_cap : nat)
         (strerror_errno : string) (c : C) (f f' : FILE) (verb : string),
    (29 <= error_cap)%nat ->
    fscanf f fmt_word = ([AStr verb], f') ->
    streq verb ".device" = false -> streq verb ".comment" = false ->
    streq verb ".sysconfig" = false -> streq verb ".tile" = false ->
    streq verb ".tile_group" = false -> streq verb ".bram_init" = false ->
    exists s' msg,
      read_conf act char_signed error_cap strerror_errno (start c f)
      = Some (0, s') /\
      error s' = Some msg /\ contains verb msg.


(** What a reader does about the error buffer and its calls: the calls it
    adds; when it succeeds they all returned success and the buffer is as
    it was; and when the last of them returned failure the buffer is as
    it was, too. *)
Definition quiet {C : Type} (s : state C) (r : Z) (s' : state C) : Prop :=
  exists new, calls s' = (calls s ++ new)%list /\
    (r <> 0 -> Forall (fun x => snd x <> 0) new /\ error s' = error s) /\
    (forall l e, new = (l ++ [(e, 0)])%list -> error s' = error s).

(** ** Sample runs

    States along the runs of the parser on a few texts, with callbacks
    that all return 1, [char] signed and 127 characters of buffer. *)

Definition EIO : string := "Input/output error".

(** After [.tile T]: an [arc:] record, then a record of an unknown
    kind. *)
Definition body_text : string :=
  newline ++ "arc: a b" ++ newline ++ "foo: 1" ++ newline.

Definition body_start : state unit := start tt (stream body_text).

Definition body_after_arc : state unit :=
  Eval vm_compute in
    match tile_conf_pass (answer 1) true 127 (1, body_start) with
    | Some (Loop.Again (_, s)) => s
    | _ => body_start
    end.

Definition body_at_foo : FILE :=
  Eval vm_compute in snd (next_record true (input body_after_arc)).

Definition body_after_foo : state unit :=
  Eval vm_compute in
    snd (scan (with_input body_after_arc body_at_foo) fmt_word).

(** A [.device] entry, then an unknown verb, then more. *)
Definition verbs_text : string :=
  ".device d" ++ newline ++ ".frobnicate x" ++ newline ++ ".device e"
  ++ newline.

Definition verbs_start : state unit := start tt (stream verbs_text).

Definition verbs_after_device : state unit :=
  Eval vm_compute in
    match conf_pass (answer 1) true 127 (1, verbs_start) with
    | Some (Loop.Again (_, s)) => s
    | _ => verbs_start
    end.

Definition verbs_at_frobnicate : FILE :=
  Eval vm_compute in
    match next_entry true (input verbs_after_device) with
    | Some (_, f) => f
    | None => input verbs_after_device
    end.

Definition verbs_after_frobnicate : state unit :=
  Eval vm_compute in
    snd (scan (with_input verbs_after_device verbs_at_frobnicate) fmt_word).




(** ** Further sample runs *)

(** Where a reader ends: the state it returns. *)
Definition end_of {C : Type} (s : state C) (r : option (Z * state C))
  : state C :=
  match r with
  | Some (_, s') => s'
  | None => s
  end.

(** A [.device] entry, read with [char] unsigned. *)
Definition run_device_start : state unit :=
  start tt (stream (".device d" ++ newline)).

Definition run_device_end : state unit :=
  Eval vm_compute in
    end_of run_device_start
      (read_conf (answer 1) false 127 EIO run_device_start).

(** The same entry, with callbacks that return 0. *)
Definition run_device_refused : state unit :=
  Eval vm_compute in
    end_of run_device_start
      (read_conf (answer 0) true 127 EIO run_device_start).

(** The same entry, with callbacks that return 7. *)
Definition run_device_seven : state unit :=
  Eval vm_compute in
    end_of run_device_start
      (read_conf (answer 7) true 127 EIO run_device_start).

(** An unknown verb, with 8 characters of buffer. *)
Definition run_verb_start : state unit := start tt (stream ".frobnicate").

Definition run_verb_end : state unit :=
  Eval vm_compute in
    end_of run_verb_start (read_conf (answer 1) true 8 EIO run_verb_start).

(** A comment line in front of a [.device] entry. *)
Definition run_noted_start : state unit :=
  start tt (stream ("# c" ++ newline ++ ".device d")).



(** After [.tile]: a name and one [arc:] record. *)
Definition run_tile_start : state unit :=
  start tt (stream (" T" ++ newline ++ "arc: a b" ++ newline)).

Definition run_tile_end : state unit :=
  Eval vm_compute in
    end_of run_tile_start (read_tile (answer 1) true 127 run_tile_start).

(** After [.tile_group]: two names and one [arc:] record. *)
Definition run_group_start : state unit :=
  start tt (stream (" A B" ++ newline ++ "arc: a b" ++ newline)).

Definition run_group_end : state unit :=
  Eval vm_compute in
    end_of run_group_start
      (read_tile_group (answer 1) true 127 run_group_start).

(** After [.bram_init]: the index and two values. *)
Definition run_bram_start : state unit :=
  start tt (stream (" 5" ++ newline ++ "0a" ++ newline ++ "1b" ++ newline)).

Definition run_bram_end : state unit :=
  Eval vm_compute in
    end_of run_bram_start (read_bram (answer 1) true 127 run_bram_start).

(** After [.tile]: a name, an [arc:] record, and a record whose keyword
    starts with the byte 255. *)
Definition run_ff_start : state unit :=
  start tt (stream (" T" ++ newline ++ "arc: a b" ++ newline
                    ++ String "255" ("oo: 1" ++ newline))).

Definition run_ff_named : state unit :=
  Eval vm_compute in snd (scan run_ff_start fmt_token).

Definition run_ff_body : state unit :=
  Eval vm_compute in snd (call (answer 1) run_ff_named (Tile "T")).

Definition run_ff_after_arc : state unit :=
  Eval vm_compute in
    match tile_conf_pass (answer 1) true 127 (1, run_ff_body) with
    | Some (Loop.Again (_, s)) => s
    | _ => run_ff_body
    end.

Definition run_ff_keyword : state unit :=
  Eval vm_compute in
    snd (scan (with_input run_ff_after_arc
                 (stream (String "255" ("oo: 1" ++ newline))))
           fmt_word).




End Trellis.

(* ================================================================== *)
(** * bitmap-export.c *)

Module Bitmap.
Import CLib.

(** [struct bitmap] comes from [dakota/bitmap.h], which is not among the
    sources: the fields the exporter reads, with the two planes as arrays
    of bytes. *)
Record bitmap : Type := {
  width : Z;
  height : Z;
  pitch : Z;
  bits : list Z;
  mask : list Z
}.

Definition uchar (n : Z) : Z := n mod 256.
Definition ull (n : Z) : Z := n mod 2 ^ 64.
Definition size_t (n : Z) : Z := n mod 2 ^ 64.

Definition sample_msb (b : Z) : Z :=
  uchar (Z.shiftr
           (ull (Z.land (ull (uchar b * 0x80200802)) 0x0884422110
                 * 0x0101010101))
           32).

(** Bit [i] of the result is bit [7 - i] of the argument. *)
Definition reverse_bits (b : Z) : Z :=
  fold_left
    (fun acc i => if Z.testbit b (Z.of_nat i)
                  then Z.lor acc (Z.shiftl 1 (7 - Z.of_nat i)) else acc)
    (seq 0 8) 0.

(** What the host does with the three calls that can fail. *)
Record host : Type := {
  fopen_ok : bool;
  fprintf_ok : bool;
  fclose_ok : bool
}.

Definition bytes_of (s : string) : list Z := map code (list_ascii_of_string s).

(** ["%zu"]. *)
Definition zu (n : Z) : string :=
  NilEmpty.string_of_uint (N.to_uint (Z.to_N n)).

Definition header (o : bitmap) : string :=
  "P4" ++ String LF (zu (width o) ++ " " ++ zu (height o) ++ String LF "").

(** [for (v = 0; v < n; ++v) body]: the body threads the bytes written so
    far and is undefined ([None]) when it reads outside a plane. *)
Definition for_range (n : Z) (body : Z -> list Z -> option (list Z))
  (out : list Z) : option (list Z) :=
  fold_left
    (fun acc v => match acc with
                  | Some out' => body (Z.of_nat v) out'
                  | None => None
                  end)
    (seq 0 (Z.to_nat n)) (Some out).

(** The body of the inner loop. *)
Definition put_sample (o : bitmap) (y x : Z) (out : list Z)
  : option (list Z) :=
  let i := size_t (y * pitch o + Z.shiftr x 3) in
  match nth_error (bits o) (Z.to_nat i), nth_error (mask o) (Z.to_nat i) with
  | Some b, Some m => Some (out ++ [sample_msb (Z.land b m)])%list
  | _, _ => None
  end.

(** The result of [bitmap_export] and the file it leaves at [path], if
    any.  [None] is undefined behaviour: a read outside a plane, or the
    second [fclose] of the stream after the first one failed. *)
Definition bitmap_export (h : host) (o : bitmap)
  : option (Z * option (list Z)) :=
  if negb (fopen_ok h) then Some (0, None)
  else if negb (fprintf_ok h) then Some (0, None)
  else
    match for_range (height o)
            (fun y => for_range (width o) (fun x => put_sample o y x))
            (bytes_of (header o)) with
    | None => None
    | Some out => if fclose_ok h then Some (1, Some out) else None
    end.

(** The file as the specification describes it: after the header, for
    each row one byte per eight pixels, the masked data byte with its bits
    reversed. *)
Definition packed_sample (o : bitmap) (y k : Z) (out : list Z)
  : option (list Z) :=
  let i := y * pitch o + k in
  match nth_error (bits o) (Z.to_nat i), nth_error (mask o) (Z.to_nat i) with
  | Some b, Some m => Some (out ++ [reverse_bits (uchar (Z.land b m))])%list
  | _, _ => None
  end.

Definition packed_file (o : bitmap) : option (list Z) :=
  for_range (height o)
    (fun y => for_range ((width o + 7) / 8) (fun k => packed_sample o y k))
    (bytes_of (header o)).

(** The values the loop counters run through: 0, ..., n - 1. *)
Definition range (n : Z) : list Z := map Z.of_nat (seq 0 (Z.to_nat n)).

(** The byte the inner loop writes for pixel [x] of row [y], planes read
    with 0 outside. *)
Definition sample_at (o : bitmap) (y x : Z) : Z :=
  let i := Z.to_nat (size_t (y * pitch o + Z.shiftr x 3)) in
  sample_msb (Z.land (nth i (bits o) 0) (nth i (mask o) 0)).

(** The bytes of the two loops: row by row, pixel by pixel. *)
Definition samples (o : bitmap) : list Z :=
  flat_map (fun y => map (sample_at o y) (range (width o)))
    (range (height o)).

(** The planes hold every byte the loops read: rows of [pitch] bytes, each
    wide enough for [width] pixels. *)
Definition planes_fit (o : bitmap) : Prop :=
  0 <= pitch o /\ width o <= 8 * pitch o /\
  pitch o * height o <= Z.of_nat (List.length (bits o)) /\
  pitch o * height o <= Z.of_nat (List.length (mask o)).

Definition works : host :=
  {| fopen_ok := true; fprintf_ok := true; fclose_ok := true |}.

Definition two_bytes : bitmap :=
  {| width := 16; height := 1; pitch := 2;
     bits := [0x01; 0xF0]; mask := [0xFF; 0x3C] |}.

End Bitmap.

(* ================================================================== *)
(** * Facts about the C library model *)

Module CLibFacts.
Import CLib.

Ltac break_if :=
  match goal with
  | |- context [if ?b then _ else _] => destruct b eqn:?
  | H : context [if ?b then _ else _] |- _ => destruct b eqn:?
  end.

Ltac break_let :=
  match goal with
  | H : context [let '(_, _) := ?e in _] |- _ => destruct e eqn:?
  | |- context [let '(_, _) := ?e in _] => destruct e eqn:?
  end.

Ltac pair_inv :=
  repeat match goal with
         | H : (_, _) = (_, _) |- _ => inversion H; subst; clear H
         | H : Some _ = Some _ |- _ => inversion H; subst; clear H
         end.

Lemma length_append (a b : string) :
  String.length (a ++ b) = (String.length a + String.length b)%nat.
Proof. induction a as [|c a IH]; simpl; [reflexivity | now rewrite IH]. Qed.

Lemma read_run_split w p s t r h :
  read_run w p s = (t, r, h) -> s = t ++ r.
Proof.
  revert w t r h.
  induction s as [|c s IH]; intros w t r h H.
  - destruct w as [[|n]|]; simpl in H; pair_inv; reflexivity.
  - destruct w as [[|n]|]; simpl in H; pair_inv; try reflexivity.
    + destruct (p c); pair_inv; try reflexivity.
      destruct (read_run (Some n) p s) as [[t' r'] h'] eqn:E.
      pair_inv. simpl. f_equal. eapply IH; eassumption.
    + destruct (p c); pair_inv; try reflexivity.
      destruct (read_run None p s) as [[t' r'] h'] eqn:E.
      pair_inv. simpl. f_equal. eapply IH; eassumption.
Qed.

Lemma read_run_shrink w p s t r h :
  read_run w p s = (t, r, h) ->
  String.length s = (String.length t + String.length r)%nat.
Proof.
  intros H. apply read_run_split in H. subst s. apply length_append.
Qed.

(** An unbounded run stops in front of a character that fails the test,
    or has hit the end. *)
Lemma read_run_stop p s t r h :
  read_run None p s = (t, r, h) ->
  match r with
  | "" => h = true
  | String c _ => p c = false /\ h = false
  end.
Proof.
  revert t r h.
  induction s as [|c s IH]; intros t r h H; simpl in H.
  - pair_inv. reflexivity.
  - destruct (p c) eqn:Hp.
    + destruct (read_run None p s) as [[t' r'] h'] eqn:E.
      pair_inv. eapply IH; reflexivity.
    + pair_inv. split; [assumption | reflexivity].
Qed.

Lemma read_run_width n p s t r h :
  read_run (Some n) p s = (t, r, h) -> (String.length t <= n)%nat.
Proof.
  revert n t r h.
  induction s as [|c s IH]; intros n t r h H.
  - destruct n; simpl in H; pair_inv; simpl; lia.
  - destruct n; simpl in H; pair_inv; simpl; try lia.
    destruct (p c); pair_inv; simpl; try lia.
    destruct (read_run (Some n) p s) as [[t' r'] h'] eqn:E.
    pair_inv. simpl. apply IH in E. lia.
Qed.

Lemma is_empty_length s : is_empty s = false -> (0 < String.length s)%nat.
Proof. destruct s; simpl; [discriminate | lia]. Qed.

Lemma cstr_length s : (String.length (cstr s) <= String.length s)%nat.
Proof.
  induction s as [|c s IH]; simpl; [lia|].
  destruct (Ascii.eqb c NUL); simpl; lia.
Qed.

Lemma uns_sign_shrink s neg r :
  uns_sign s = (neg, r) -> (String.length r <= String.length s)%nat.
Proof.
  destruct s as [|c s']; simpl; intros H.
  - pair_inv. simpl. lia.
  - repeat break_if; pair_inv; simpl; lia.
Qed.

Lemma uns_lead_shrink base s lead r :
  uns_lead base s = (lead, r) ->
  (String.length r <= String.length s)%nat /\
  (lead = true -> (String.length r < String.length s)%nat).
Proof.
  destruct s as [|c s']; simpl; intros H.
  - pair_inv. simpl. split; [lia | discriminate].
  - destruct (Ascii.eqb c "0"); pair_inv; simpl;
      [|split; [lia | discriminate]].
    destruct (base =? 16); [|split; lia].
    destruct s' as [|x r']; simpl; [split; lia|].
    destruct (Ascii.eqb x "x" || Ascii.eqb x "X"); simpl; split; lia.
Qed.

Lemma conv_uns_shrink base s a r h :
  conv_uns base s = (a, r, h) ->
  (String.length r <= String.length s)%nat /\
  (a <> None -> (String.length r < String.length s)%nat).
Proof.
  unfold conv_uns.
  destruct (read_run None isspace s) as [[ws s1] h1] eqn:E1.
  apply read_run_shrink in E1.
  destruct (is_empty s1) eqn:Hs1; intros H.
  - pair_inv. simpl. split; [lia | congruence].
  - destruct (uns_sign s1) as [neg s2] eqn:E2.
    destruct (uns_lead base s2) as [lead s3] eqn:E3.
    destruct (read_run None (in_base base) s3) as [[ds s4] h4] eqn:E4.
    apply uns_sign_shrink in E2. apply uns_lead_shrink in E3.
    apply read_run_shrink in E4. destruct E3 as [E3 E3'].
    destruct (negb lead && is_empty ds) eqn:Hn; pair_inv.
    + split; [lia | congruence].
    + split; [lia | intros _].
      apply andb_false_iff in Hn. destruct Hn as [Hn | Hn].
      * apply negb_false_iff in Hn. specialize (E3' Hn). lia.
      * apply is_empty_length in Hn. lia.
Qed.

Lemma conv_run_shrink w cv s a r h :
  conv_run w cv s = (a, r, h) ->
  (String.length r <= String.length s)%nat /\
  (a <> None -> (String.length r < String.length s)%nat).
Proof.
  destruct cv as [| |negated set|base]; simpl.
  - destruct s; intros H; pair_inv; simpl; split; (lia || congruence).
  - destruct (read_run None isspace s) as [[ws s1] h1] eqn:E1.
    destruct (read_run w (fun c => negb (isspace c)) s1)
      as [[tok s2] h2] eqn:E2.
    apply read_run_shrink in E1. apply read_run_shrink in E2.
    destruct (is_empty tok) eqn:Ht; intros H; pair_inv.
    + split; [lia | congruence].
    + apply is_empty_length in Ht. split; [lia | intros _; lia].
  - destruct (read_run w (fun c => xorb negated (mem c set)) s)
      as [[tok s2] h2] eqn:E2.
    apply read_run_shrink in E2.
    destruct (is_empty tok) eqn:Ht; intros H; pair_inv.
    + split; [lia | congruence].
    + apply is_empty_length in Ht. split; [lia | intros _; lia].
  - apply conv_uns_shrink.
Qed.

Lemma directive_run_shrink d s o r h :
  directive_run d s = (o, r, h) ->
  (String.length r <= String.length s)%nat /\
  (forall a, o = Got a -> (String.length r < String.length s)%nat).
Proof.
  destruct d as [|c|assign w cv]; simpl.
  - destruct (read_run None isspace s) as [[ws s1] h1] eqn:E1.
    apply read_run_shrink in E1. intros H; pair_inv.
    split; [lia | discriminate].
  - destruct s as [|x s']; intros H; pair_inv; simpl.
    + split; [lia | discriminate].
    + destruct (Ascii.eqb x c); pair_inv; simpl;
        (split; [lia | discriminate]).
  - destruct (conv_run w cv s) as [[a s1] h1] eqn:E1.
    apply conv_run_shrink in E1. destruct E1 as [E1 E1'].
    destruct a as [a|]; intros H; pair_inv.
    + split; [lia | intros _ _; apply E1'; congruence].
    + split; [lia | discriminate].
Qed.

(** A call of [fscanf] never gives characters back, and it has consumed
    at least one when it assigned an argument. *)
Lemma fscanf_shrink fmt : forall f args f',
  fscanf f fmt = (args, f') ->
  (String.length (data f') <= String.length (data f))%nat /\
  (args <> [] -> (String.length (data f') < String.length (data f))%nat).
Proof.
  induction fmt as [|d fmt IH]; intros f args f' H; simpl in H.
  - pair_inv. split; [lia | congruence].
  - destruct (directive_run d (data f)) as [[o rest] hit] eqn:E.
    apply directive_run_shrink in E. destruct E as [E E'].
    destruct o as [| |a].
    + pair_inv. simpl. split; [lia | congruence].
    + apply IH in H. simpl in H. destruct H as [H H']. split; [lia|].
      intros Hn. specialize (H' Hn). lia.
    + destruct (fscanf (arrive f rest hit) fmt) as [args' f''] eqn:E2.
      pair_inv. apply IH in E2. simpl in E2. destruct E2 as [E2 _].
      specialize (E' a eq_refl). split; [lia | intros _; lia].
Qed.

Lemma substring_append x : forall n y,
  (String.length x <= n)%nat ->
  substring 0 n (x ++ y) = x ++ substring 0 (n - String.length x) y.
Proof.
  induction x as [|c x IH]; intros n y Hn; simpl.
  - now rewrite Nat.sub_0_r.
  - destruct n as [|n]; simpl in *; [lia|]. rewrite IH by lia. reflexivity.
Qed.

Lemma all_impl (p q : ascii -> bool) x :
  (forall c, p c = true -> q c = true) -> all p x = true -> all q x = true.
Proof.
  intros Hpq. induction x as [|a x IH]; simpl; [reflexivity|].
  intros H. apply andb_true_iff in H. destruct H as [Ha Hx].
  now rewrite (Hpq a Ha), (IH Hx).
Qed.

Lemma read_run_app p x c y :
  all p x = true -> p c = false ->
  read_run None p (x ++ String c y) = (x, String c y, false).
Proof.
  intros Hx Hc. induction x as [|a x IH]; simpl in *.
  - now rewrite Hc.
  - apply andb_true_iff in Hx. destruct Hx as [Ha Hx].
    rewrite Ha, (IH Hx). reflexivity.
Qed.

Lemma read_run_whole p x : all p x = true -> read_run None p x = (x, "", true).
Proof.
  intros Hx. induction x as [|a x IH]; simpl in *; [reflexivity|].
  apply andb_true_iff in Hx. destruct Hx as [Ha Hx].
  rewrite Ha, (IH Hx). reflexivity.
Qed.

Lemma all_app p x y : all p (x ++ y) = all p x && all p y.
Proof.
  induction x as [|a x IH]; simpl; [reflexivity|].
  now rewrite IH, andb_assoc.
Qed.

(** A run in front of a character that ends it takes a prefix of what is
    in between. *)
Lemma read_run_prefix p d y : forall x,
  p d = false ->
  exists x1 x2, x = x1 ++ x2 /\
    read_run None p (x ++ String d y) = (x1, x2 ++ String d y, false).
Proof.
  intros x Hd. induction x as [|a x IH]; simpl.
  - exists "", "". rewrite Hd. auto.
  - destruct (p a).
    + destruct IH as (x1 & x2 & Hx & Hr). rewrite Hr.
      exists (String a x1), x2. simpl. now rewrite Hx.
    + exists "", (String a x). auto.
Qed.

Lemma fscanf_cons f d fmt o rest hit :
  directive_run d (data f) = (o, rest, hit) ->
  fscanf f (d :: fmt)
  = match o with
    | Stop => ([], arrive f rest hit)
    | Skip => fscanf (arrive f rest hit) fmt
    | Got a => let (args, f'') := fscanf (arrive f rest hit) fmt in
               (a :: args, f'')
    end.
Proof. intros H. simpl. rewrite H. reflexivity. Qed.

Lemma fscanf_lit f c r fmt :
  data f = String c r ->
  fscanf f (DLit c :: fmt) = fscanf (arrive f r false) fmt.
Proof.
  intros Hd. simpl. rewrite Hd. simpl. rewrite Ascii.eqb_refl. reflexivity.
Qed.

End CLibFacts.

(* ================================================================== *)
(** * Facts about loops *)

Module LoopFacts.
Import Loop.

Section Generic.

Context {A R : Type}.
Variable pass : A -> option (step A R).

Lemma loop_mono : forall n a r,
  loop pass n a = Some r -> forall m, (n <= m)%nat -> loop pass m a = Some r.
Proof.
  induction n as [|n IH]; intros a r H m Hm.
  - destruct m as [|m]; [assumption|].
    simpl in *. destruct (pass a) as [[a'| a'| x]|]; congruence.
  - destruct m as [|m]; [lia|].
    simpl in *. destruct (pass a) as [[a'| a'| x]|]; try congruence.
    apply IH; [assumption | lia].
Qed.

Lemma ends_unique a r1 r2 : ends pass a r1 -> ends pass a r2 -> r1 = r2.
Proof.
  intros [n1 H1] [n2 H2].
  apply loop_mono with (m := Nat.max n1 n2) in H1; [|lia].
  apply loop_mono with (m := Nat.max n1 n2) in H2; [|lia].
  congruence.
Qed.

Lemma ends_again a a' r :
  pass a = Some (Again a') -> ends pass a' r -> ends pass a r.
Proof.
  intros Hp [n Hn]. exists (S n). simpl. rewrite Hp. assumption.
Qed.

Lemma ends_leave a a' : pass a = Some (Leave a') -> ends pass a (inl a').
Proof. intros Hp. exists O. simpl. rewrite Hp. reflexivity. Qed.


Lemma reaches_ends a a' r :
  reaches pass a a' -> ends pass a' r -> ends pass a r.
Proof.
  induction 1 as [a | a a1 a2 Hp _ IH]; intros He; [assumption|].
  eapply ends_again; eauto.
Qed.

Lemma loop_same_pass a b n : pass a = pass b -> loop pass n a = loop pass n b.
Proof. intros H. destruct n; simpl; now rewrite H. Qed.

(** Fuel that bounds a measure which every pass decreases is enough. *)
Lemma loop_total (I : A -> Prop) (m : A -> nat) :
  (forall a, I a -> pass a <> None) ->
  (forall a a', I a -> pass a = Some (Again a') ->
                I a' /\ (m a' < m a)%nat) ->
  forall fuel a, I a -> (m a <= fuel)%nat ->
  exists r, loop pass fuel a = Some r.
Proof.
  intros Hsome Hdec.
  induction fuel as [|n IH]; intros a Ha Hm; simpl.
  - destruct (pass a) as [[a'| a'| x]|] eqn:E; eauto.
    + apply Hdec in E; [lia | assumption].
    + apply Hsome in E; [contradiction | assumption].
  - destruct (pass a) as [[a'| a'| x]|] eqn:E; eauto.
    + apply Hdec in E; [|assumption]. apply IH; [tauto | lia].
    + apply Hsome in E; [contradiction | assumption].
Qed.

(** The loop ends from a loop variable that it reached and that
    satisfies whatever the passes preserve. *)
Lemma loop_last (I : A -> Prop) :
  (forall a a', I a -> pass a = Some (Again a') -> I a') ->
  forall fuel a r, I a -> loop pass fuel a = Some r ->
  exists a0, I a0 /\ reaches pass a a0 /\
    match r with
    | inl a' => pass a0 = Some (Leave a')
    | inr x => pass a0 = Some (Return x)
    end.
Proof.
  intros Hpres.
  induction fuel as [|n IH]; intros a r Ha H; simpl in H.
  - destruct (pass a) as [[a'| a'| x]|] eqn:E; try discriminate;
      inversion H; subst; exists a; repeat split; auto; constructor.
  - destruct (pass a) as [[a'| a'| x]|] eqn:E; try discriminate.
    + destruct (IH a' r (Hpres _ _ Ha E) H) as (a0 & H0 & Hr & Hl).
      exists a0. repeat split; auto. eapply reaches_next; eauto.
    + inversion H; subst. exists a. repeat split; auto. constructor.
    + inversion H; subst. exists a. repeat split; auto. constructor.
Qed.

End Generic.

End LoopFacts.

(* ================================================================== *)
(** * Facts about the parser *)

Module TrellisFacts.
Import CLib Loop Trellis CLibFacts LoopFacts.

Section Parser.

Context {C : Type}.
Variable act : action C.
Variable char_signed : bool.
Variable error_cap : nat.
Variable strerror_errno : string.

#[local] Abbreviation state := (state C).
#[local] Abbreviation char_int := (char_int char_signed).
#[local] Abbreviation next_ns := (next_ns char_signed).
#[local] Abbreviation next_entry := (next_entry char_signed).
#[local] Abbreviation next_record := (next_record char_signed).
#[local] Abbreviation conf_error := (@conf_error C error_cap).
#[local] Abbreviation outcome := (@outcome C act error_cap).

(** ** Lookahead *)

Lemma unget_char c : ascii_of_N (Z.to_N (char_int c mod 256)) = c.
Proof.
  unfold Trellis.char_int.
  destruct c as [[] [] [] [] [] [] [] []]; destruct char_signed;
    vm_compute; reflexivity.
Qed.

Lemma char_int_hash c : char_int c = code "#" -> c = "#"%char.
Proof.
  unfold Trellis.char_int.
  destruct c as [[] [] [] [] [] [] [] []]; destruct char_signed;
    vm_compute; intros H; first [reflexivity | discriminate H].
Qed.

Lemma char_int_of_hash : char_int "#" = code "#".
Proof. unfold Trellis.char_int. destruct char_signed; reflexivity. Qed.

Lemma char_int_of_dot : char_int "." = code ".".
Proof. unfold Trellis.char_int. destruct char_signed; reflexivity. Qed.

(** The lookahead is end-of-file, or the next character, which is then
    not white space and still unread. *)
Lemma next_ns_spec f la f' :
  next_ns f = (la, f') ->
  (String.length (data f') <= String.length (data f))%nat /\
  (la <> EOF ->
   exists c r, data f' = String c r /\ isspace c = false /\ char_int c = la).
Proof.
  unfold Trellis.next_ns, fmt_char. simpl.
  destruct (read_run None isspace (data f)) as [[ws r] h] eqn:E.
  pose proof (read_run_shrink _ _ _ _ _ _ E) as Hl.
  pose proof (read_run_stop _ _ _ _ _ E) as Hs.
  destruct r as [|c r]; simpl; intros H; pair_inv.
  - simpl. split; [lia | congruence].
  - simpl in Hl. destruct Hs as [Hc _]. unfold ungetc.
    destruct (char_int c =? EOF) eqn:Ee.
    + apply Z.eqb_eq in Ee. simpl. split; [lia | congruence].
    + simpl. rewrite unget_char. split; [lia | intros _].
      exists c, r. auto.
Qed.

(** Skipping a comment line consumes its [#]. *)
Lemma next_entry_pass_again x la f' :
  next_entry_pass char_signed x = Some (Again (la, f')) ->
  (String.length (data f') < String.length (data (snd x)))%nat.
Proof.
  unfold next_entry_pass.
  destruct (next_ns (snd x)) as [la1 f1] eqn:E.
  apply next_ns_spec in E. destruct E as [Hl Hc].
  destruct (la1 =? code "#") eqn:Eh; intros H; [|discriminate H].
  apply Z.eqb_eq in Eh.
  destruct Hc as (c & r & Hd & _ & Hi); [rewrite Eh; discriminate|].
  rewrite Eh in Hi. apply char_int_hash in Hi. subst c.
  assert (Hf : f' = snd (fscanf f1 fmt_comment_line)) by congruence.
  subst f'. unfold fmt_comment_line. rewrite (fscanf_lit f1 "#" r _ Hd).
  match goal with
  | |- context [fscanf ?f ?fmt] => destruct (fscanf f fmt) as [a f2] eqn:E2
  end.
  apply fscanf_shrink in E2. rewrite Hd in Hl. simpl in *. lia.
Qed.

Lemma next_entry_pass_some x : next_entry_pass char_signed x <> None.
Proof.
  unfold next_entry_pass. destruct (next_ns (snd x)) as [la f1].
  destruct (la =? code "#"); discriminate.
Qed.

Lemma next_entry_total f : exists more f', next_entry f = Some (more, f').
Proof.
  unfold Trellis.next_entry.
  destruct (loop_total (next_entry_pass char_signed) (fun _ => True)
              (fun x => String.length (data (snd x))))
    with (fuel := String.length (data f)) (a := (0, f)) as [r Hr].
  - intros a _. apply next_entry_pass_some.
  - intros a [la f'] _ H. split; [exact I|].
    eapply next_entry_pass_again; eassumption.
  - exact I.
  - simpl. lia.
  - rewrite Hr. destruct r as [[la f']|[]].
    + eauto.
    + apply loop_last with (I := fun _ => True) in Hr; auto.
      destruct Hr as (a0 & _ & _ & Hr). unfold next_entry_pass in Hr.
      destruct (next_ns (snd a0)) as [la f1].
      destruct (la =? code "#"); discriminate.
Qed.

(** [next_entry] gives no input back; when it reports an entry, the next
    character is not white space, and it is not [#]. *)
Lemma next_entry_spec f more f' :
  next_entry f = Some (more, f') ->
  (String.length (data f') <= String.length (data f))%nat /\
  (more = true ->
   exists c r, data f' = String c r /\ isspace c = false /\
               c <> "#"%char).
Proof.
  unfold Trellis.next_entry.
  destruct (loop (next_entry_pass char_signed) (String.length (data f))
              (0, f)) as [[[la f1]|[]]|] eqn:E; try discriminate.
  intros H. inversion H; subst; clear H.
  apply loop_last
    with (I := fun x => (String.length (data (snd x))
                         <= String.length (data f))%nat) in E.
  - destruct E as ([la0 f0] & Hi & _ & Hp). simpl in Hi.
    unfold next_entry_pass in Hp. simpl in Hp.
    destruct (next_ns f0) as [la1 f2] eqn:En.
    destruct (la1 =? code "#") eqn:Eh; inversion Hp; subst; clear Hp.
    apply next_ns_spec in En. destruct En as [Hl Hc].
    split; [lia|]. intros Hm. apply negb_true_iff in Hm.
    apply Z.eqb_neq in Hm. destruct (Hc Hm) as (c & r & Hd & Hs & Hi').
    exists c, r. repeat split; auto.
    intros ->. rewrite char_int_of_hash in Hi'. rewrite <- Hi' in Eh.
    rewrite Z.eqb_refl in Eh. discriminate.
  - intros a [la' f''] Ha Hp. simpl.
    apply next_entry_pass_again in Hp. lia.
  - simpl. lia.
Qed.

(** [next_record] gives no input back; when it reports a record, the next
    character is neither white space nor [.]. *)
Lemma next_record_spec f more f' :
  next_record f = (more, f') ->
  (String.length (data f') <= String.length (data f))%nat /\
  (more = true ->
   exists c r, data f' = String c r /\ isspace c = false /\
               c <> "."%char).
Proof.
  unfold Trellis.next_record.
  destruct (next_ns f) as [la f1] eqn:En. intros H. inversion H; subst.
  apply next_ns_spec in En. destruct En as [Hl Hc].
  split; [lia|]. intros Hm. apply andb_true_iff in Hm.
  destruct Hm as [Hm Hd]. apply negb_true_iff in Hm, Hd.
  apply Z.eqb_neq in Hm. destruct (Hc Hm) as (c & r & Hd' & Hs & Hi).
  exists c, r. repeat split; auto.
  intros ->. rewrite char_int_of_dot in Hi. rewrite <- Hi in Hd.
  rewrite Z.eqb_refl in Hd. discriminate.
Qed.

(** ["%15s"] in front of a character that is not white space reads a
    token that starts with it. *)
Lemma fscanf_word f c r :
  data f = String c r -> isspace c = false ->
  exists t f', fscanf f fmt_word = ([AStr (cstr (String c t))], f') /\
    (String.length t < 15)%nat /\
    (String.length (data f') < String.length (data f))%nat.
Proof.
  intros Hd Hs. unfold fmt_word. simpl. rewrite Hd. simpl. rewrite Hs.
  simpl.
  destruct (read_run (Some 14%nat) (fun c0 => negb (isspace c0)) r)
    as [[t r'] h] eqn:E.
  rewrite ?Hs. simpl. exists t. eexists. split; [reflexivity|].
  pose proof (read_run_width _ _ _ _ _ _ E).
  apply read_run_shrink in E. simpl. lia.
Qed.

(** ** Outcomes *)

Lemma outcome_here (s : state) r : r <> 0 -> outcome s r s.
Proof.
  intros Hr. unfold Trellis.outcome, consumed. repeat split.
  - lia.
  - exists []. split; [now rewrite app_nil_r | intros e x []].
  - contradiction.
Qed.

Lemma outcome_error (s : state) msg r s' :
  conf_error s msg = (r, s') -> outcome s r s'.
Proof.
  unfold Trellis.conf_error. intros H. inversion H; subst; clear H.
  unfold Trellis.outcome, consumed, wrote. simpl. repeat split.
  - lia.
  - exists []. split; [now rewrite app_nil_r | intros e x []].
  - congruence.
  - intros _. left. eauto.
Qed.

Lemma outcome_call (s : state) e r s' :
  call act s e = (r, s') -> outcome s r s'.
Proof.
  unfold call. intros H. inversion H; subst; clear H.
  unfold Trellis.outcome, consumed, refused. simpl. repeat split.
  - lia.
  - eexists. split; [reflexivity|].
    intros e' x [Hx|[]]. inversion Hx; subst. now exists (cookie s).
  - intros Hr. right. split; [reflexivity|].
    exists [], e. simpl. now rewrite Hr.
Qed.

Lemma outcome_seq (s : state) ok s1 r s2 :
  outcome s ok s1 -> ok <> 0 -> outcome s1 r s2 -> outcome s r s2.
Proof.
  unfold Trellis.outcome, consumed, refused.
  intros (Hc1 & (n1 & Hn1 & Ha1) & He1 & _) Hok
         (Hc2 & (n2 & Hn2 & Ha2) & He2 & Hf2).
  specialize (He1 Hok). repeat split.
  - lia.
  - exists (n1 ++ n2)%list. split; [now rewrite Hn2, Hn1, app_assoc|].
    intros e x Hx. apply in_app_iff in Hx. destruct Hx; eauto.
  - intros Hr. rewrite He2; auto.
  - intros Hr. destruct (Hf2 Hr) as [Hw | [He (l & e & Hl)]]; [now left|].
    right. split; [congruence|]. exists (n1 ++ l)%list, e.
    now rewrite Hl, Hn1, <- !app_assoc.
Qed.

Lemma outcome_input (s : state) f r s' :
  (String.length (data f) <= String.length (data (input s)))%nat ->
  outcome (with_input s f) r s' -> outcome s r s'.
Proof.
  unfold Trellis.outcome, consumed, refused. simpl.
  intros Hl (Hc & Hn & He & Hf). repeat split; auto. lia.
Qed.

Lemma scan_input (s : state) fmt args s1 :
  scan s fmt = (args, s1) ->
  exists f, fscanf (input s) fmt = (args, f) /\ s1 = with_input s f.
Proof.
  unfold scan. destruct (fscanf (input s) fmt) as [a f].
  intros H. inversion H; subst. eauto.
Qed.

Lemma scan_eq (s : state) fmt args f :
  fscanf (input s) fmt = (args, f) -> scan s fmt = (args, with_input s f).
Proof. unfold scan. intros ->. reflexivity. Qed.

Lemma outcome_scan (s : state) fmt args s1 r s' :
  scan s fmt = (args, s1) -> outcome s1 r s' -> outcome s r s'.
Proof.
  intros Hs Ho. apply scan_input in Hs. destruct Hs as (f & Hf & ->).
  apply fscanf_shrink in Hf. eapply outcome_input; [|eassumption]. lia.
Qed.

Ltac leaf_outcome fmt :=
  let H := fresh "H" in
  let E := fresh "E" in
  intros H;
  match type of H with
  | context [scan ?s fmt] =>
      destruct (scan s fmt) as [? ?] eqn:E;
      eapply outcome_scan; [exact E|];
      repeat match type of H with
             | context [match ?x with _ => _ end] => destruct x
             end;
      first [eapply outcome_call; exact H | eapply outcome_error; exact H]
  end.

Lemma read_device_outcome s r s' :
  read_device act error_cap s = (r, s') -> outcome s r s'.
Proof. unfold read_device. leaf_outcome fmt_token. Qed.

Lemma read_comment_outcome s r s' :
  read_comment act error_cap s = (r, s') -> outcome s r s'.
Proof. unfold read_comment. leaf_outcome fmt_line. Qed.

Lemma read_sysconfig_outcome s r s' :
  read_sysconfig act error_cap s = (r, s') -> outcome s r s'.
Proof. unfold read_sysconfig. leaf_outcome fmt_pair. Qed.

Lemma read_arc_outcome s r s' :
  read_arc act error_cap s = (r, s') -> outcome s r s'.
Proof. unfold read_arc. leaf_outcome fmt_pair. Qed.

Lemma read_word_outcome s r s' :
  read_word act error_cap s = (r, s') -> outcome s r s'.
Proof. unfold read_word. leaf_outcome fmt_pair. Qed.

Lemma read_enum_outcome s r s' :
  read_enum act error_cap s = (r, s') -> outcome s r s'.
Proof. unfold read_enum. leaf_outcome fmt_pair. Qed.

Lemma read_unknown_outcome s r s' :
  read_unknown act error_cap s = (r, s') -> outcome s r s'.
Proof. unfold read_unknown. leaf_outcome fmt_token. Qed.

Lemma tile_record_outcome type s r s' :
  tile_record act error_cap type s = (r, s') -> outcome s r s'.
Proof.
  unfold tile_record. intros H.
  repeat break_if;
    eauto using read_arc_outcome, read_word_outcome, read_enum_outcome,
      read_unknown_outcome, outcome_error.
Qed.

Lemma moved_here (s : state) : moved s s.
Proof. unfold moved, consumed. repeat split. lia. Qed.

Lemma moved_input (s : state) f :
  (String.length (data f) <= String.length (data (input s)))%nat ->
  moved s (with_input s f).
Proof. unfold moved, consumed. simpl. intros H. repeat split. lia. Qed.

Lemma moved_trans (s s1 s2 : state) : moved s s1 -> moved s1 s2 -> moved s s2.
Proof.
  unfold moved, consumed. intros (? & ? & ? & ?) (? & ? & ? & ?).
  repeat split; try congruence. lia.
Qed.

Lemma moved_scan (s : state) fmt args s1 :
  scan s fmt = (args, s1) -> moved s s1.
Proof.
  intros Hs. apply scan_input in Hs. destruct Hs as (f & Hf & ->).
  apply fscanf_shrink in Hf. apply moved_input. lia.
Qed.

Lemma outcome_moved (s : state) r s1 s2 :
  outcome s r s1 -> moved s1 s2 -> outcome s r s2.
Proof.
  unfold Trellis.outcome, moved, consumed, wrote, refused.
  intros (Hc & (n & Hn & Ha) & He & Hf) (_ & He2 & Hc2 & Hl).
  repeat split.
  - lia.
  - exists n. split; [congruence | exact Ha].
  - intros Hr. rewrite He2. auto.
  - intros Hr. destruct (Hf Hr) as [[m Hm] | [He' (l & e & Hl')]].
    + left. exists m. congruence.
    + right. split; [congruence|]. exists l, e. congruence.
Qed.

Lemma moved_outcome (s : state) r s1 s2 :
  moved s s1 -> outcome s1 r s2 -> outcome s r s2.
Proof.
  unfold Trellis.outcome, moved, consumed, wrote, refused.
  intros (_ & He & Hc & Hl) (Hc2 & (n & Hn & Ha) & He2 & Hf).
  repeat split.
  - lia.
  - exists n. split; [congruence | exact Ha].
  - intros Hr. rewrite He2; auto.
  - intros Hr. destruct (Hf Hr) as [[m Hm] | [He' (l & e & Hl')]].
    + left. exists m. congruence.
    + right. split; [congruence|]. exists l, e. congruence.
Qed.

Lemma outcome_consumed (s : state) r s' : outcome s r s' -> consumed s s'.
Proof. intros H. apply H. Qed.

(** ** Loops over [ok] and the state

    Three loops of the parser run while [ok] holds: every pass that goes
    on reads at least one character, and leaving changes nothing but the
    stream. *)

Section OkLoop.

Variable pass : Z * state -> option (step (Z * state) (Z * state)).

Hypothesis pass_some : forall x, pass x <> None.
Hypothesis pass_again : forall ok s ok' s',
  pass (ok, s) = Some (Again (ok', s')) ->
  ok <> 0 /\ outcome s ok' s' /\
  (String.length (data (input s')) < String.length (data (input s)))%nat.
Hypothesis pass_leave : forall ok s ok' s',
  pass (ok, s) = Some (Leave (ok', s')) -> ok' = ok /\ moved s s'.
Hypothesis pass_return : forall x r, pass x <> Some (Return r).

Lemma ok_loop_total fuel ok s :
  (String.length (data (input s)) <= fuel)%nat ->
  exists ok' s', loop pass fuel (ok, s) = Some (inl (ok', s')).
Proof.
  intros Hf.
  destruct (loop_total pass (fun _ => True)
              (fun x => String.length (data (input (snd x)))))
    with (fuel := fuel) (a := (ok, s)) as [r Hr]; auto.
  - intros [ok1 s1] [ok2 s2] _ H. apply pass_again in H.
    simpl. tauto.
  - destruct r as [[ok' s']|x]; [eauto|].
    apply loop_last with (I := fun _ => True) in Hr; auto.
    destruct Hr as (a0 & _ & _ & Hr).
    now apply pass_return in Hr.
Qed.

Lemma ok_loop_outcome fuel s0 ok s ok' s' :
  outcome s0 ok s ->
  loop pass fuel (ok, s) = Some (inl (ok', s')) ->
  outcome s0 ok' s'.
Proof.
  intros Ho Hl.
  apply loop_last with (I := fun x => outcome s0 (fst x) (snd x)) in Hl.
  - destruct Hl as ([ok1 s1] & Hi & _ & Hp). simpl in Hi.
    apply pass_leave in Hp. destruct Hp as [-> Hm].
    eapply outcome_moved; eassumption.
  - intros [ok1 s1] [ok2 s2] Hi Hp. simpl in *.
    apply pass_again in Hp. destruct Hp as (Hok & Ho2 & _).
    eapply outcome_seq; eassumption.
  - exact Ho.
Qed.

Lemma ok_loop_ends fuel ok s r :
  (String.length (data (input s)) <= fuel)%nat ->
  ends pass (ok, s) r -> loop pass fuel (ok, s) = Some r.
Proof.
  intros Hf He. destruct (ok_loop_total fuel ok s Hf) as (ok' & s' & Hl).
  rewrite Hl. f_equal. eapply ends_unique; [|exact He]. now exists fuel.
Qed.

Lemma ok_loop_no_return fuel x r : loop pass fuel x <> Some (inr r).
Proof.
  intros Hl. apply loop_last with (I := fun _ => True) in Hl; auto.
  destruct Hl as (a0 & _ & _ & Hr). now apply pass_return in Hr.
Qed.

End OkLoop.

(** ** The tile body *)

#[local] Abbreviation tile_conf_pass := (tile_conf_pass act char_signed error_cap).
#[local] Abbreviation read_tile_conf := (read_tile_conf act char_signed error_cap).

Lemma tile_conf_pass_some x : tile_conf_pass x <> None.
Proof.
  unfold Trellis.tile_conf_pass. destruct x as [ok s].
  destruct (ok =? 0); [discriminate|].
  destruct (next_record (input s)) as [more f1].
  destruct (negb more); [discriminate|].
  destruct (scan (with_input s f1) fmt_word) as [args s2].
  destruct args as [|[c|t|n] [|a2 l]]; discriminate.
Qed.

Lemma tile_conf_pass_again ok s ok' s' :
  tile_conf_pass (ok, s) = Some (Again (ok', s')) ->
  ok <> 0 /\ outcome s ok' s' /\
  (String.length (data (input s')) < String.length (data (input s)))%nat.
Proof.
  unfold Trellis.tile_conf_pass.
  destruct (ok =? 0) eqn:Eok; [discriminate|]. apply Z.eqb_neq in Eok.
  destruct (next_record (input s)) as [more f1] eqn:En.
  apply next_record_spec in En. destruct En as [Hl Hc].
  destruct more; simpl; [|discriminate].
  destruct (Hc eq_refl) as (c & r & Hd & Hs & _).
  destruct (fscanf_word f1 c r Hd Hs) as (t & f2 & Hw & _ & Hlt).
  rewrite (scan_eq (with_input s f1) _ _ _ Hw).
  intros H. inversion H as [H1]; clear H.
  apply tile_record_outcome in H1. split; [assumption|].
  split.
  - eapply moved_outcome; [|exact H1].
    apply moved_trans with (with_input s f1); apply moved_input; simpl; lia.
  - apply outcome_consumed in H1. unfold consumed in H1. simpl in H1. lia.
Qed.

Lemma tile_conf_pass_leave ok s ok' s' :
  tile_conf_pass (ok, s) = Some (Leave (ok', s')) ->
  ok' = ok /\ moved s s'.
Proof.
  unfold Trellis.tile_conf_pass.
  destruct (ok =? 0) eqn:Eok.
  { intros H. inversion H; subst. split; [reflexivity | apply moved_here]. }
  destruct (next_record (input s)) as [more f1] eqn:En.
  apply next_record_spec in En. destruct En as [Hl _].
  destruct more; simpl.
  - destruct (scan (with_input s f1) fmt_word) as [args s2] eqn:Es.
    apply moved_scan in Es.
    assert (Hm : moved s s2).
    { eapply moved_trans; [|exact Es]. now apply moved_input. }
    destruct args as [|[c|t|n] [|a2 l]]; intros H; inversion H; subst; auto.
  - intros H. inversion H; subst. split; [reflexivity|].
    now apply moved_input.
Qed.

Lemma tile_conf_pass_return x r : tile_conf_pass x <> Some (Return r).
Proof.
  unfold Trellis.tile_conf_pass. destruct x as [ok s].
  destruct (ok =? 0); [discriminate|].
  destruct (next_record (input s)) as [more f1].
  destruct (negb more); [discriminate|].
  destruct (scan (with_input s f1) fmt_word) as [args s2].
  destruct args as [|[c|t|n] [|a2 l]]; discriminate.
Qed.

Lemma tile_conf_loop_total fuel ok s :
  (String.length (data (input s)) <= fuel)%nat ->
  exists ok' s', loop tile_conf_pass fuel (ok, s) = Some (inl (ok', s')).
Proof.
  apply ok_loop_total.
  - apply tile_conf_pass_some.
  - apply tile_conf_pass_again.
  - apply tile_conf_pass_return.
Qed.

Lemma read_tile_conf_total s : exists r s', read_tile_conf s = Some (r, s').
Proof.
  unfold Trellis.read_tile_conf.
  destruct (tile_conf_loop_total (String.length (data (input s))) 1 s)
    as (ok' & s' & H); [lia|].
  rewrite H. destruct (ok' =? 0); [eauto|].
  destruct (call act s' Commit) as [r s'']. eauto.
Qed.

Lemma tile_conf_loop_outcome fuel s0 ok s ok' s' :
  outcome s0 ok s ->
  loop tile_conf_pass fuel (ok, s) = Some (inl (ok', s')) ->
  outcome s0 ok' s'.
Proof.
  apply ok_loop_outcome.
  - apply tile_conf_pass_again.
  - apply tile_conf_pass_leave.
Qed.

Lemma read_tile_conf_outcome s r s' :
  read_tile_conf s = Some (r, s') -> outcome s r s'.
Proof.
  unfold Trellis.read_tile_conf.
  destruct (loop tile_conf_pass (String.length (data (input s))) (1, s))
    as [[[ok1 s1]|x]|] eqn:El; try discriminate.
  - apply tile_conf_loop_outcome with (s0 := s) in El;
      [|apply outcome_here; discriminate].
    destruct (ok1 =? 0) eqn:Eok; intros H; inversion H; subst; clear H.
    + apply Z.eqb_eq in Eok. now subst.
    + apply Z.eqb_neq in Eok. eapply outcome_seq; [exact El | exact Eok|].
      apply (outcome_call s1 Commit). reflexivity.
  - apply loop_last with (I := fun _ => True) in El; auto.
    destruct El as (a0 & _ & _ & Hr). now apply tile_conf_pass_return in Hr.
Qed.

Ltac destruct_args args :=
  destruct args as [|[ch|tok|num] [|arg2 args']].

#[local] Abbreviation read_tile := (read_tile act char_signed error_cap).
#[local] Abbreviation tile_names_pass := (tile_names_pass act).
#[local] Abbreviation read_tile_group :=
  (read_tile_group act char_signed error_cap).
#[local] Abbreviation bram_pass := (bram_pass act char_signed error_cap).
#[local] Abbreviation read_bram := (read_bram act char_signed error_cap).
#[local] Abbreviation entry := (entry act char_signed error_cap).
#[local] Abbreviation conf_pass := (conf_pass act char_signed error_cap).
#[local] Abbreviation read_conf :=
  (read_conf act char_signed error_cap strerror_errno).

Lemma some_inj (A : Type) (a b : A) : Some a = Some b -> a = b.
Proof. congruence. Qed.

Lemma some_pair (p : Z * state) : exists r s', Some p = Some (r, s').
Proof. destruct p. eauto. Qed.

Lemma read_tile_total s : exists r s', read_tile s = Some (r, s').
Proof.
  unfold Trellis.read_tile.
  destruct (scan s fmt_token) as [args s1].
  destruct_args args; try apply some_pair.
  destruct (call act s1 (Tile tok)) as [ok s2].
  destruct (ok =? 0); [apply some_pair | apply read_tile_conf_total].
Qed.

Lemma read_tile_outcome s r s' : read_tile s = Some (r, s') -> outcome s r s'.
Proof.
  unfold Trellis.read_tile.
  destruct (scan s fmt_token) as [args s1] eqn:Es. intros H.
  eapply outcome_scan; [exact Es|].
  destruct_args args;
    try (apply some_inj in H; eapply outcome_error; exact H).
  destruct (call act s1 (Tile tok)) as [ok s2] eqn:Ec.
  apply outcome_call in Ec.
  destruct (ok =? 0) eqn:Eok.
  - apply Z.eqb_eq in Eok. inversion H; subst. assumption.
  - apply Z.eqb_neq in Eok. apply read_tile_conf_outcome in H.
    eapply outcome_seq; eassumption.
Qed.

(** ** The names of a tile group *)

Lemma tile_names_pass_some x : tile_names_pass x <> None.
Proof.
  unfold Trellis.tile_names_pass. destruct x as [ok s].
  destruct (ok =? 0); [discriminate|].
  destruct (scan s fmt_token) as [args s1].
  destruct_args args; discriminate.
Qed.

Lemma tile_names_pass_return x r : tile_names_pass x <> Some (Return r).
Proof.
  unfold Trellis.tile_names_pass. destruct x as [ok s].
  destruct (ok =? 0); [discriminate|].
  destruct (scan s fmt_token) as [args s1].
  destruct_args args; discriminate.
Qed.

Lemma tile_names_pass_again ok s ok' s' :
  tile_names_pass (ok, s) = Some (Again (ok', s')) ->
  ok <> 0 /\ outcome s ok' s' /\
  (String.length (data (input s')) < String.length (data (input s)))%nat.
Proof.
  unfold Trellis.tile_names_pass.
  destruct (ok =? 0) eqn:Eok; [discriminate|]. apply Z.eqb_neq in Eok.
  destruct (scan s fmt_token) as [args s1] eqn:Es.
  destruct_args args; try discriminate.
  intros H.
  assert (H1 : call act s1 (Tile tok) = (ok', s')) by congruence.
  pose proof (outcome_call _ _ _ _ H1) as Ho.
  apply scan_input in Es. destruct Es as (f & Hf & ->).
  apply fscanf_shrink in Hf. destruct Hf as [Hle Hlt].
  split; [assumption|]. split.
  - eapply outcome_input; [|exact Ho]. lia.
  - apply outcome_consumed in Ho. unfold consumed in Ho. simpl in Ho.
    assert ((String.length (data f) < String.length (data (input s)))%nat)
      by (apply Hlt; discriminate).
    lia.
Qed.

Lemma tile_names_pass_leave ok s ok' s' :
  tile_names_pass (ok, s) = Some (Leave (ok', s')) ->
  ok' = ok /\ moved s s'.
Proof.
  unfold Trellis.tile_names_pass.
  destruct (ok =? 0) eqn:Eok.
  { intros H. inversion H; subst. split; [reflexivity | apply moved_here]. }
  destruct (scan s fmt_token) as [args s1] eqn:Es.
  apply moved_scan in Es.
  destruct_args args; intros H; inversion H; subst; auto.
Qed.

Lemma read_tile_group_total s :
  exists r s', read_tile_group s = Some (r, s').
Proof.
  unfold Trellis.read_tile_group.
  destruct (scan s fmt_token) as [args s1].
  destruct_args args; try apply some_pair.
  destruct (call act s1 (Tile tok)) as [ok s2] eqn:Ec.
  assert (Hi : input s2 = input s1).
  { unfold call in Ec. inversion Ec. reflexivity. }
  destruct (ok_loop_total tile_names_pass tile_names_pass_some
              tile_names_pass_again tile_names_pass_return
              (String.length (data (input s1))) ok s2)
    as (ok' & s3 & Hl); [rewrite Hi; lia|].
  rewrite Hl. destruct (ok' =? 0); [apply some_pair | apply read_tile_conf_total].
Qed.

Lemma read_tile_group_outcome s r s' :
  read_tile_group s = Some (r, s') -> outcome s r s'.
Proof.
  unfold Trellis.read_tile_group.
  destruct (scan s fmt_token) as [args s1] eqn:Es. intros H.
  eapply outcome_scan; [exact Es|].
  destruct_args args;
    try (apply some_inj in H; eapply outcome_error; exact H).
  destruct (call act s1 (Tile tok)) as [ok s2] eqn:Ec.
  apply outcome_call in Ec.
  destruct (loop tile_names_pass (String.length (data (input s1))) (ok, s2))
    as [[[ok3 s3]|x]|] eqn:El; try discriminate.
  - apply ok_loop_outcome with (s0 := s1) in El;
      auto using tile_names_pass_again, tile_names_pass_leave.
    destruct (ok3 =? 0) eqn:Eok.
    + apply Z.eqb_eq in Eok. inversion H; subst. assumption.
    + apply Z.eqb_neq in Eok. apply read_tile_conf_outcome in H.
      eapply outcome_seq; eassumption.
  - now apply ok_loop_no_return in El; [|apply tile_names_pass_return].
Qed.

(** ** Block RAM contents *)

Lemma bram_pass_some index x : bram_pass index x <> None.
Proof.
  unfold Trellis.bram_pass. destruct x as [[ok i] s].
  destruct (ok =? 0); [discriminate|].
  destruct (next_record (input s)) as [more f1].
  destruct (negb more); [discriminate|].
  destruct (scan (with_input s f1) fmt_hex) as [args s2].
  destruct_args args; try discriminate.
Qed.

Lemma bram_pass_again index ok i s ok' i' s' :
  bram_pass index (ok, i, s) = Some (Again (ok', i', s')) ->
  ok <> 0 /\ outcome s ok' s' /\ i' = size_t (i + 1) /\
  (String.length (data (input s')) < String.length (data (input s)))%nat.
Proof.
  unfold Trellis.bram_pass.
  destruct (ok =? 0) eqn:Eok; [discriminate|]. apply Z.eqb_neq in Eok.
  destruct (next_record (input s)) as [more f1] eqn:En.
  apply next_record_spec in En. destruct En as [Hl _].
  destruct more; cbn [negb]; [|discriminate].
  destruct (scan (with_input s f1) fmt_hex) as [args s2] eqn:Es.
  destruct_args args; try discriminate.
  destruct (call act s2 (Data index i num)) as [ok2 s3] eqn:Ec.
  intros H. inversion H; subst; clear H.
  apply outcome_call in Ec.
  apply scan_input in Es. destruct Es as (f & Hf & ->).
  apply fscanf_shrink in Hf. simpl in Hf. destruct Hf as [Hle Hlt].
  assert ((String.length (data f) < String.length (data f1))%nat)
    by (apply Hlt; discriminate).
  split; [assumption|]. split; [|split; [reflexivity|]].
  - eapply outcome_input with (f := f); [lia|exact Ec].
  - apply outcome_consumed in Ec. unfold consumed in Ec. simpl in Ec. lia.
Qed.

Lemma bram_pass_leave index ok i s ok' i' s' :
  bram_pass index (ok, i, s) = Some (Leave (ok', i', s')) ->
  ok' = ok /\ i' = i /\ moved s s'.
Proof.
  unfold Trellis.bram_pass.
  destruct (ok =? 0) eqn:Eok.
  { intros H. inversion H; subst. auto using moved_here. }
  destruct (next_record (input s)) as [more f1] eqn:En.
  apply next_record_spec in En. destruct En as [Hl _].
  destruct more; cbn [negb].
  - destruct (scan (with_input s f1) fmt_hex) as [args s2] eqn:Es.
    destruct_args args; try discriminate.
  - intros H. inversion H; subst. auto using moved_input.
Qed.

Lemma bram_pass_return index ok i s r s' :
  bram_pass index (ok, i, s) = Some (Return (r, s')) ->
  ok <> 0 /\ outcome s r s' /\ r = 0.
Proof.
  unfold Trellis.bram_pass.
  destruct (ok =? 0) eqn:Eok; [discriminate|]. apply Z.eqb_neq in Eok.
  destruct (next_record (input s)) as [more f1] eqn:En.
  apply next_record_spec in En. destruct En as [Hl _].
  destruct more; cbn [negb]; [|discriminate].
  destruct (scan (with_input s f1) fmt_hex) as [args s2] eqn:Es.
  apply moved_scan in Es.
  assert (Hm : moved s s2).
  { eapply moved_trans; [|exact Es]. now apply moved_input. }
  destruct_args args;
    try (destruct (call act s2 (Data index i num)); discriminate).
  all: intros H.
  all: assert (H1 : conf_error s2 "hex bram value required" = (r, s'))
         by congruence.
  all: split; [assumption|].
  all: split; [eapply moved_outcome; [exact Hm|];
               eapply outcome_error; exact H1
              | unfold Trellis.conf_error in H1; congruence].
Qed.

Lemma bram_loop_total index fuel ok i s :
  (String.length (data (input s)) <= fuel)%nat ->
  exists r, loop (bram_pass index) fuel (ok, i, s) = Some r.
Proof.
  intros Hf.
  apply (loop_total (bram_pass index) (fun _ => True)
           (fun x => String.length (data (input (snd x))))); auto.
  - intros a _. apply bram_pass_some.
  - intros [[ok1 i1] s1] [[ok2 i2] s2] _ H. apply bram_pass_again in H.
    simpl. tauto.
Qed.

Lemma bram_loop_outcome index fuel s0 ok i s r :
  outcome s0 ok s ->
  loop (bram_pass index) fuel (ok, i, s) = Some r ->
  match r with
  | inl (ok', _, s') => outcome s0 ok' s'
  | inr (r', s') => outcome s0 r' s'
  end.
Proof.
  intros Ho Hl.
  apply loop_last
    with (I := fun x => outcome s0 (fst (fst x)) (snd x)) in Hl.
  - destruct Hl as ([[ok1 i1] s1] & Hi & _ & Hp). simpl in Hi.
    destruct r as [[[ok' i'] s']|[r' s']].
    + apply bram_pass_leave in Hp. destruct Hp as (-> & _ & Hm).
      eapply outcome_moved; eassumption.
    + apply bram_pass_return in Hp. destruct Hp as (Hok & Ho2 & _).
      eapply outcome_seq; eassumption.
  - intros [[ok1 i1] s1] [[ok2 i2] s2] Hi Hp. simpl in *.
    apply bram_pass_again in Hp. destruct Hp as (Hok & Ho2 & _).
    eapply outcome_seq; eassumption.
  - exact Ho.
Qed.

Lemma read_bram_total s : exists r s', read_bram s = Some (r, s').
Proof.
  unfold Trellis.read_bram.
  destruct (scan s fmt_index) as [args s1].
  destruct_args args; try apply some_pair.
  destruct (call act s1 (Bram num)) as [ok s2] eqn:Ec.
  destruct (bram_loop_total num (String.length (data (input s2))) ok 0 s2)
    as [r Hl]; [lia|].
  rewrite Hl. destruct r as [[[ok' i'] s3]|[r' s3]]; apply some_pair.
Qed.

Lemma read_bram_outcome s r s' : read_bram s = Some (r, s') -> outcome s r s'.
Proof.
  unfold Trellis.read_bram.
  destruct (scan s fmt_index) as [args s1] eqn:Es. intros H.
  eapply outcome_scan; [exact Es|].
  destruct_args args;
    try (apply some_inj in H; eapply outcome_error; exact H).
  destruct (call act s1 (Bram num)) as [ok s2] eqn:Ec.
  apply outcome_call in Ec.
  destruct (loop (bram_pass num) (String.length (data (input s2))) (ok, 0, s2))
    as [x|] eqn:El; [|discriminate].
  apply bram_loop_outcome with (s0 := s1) in El; [|assumption].
  destruct x as [[[ok3 i3] s3]|[r3 s3]].
  - destruct (ok3 =? 0) eqn:Eok.
    + apply Z.eqb_eq in Eok. inversion H; subst. assumption.
    + apply Z.eqb_neq in Eok.
      destruct (call act s3 Commit) as [r4 s4] eqn:Ec4.
      apply outcome_call in Ec4. inversion H; subst.
      eapply outcome_seq; eassumption.
  - inversion H; subst. assumption.
Qed.

(** ** The top level *)

Lemma entry_total verb s : exists r s', entry verb s = Some (r, s').
Proof.
  unfold Trellis.entry.
  repeat break_if;
    auto using read_tile_total, read_tile_group_total, read_bram_total,
      some_pair.
Qed.

Lemma entry_outcome verb s r s' :
  entry verb s = Some (r, s') -> outcome s r s'.
Proof.
  unfold Trellis.entry. intros H.
  repeat break_if;
    auto using read_tile_outcome, read_tile_group_outcome, read_bram_outcome.
  all: apply some_inj in H.
  all: eauto using read_device_outcome, read_comment_outcome,
         read_sysconfig_outcome, outcome_error.
Qed.

Lemma conf_pass_some x : conf_pass x <> None.
Proof.
  unfold Trellis.conf_pass. destruct x as [ok s].
  destruct (ok =? 0); [discriminate|].
  destruct (next_entry_total (input s)) as (more & f1 & ->).
  destruct (negb more); [discriminate|].
  destruct (scan (with_input s f1) fmt_word) as [args s2].
  destruct_args args; try discriminate.
  destruct (entry_total tok s2) as (r & s' & ->). discriminate.
Qed.

Lemma conf_pass_return x r : conf_pass x <> Some (Return r).
Proof.
  unfold Trellis.conf_pass. destruct x as [ok s].
  destruct (ok =? 0); [discriminate|].
  destruct (next_entry (input s)) as [[more f1]|]; [|discriminate].
  destruct (negb more); [discriminate|].
  destruct (scan (with_input s f1) fmt_word) as [args s2].
  destruct_args args; try discriminate.
  destruct (entry tok s2); discriminate.
Qed.

Lemma conf_pass_again ok s ok' s' :
  conf_pass (ok, s) = Some (Again (ok', s')) ->
  ok <> 0 /\ outcome s ok' s' /\
  (String.length (data (input s')) < String.length (data (input s)))%nat.
Proof.
  unfold Trellis.conf_pass.
  destruct (ok =? 0) eqn:Eok; [discriminate|]. apply Z.eqb_neq in Eok.
  destruct (next_entry (input s)) as [[more f1]|] eqn:En; [|discriminate].
  apply next_entry_spec in En. destruct En as [Hl Hc].
  destruct more; cbn [negb]; [|discriminate].
  destruct (Hc eq_refl) as (c & r & Hd & Hs & _).
  destruct (fscanf_word f1 c r Hd Hs) as (t & f2 & Hw & _ & Hlt).
  rewrite (scan_eq (with_input s f1) _ _ _ Hw).
  destruct (entry _ _) as [[r1 s1]|] eqn:Ee; [|discriminate].
  intros H. inversion H; subst; clear H.
  apply entry_outcome in Ee. split; [assumption|].
  split.
  - eapply moved_outcome; [|exact Ee].
    apply moved_trans with (with_input s f1); apply moved_input; simpl; lia.
  - apply outcome_consumed in Ee. unfold consumed in Ee. simpl in Ee. lia.
Qed.

Lemma conf_pass_leave ok s ok' s' :
  conf_pass (ok, s) = Some (Leave (ok', s')) ->
  ok' = ok /\ moved s s'.
Proof.
  unfold Trellis.conf_pass.
  destruct (ok =? 0) eqn:Eok.
  { intros H. inversion H; subst. split; [reflexivity | apply moved_here]. }
  destruct (next_entry (input s)) as [[more f1]|] eqn:En; [|discriminate].
  apply next_entry_spec in En. destruct En as [Hl _].
  destruct more; cbn [negb].
  - destruct (scan (with_input s f1) fmt_word) as [args s2] eqn:Es.
    apply moved_scan in Es.
    assert (Hm : moved s s2).
    { eapply moved_trans; [|exact Es]. now apply moved_input. }
    destruct_args args; try (intros H; inversion H; subst; auto; fail).
    destruct (entry tok s2); discriminate.
  - intros H. inversion H; subst. split; [reflexivity|].
    now apply moved_input.
Qed.

Lemma read_conf_total s : exists r s', read_conf s = Some (r, s').
Proof.
  unfold Trellis.read_conf.
  destruct (ok_loop_total conf_pass conf_pass_some conf_pass_again
              conf_pass_return (String.length (data (input s))) 1 s)
    as (ok' & s' & Hl); [lia|].
  rewrite Hl. apply some_pair.
Qed.

Lemma read_conf_outcome s r s' : read_conf s = Some (r, s') -> outcome s r s'.
Proof.
  unfold Trellis.read_conf.
  destruct (loop conf_pass (String.length (data (input s))) (1, s))
    as [[[ok1 s1]|x]|] eqn:El; try discriminate.
  - apply ok_loop_outcome with (s0 := s) in El;
      auto using conf_pass_again, conf_pass_leave;
      [|apply outcome_here; discriminate].
    destruct (ferror (input s1)); intros H; apply some_inj in H.
    + unfold Trellis.conf_error in H. inversion H; subst; clear H.
      destruct El as (Hc & (n & Hn & Ha) & _ & _).
      unfold Trellis.outcome, consumed, wrote in *. simpl. repeat split.
      * exact Hc.
      * exists n. split; [exact Hn | exact Ha].
      * congruence.
      * intros _. left. eauto.
    + inversion H; subst. exact El.
  - now apply ok_loop_no_return in El; [|apply conf_pass_return].
Qed.

(** ** Termination *)

(** C8: [read_conf] terminates on every stream and with every action
    interface: the fuel it starts with, the number of characters left in
    the stream, is enough for its loops and for those of the readers it
    calls.  Every pass of the top-level loop, of the tile body loop and of
    the bram data loop that does not leave the loop consumes at least one
    character. *)
Theorem read_conf_terminates (s : state) :
  (exists r s', read_conf s = Some (r, s')) /\
  (forall ok s1 ok' s1',
     conf_pass (ok, s1) = Some (Again (ok', s1')) ->
     (String.length (data (input s1')) < String.length (data (input s1)))%nat)
  /\
  (forall ok s1 ok' s1',
     tile_conf_pass (ok, s1) = Some (Again (ok', s1')) ->
     (String.length (data (input s1')) < String.length (data (input s1)))%nat)
  /\
  (forall index ok i s1 ok' i' s1',
     bram_pass index (ok, i, s1) = Some (Again (ok', i', s1')) ->
     (String.length (data (input s1')) < String.length (data (input s1)))%nat).
Proof.
  split; [apply read_conf_total|].
  split; [|split].
  - intros ok s1 ok' s1' H. now apply conf_pass_again in H.
  - intros ok s1 ok' s1' H. now apply tile_conf_pass_again in H.
  - intros index ok i s1 ok' i' s1' H. now apply bram_pass_again in H.
Qed.

(** ** Positions of block RAM data *)

Lemma bram_pass_again_event index ok i s ok' i' s' :
  bram_pass index (ok, i, s) = Some (Again (ok', i', s')) ->
  i' = size_t (i + 1) /\
  exists v, events s' = (events s ++ [Data index i v])%list.
Proof.
  unfold Trellis.bram_pass.
  destruct (ok =? 0); [discriminate|].
  destruct (next_record (input s)) as [more f1].
  destruct (negb more); [discriminate|].
  destruct (scan (with_input s f1) fmt_hex) as [args s2] eqn:Es.
  apply moved_scan in Es. destruct Es as (_ & _ & Hc & _).
  destruct_args args; try discriminate.
  unfold call. intros H. inversion H; subst; clear H.
  split; [reflexivity|]. exists num.
  unfold events. simpl. rewrite map_app, Hc. reflexivity.
Qed.

Lemma bram_counter index a b :
  reaches (bram_pass index) a b ->
  forall k, snd (fst a) = size_t (Z.of_nat k) ->
  exists values,
    events (snd b) = (events (snd a) ++ numbered index k values)%list /\
    snd (fst b) = size_t (Z.of_nat (k + List.length values)).
Proof.
  induction 1 as [a | a a1 a2 Hp _ IH]; intros k Hk.
  - exists []. simpl. rewrite app_nil_r, Nat.add_0_r. auto.
  - destruct a as [[ok i] s], a1 as [[ok1 i1] s1]. simpl in Hk. subst i.
    apply bram_pass_again_event in Hp. destruct Hp as [Hi [v Hv]].
    destruct (IH (S k)) as (vs & He & Hn).
    + simpl. rewrite Hi. unfold size_t.
      rewrite Z.add_mod_idemp_l by lia. f_equal. lia.
    + exists (v :: vs). simpl in *. split.
      * rewrite He, Hv, <- app_assoc. reflexivity.
      * rewrite Hn. f_equal. lia.
Qed.

(** ** Unknown keywords *)

Lemma tile_record_unknown type (s : state) :
  streq type "arc:" = false -> streq type "word:" = false ->
  streq type "enum:" = false -> streq type "unknown:" = false ->
  tile_record act error_cap type s
  = conf_error s ("unknown tile record type '" ++ type ++ "'").
Proof. unfold tile_record. intros -> -> -> ->. reflexivity. Qed.

Ltac leaf_calls fmt :=
  let H := fresh "H" in
  let E := fresh "E" in
  intros H;
  match type of H with
  | context [scan ?s fmt] =>
      destruct (scan s fmt) as [? ?] eqn:E;
      apply moved_scan in E; destruct E as (_ & _ & E & _);
      repeat match type of H with
             | context [match ?x with _ => _ end] => destruct x
             end;
      unfold call, Trellis.conf_error in H; inversion H; subst; simpl;
      rewrite E;
      first [ exists []; rewrite app_nil_r; simpl; tauto
            | eexists [_]; split; [reflexivity|];
              simpl; intros [Hc|[]]; discriminate Hc ]
  end.

(** The records of a tile body make no [on_commit] call. *)
Lemma tile_record_calls type (s : state) r s' :
  tile_record act error_cap type s = (r, s') ->
  exists new, calls s' = (calls s ++ new)%list /\ ~ In Commit (map fst new).
Proof.
  unfold tile_record. intros H. repeat break_if.
  - revert H. unfold read_arc. leaf_calls fmt_pair.
  - revert H. unfold read_word. leaf_calls fmt_pair.
  - revert H. unfold read_enum. leaf_calls fmt_pair.
  - revert H. unfold read_unknown. leaf_calls fmt_token.
  - unfold Trellis.conf_error in H. inversion H; subst. simpl.
    exists []. rewrite app_nil_r. simpl. tauto.
Qed.

Lemma tile_conf_pass_calls ok s ok' s' :
  tile_conf_pass (ok, s) = Some (Again (ok', s')) ->
  exists new, calls s' = (calls s ++ new)%list /\ ~ In Commit (map fst new).
Proof.
  unfold Trellis.tile_conf_pass.
  destruct (ok =? 0); [discriminate|].
  destruct (next_record (input s)) as [more f1].
  destruct (negb more); [discriminate|].
  destruct (scan (with_input s f1) fmt_word) as [args s2] eqn:Es.
  apply moved_scan in Es. destruct Es as (_ & _ & Hc & _). simpl in Hc.
  destruct_args args; try discriminate.
  intros H.
  assert (H1 : tile_record act error_cap tok s2 = (ok', s')) by congruence.
  apply tile_record_calls in H1. now rewrite Hc in H1.
Qed.

Lemma tile_body_calls a b :
  reaches tile_conf_pass a b ->
  exists new, calls (snd b) = (calls (snd a) ++ new)%list /\
              ~ In Commit (map fst new).
Proof.
  induction 1 as [a | a a1 a2 Hp _ IH].
  - exists []. rewrite app_nil_r. simpl. tauto.
  - destruct a as [ok s], a1 as [ok1 s1].
    apply tile_conf_pass_calls in Hp. destruct Hp as (n1 & H1 & Hn1).
    destruct IH as (n2 & H2 & Hn2). simpl in *.
    exists (n1 ++ n2)%list. split.
    + now rewrite H2, H1, app_assoc.
    + rewrite map_app, in_app_iff. tauto.
Qed.

(** A keyword that is none of the four ends the block with the message
    about it, right after the keyword. *)
Lemma tile_body_fails (s0 s : state) ok f1 type s2 :
  reaches tile_conf_pass (1, s0) (ok, s) -> ok <> 0 ->
  next_record (input s) = (true, f1) ->
  scan (with_input s f1) fmt_word = ([AStr type], s2) ->
  streq type "arc:" = false -> streq type "word:" = false ->
  streq type "enum:" = false -> streq type "unknown:" = false ->
  read_tile_conf s0
  = Some (conf_error s2 ("unknown tile record type '" ++ type ++ "'")) /\
  exists new, calls s2 = (calls s0 ++ new)%list /\ ~ In Commit (map fst new).
Proof.
  intros Hr Hok Hn Hs Ha Hw He Hu. split.
  - unfold Trellis.read_tile_conf.
    rewrite (ok_loop_ends tile_conf_pass tile_conf_pass_some
               tile_conf_pass_again tile_conf_pass_return _ 1 s0
               (inl (conf_error s2
                       ("unknown tile record type '" ++ type ++ "'"))));
      [reflexivity | lia |].
    eapply reaches_ends; [exact Hr|].
    eapply ends_again with (a' := conf_error s2
      ("unknown tile record type '" ++ type ++ "'"));
      [|apply ends_leave; reflexivity].
    unfold Trellis.tile_conf_pass.
    apply Z.eqb_neq in Hok. rewrite Hok, Hn. cbn [negb]. rewrite Hs.
    now rewrite tile_record_unknown.
  - apply tile_body_calls in Hr. simpl in Hr.
    apply moved_scan in Hs. destruct Hs as (_ & _ & Hc & _). simpl in Hc.
    now rewrite Hc.
Qed.

Lemma fscanf_word_length f v f' :
  fscanf f fmt_word = ([AStr v], f') -> (String.length v <= 15)%nat.
Proof.
  unfold fmt_word. simpl.
  destruct (read_run None isspace (data f)) as [[ws s1] h1].
  destruct (read_run (Some 15%nat) (fun c => negb (isspace c)) s1)
    as [[tok s2] h2] eqn:E.
  apply read_run_width in E.
  destruct (is_empty tok); intros H; inversion H; subst.
  pose proof (cstr_length tok). lia.
Qed.

Lemma entry_unknown verb (s : state) :
  streq verb ".device" = false -> streq verb ".comment" = false ->
  streq verb ".sysconfig" = false -> streq verb ".tile" = false ->
  streq verb ".tile_group" = false -> streq verb ".bram_init" = false ->
  entry verb s = Some (conf_error s ("unknown verb '" ++ verb ++ "'")).
Proof. unfold Trellis.entry. intros -> -> -> -> -> ->. reflexivity. Qed.

(** C6, with the read error and the buffer's capacity set apart: a
    top-level token that the lookahead reports and that is none of the
    six verbs makes [read_conf] fail at once: nothing is read and no
    callback is invoked after the token.  On a stream without a read
    error the message is [unknown verb '<token>'], cut to the buffer's
    capacity; it contains the token when the buffer holds the 29
    characters that the longest such message needs.  On a stream with a
    read error the message is [strerror (errno)] instead. *)
Theorem unknown_verb (s0 s : state) ok f1 verb s2 :
  reaches conf_pass (1, s0) (ok, s) -> ok <> 0 ->
  next_entry (input s) = Some (true, f1) ->
  scan (with_input s f1) fmt_word = ([AStr verb], s2) ->
  streq verb ".device" = false -> streq verb ".comment" = false ->
  streq verb ".sysconfig" = false -> streq verb ".tile" = false ->
  streq verb ".tile_group" = false -> streq verb ".bram_init" = false ->
  exists s',
    read_conf s0 = Some (0, s') /\
    input s' = input s2 /\ calls s' = calls s /\ cookie s' = cookie s /\
    (ferror (input s2) = false ->
     error s' = Some (snprintf error_cap ("unknown verb '" ++ verb ++ "'")) /\
     ((29 <= error_cap)%nat ->
      exists msg, error s' = Some msg /\ contains verb msg)) /\
    (ferror (input s2) = true ->
     error s' = Some (snprintf error_cap strerror_errno)).
Proof.
  intros Hr Hok Hn Hs H1 H2 H3 H4 H5 H6.
  pose (m := "unknown verb '" ++ verb ++ "'").
  assert (Hl : loop conf_pass (String.length (data (input s0))) (1, s0)
               = Some (inl (conf_error s2 m))).
  { apply (ok_loop_ends conf_pass conf_pass_some conf_pass_again
             conf_pass_return); [lia|].
    eapply reaches_ends; [exact Hr|].
    eapply ends_again with (a' := conf_error s2 m);
      [|apply ends_leave; reflexivity].
    unfold Trellis.conf_pass.
    apply Z.eqb_neq in Hok. rewrite Hok, Hn. cbn [negb]. rewrite Hs.
    now rewrite entry_unknown. }
  pose proof Hs as Hm. apply moved_scan in Hm.
  destruct Hm as (Hck & _ & Hc & _). simpl in Hck, Hc.
  unfold Trellis.read_conf. rewrite Hl. simpl.
  destruct (ferror (input s2)) eqn:Hf.
  - eexists. split; [reflexivity|]. simpl.
    repeat split; auto; discriminate.
  - eexists. split; [reflexivity|]. simpl.
    repeat split; auto; try discriminate.
    intros Hcap. eexists. split; [reflexivity|].
    apply scan_input in Hs. destruct Hs as (f & Hw & _).
    apply fscanf_word_length in Hw.
    unfold snprintf, contains, m.
    rewrite substring_append by (simpl; lia).
    rewrite substring_append by (simpl; lia).
    eexists. eexists. reflexivity.
Qed.

(** ** Comment lines *)

Lemma next_entry_ends f r :
  ends (next_entry_pass char_signed) (0, f) r ->
  loop (next_entry_pass char_signed) (String.length (data f)) (0, f) = Some r.
Proof.
  intros He.
  destruct (loop_total (next_entry_pass char_signed) (fun _ => True)
              (fun x => String.length (data (snd x))))
    with (fuel := String.length (data f)) (a := (0, f)) as [r' Hr'].
  - intros a _. apply next_entry_pass_some.
  - intros a [la f'] _ H. split; [exact I|].
    eapply next_entry_pass_again; eassumption.
  - exact I.
  - simpl. lia.
  - rewrite Hr'. f_equal. eapply ends_unique; [|exact He].
    now exists (String.length (data f)).
Qed.

Lemma next_ns_newline rest fl e :
  next_ns {| data := String LF rest; fault := fl; err := e |}
  = next_ns {| data := rest; fault := fl; err := e |}.
Proof.
  unfold Trellis.next_ns, fmt_char. simpl.
  destruct (read_run None isspace rest) as [[ws r] h].
  reflexivity.
Qed.

(** At the top level a line that starts with [#] is skipped: the
    lookahead is what it is behind the line. *)
Lemma next_entry_comment line rest fl e :
  all (fun c => negb (Ascii.eqb c LF)) line = true ->
  next_entry {| data := String "#" (line ++ String LF rest);
                fault := fl; err := e |}
  = next_entry {| data := rest; fault := fl; err := e |}.
Proof.
  intros Hline.
  destruct (next_entry_total {| data := rest; fault := fl; err := e |})
    as (more & f' & Hn).
  rewrite Hn. unfold Trellis.next_entry in *.
  destruct (loop (next_entry_pass char_signed)
              (String.length (data {| data := rest; fault := fl; err := e |}))
              (0, {| data := rest; fault := fl; err := e |}))
    as [[[la f1]|[]]|] eqn:El; try discriminate.
  rewrite (next_entry_ends _ (inl (la, f1))); [assumption|].
  eapply ends_again
    with (a' := (code "#",
                 {| data := String LF rest; fault := fl; err := e |})).
  - unfold next_entry_pass, Trellis.next_ns, fmt_char. cbn.
    rewrite char_int_of_hash. cbn.
    assert (Hl : all (fun c => if Ascii.eqb c LF || false then false
                               else true) line = true).
    { revert Hline. apply all_impl. intros c Hc.
      destruct (Ascii.eqb c LF); [discriminate | reflexivity]. }
    rewrite (read_run_app _ line LF rest Hl eq_refl).
    destruct e, (is_empty line); reflexivity.
  - exists (String.length rest).
    rewrite <- El. apply loop_same_pass.
    unfold next_entry_pass. simpl. now rewrite next_ns_newline.
Qed.






(** ** Missing fields *)

(** C7, with the messages as the readers write them: a leaf reader that
    cannot extract its fields returns failure, writes its message (cut to
    the buffer's capacity) and makes no call: [device name required],
    [empty comment], [arc requires sink and source],
    [word requires name and value], [enum requires name and value],
    [unknown requires value], and a message of its own for [sysconfig]. *)
Theorem leaf_reader_missing_field (k : leaf) (s : state) :
  List.length (fst (fscanf (input s) (leaf_format k))) <> leaf_fields k ->
  exists m s',
    leaf_reader act error_cap k s = (0, s') /\
    error s' = Some (snprintf error_cap m) /\
    calls s' = calls s /\ cookie s' = cookie s /\
    (forall m', leaf_message k = Some m' -> m = m').
Proof.
  intros H.
  destruct k; unfold leaf_reader, read_device, read_comment, read_sysconfig,
    read_arc, read_word, read_enum, read_unknown, scan;
    simpl leaf_format in *; simpl leaf_fields in *;
    match goal with
    | |- context [fscanf (input s) ?fmt] =>
        destruct (fscanf (input s) fmt) as [args f]
    end;
    simpl in H;
    repeat match goal with
           | |- context [match ?x with _ => _ end] => destruct x
           end;
    simpl in H; try congruence;
    unfold Trellis.conf_error; simpl;
    eexists; eexists; (split; [reflexivity|]); simpl;
    (split; [reflexivity|]); repeat split; congruence.
Qed.

(** ** The boundary of the names of a tile group *)

Lemma blank_is_space c : mem c blank = true -> isspace c = true.
Proof.
  unfold blank. simpl. intros H.
  apply orb_true_iff in H. destruct H as [H|H].
  - apply Ascii.eqb_eq in H. now subst.
  - rewrite orb_false_r in H. apply Ascii.eqb_eq in H. now subst.
Qed.

(** ["%*[ \t]%ms"] in front of a character that is neither a space nor a
    tab reads nothing. *)
Lemma fscanf_token_stop f c r :
  data f = String c r -> mem c blank = false ->
  exists f', fscanf f fmt_token = ([], f') /\ data f' = data f.
Proof.
  intros Hd Hc.
  assert (D1 : directive_run (DConv false None (CSet false blank)) (data f)
               = (Stop, data f, false)).
  { rewrite Hd. unfold directive_run, conv_run. cbn [read_run option_map].
    cbn [xorb]. rewrite Hc. reflexivity. }
  unfold fmt_token. rewrite (fscanf_cons _ _ _ _ _ _ D1).
  eexists. split; reflexivity.
Qed.

(** ["%*[ \t]%ms"] in front of a space or a tab reads the next token,
    whatever white space comes before it. *)
Lemma fscanf_token_next f c ws tok rest :
  data f = String c (ws ++ tok ++ rest) ->
  mem c blank = true -> all isspace ws = true ->
  tok <> "" -> all (fun x => negb (isspace x)) tok = true ->
  (rest = "" \/ exists x rest', rest = String x rest' /\ isspace x = true) ->
  exists f', fscanf f fmt_token = ([AStr (cstr tok)], f') /\ data f' = rest.
Proof.
  intros Hd Hc Hws Hne Htok Hrest.
  destruct tok as [|d tok']; [congruence|]. clear Hne.
  simpl in Htok. apply andb_true_iff in Htok. destruct Htok as [Hd' Htok].
  apply negb_true_iff in Hd'.
  assert (Hb : mem d blank = false).
  { destruct (mem d blank) eqn:E; [|reflexivity].
    apply blank_is_space in E. congruence. }
  destruct (read_run_prefix (fun x => xorb false (mem x blank)) d
              (tok' ++ rest) ws Hb) as (w1 & w2 & Hw & Hr1).
  assert (Hw2 : all isspace w2 = true).
  { rewrite Hw, all_app in Hws. apply andb_true_iff in Hws. tauto. }
  pose proof (read_run_app isspace w2 d (tok' ++ rest) Hw2 Hd') as Hr2.
  assert (Hr3 : exists h,
            read_run None (fun x => negb (isspace x))
              (String d (tok' ++ rest)) = (String d tok', rest, h)).
  { destruct Hrest as [-> | (x & rest' & -> & Hx)].
    - exists true. change (String d (tok' ++ "")) with (String d tok' ++ "").
      assert (He : String d tok' ++ "" = String d tok').
      { clear. induction (String d tok') as [|a u IH]; simpl; congruence. }
      rewrite He. apply read_run_whole. simpl. now rewrite Hd', Htok.
    - exists false.
      change (String d (tok' ++ String x rest'))
        with (String d tok' ++ String x rest').
      apply read_run_app; [simpl; now rewrite Hd', Htok | now rewrite Hx]. }
  destruct Hr3 as [h Hr3].
  assert (D1 : directive_run (DConv false None (CSet false blank)) (data f)
               = (Skip, w2 ++ String d (tok' ++ rest), false)).
  { rewrite Hd. unfold directive_run, conv_run. cbn [read_run option_map].
    cbn [xorb]. rewrite Hc. cbn [xorb] in Hr1.
    change (ws ++ String d tok' ++ rest)
      with (ws ++ String d (tok' ++ rest)).
    rewrite Hr1. reflexivity. }
  assert (D2 : directive_run (DConv true None CStr)
                 (w2 ++ String d (tok' ++ rest))
               = (Got (AStr (cstr (String d tok'))), rest, h)).
  { unfold directive_run, conv_run. rewrite Hr2, Hr3. reflexivity. }
  unfold fmt_token. rewrite (fscanf_cons _ _ _ _ _ _ D1).
  rewrite (fscanf_cons (arrive f _ _) _ _ _ _ _ D2).
  eexists. split; reflexivity.
Qed.


(** ** Runs on given text *)

Lemma succeeds_eqb :
  all_succeed act -> forall e c, (fst (perform act e c) =? 0) = false.
Proof. intros H e c. apply Z.eqb_neq. apply H. Qed.

Ltac callback_succeeds H :=
  match goal with
  | |- context [fst ?x =? 0] =>
      let E := fresh "E" in
      assert (E : (fst x =? 0) = false)
        by first [ exact (succeeds_eqb H (Device _) _)
                 | exact (succeeds_eqb H (Comment _) _)
                 | exact (succeeds_eqb H (Sysconfig _ _) _)
                 | exact (succeeds_eqb H (Tile _) _)
                 | exact (succeeds_eqb H (Arc _ _) _)
                 | exact (succeeds_eqb H (Word _ _) _)
                 | exact (succeeds_eqb H (Enum _ _) _)
                 | exact (succeeds_eqb H (Unknown _) _)
                 | exact (succeeds_eqb H (Bram _) _)
                 | exact (succeeds_eqb H (Data _ _ _) _)
                 | exact (succeeds_eqb H Commit _) ];
      rewrite E; clear E; cbn
  end.

Ltac run H :=
  cbn;
  repeat first
    [ callback_succeeds H
    | progress (unfold Trellis.read_tile_conf, Trellis.read_tile,
                Trellis.read_tile_group, Trellis.read_bram,
                Trellis.tile_conf_pass, Trellis.tile_names_pass,
                Trellis.bram_pass, Trellis.conf_pass, Trellis.next_entry,
                Trellis.next_record; cbn) ].

(** C3: [.tile_group A B C], then [arc: x y] on the next line, then a new
    verb, with callbacks that all succeed: the pass of the top-level loop
    over this entry calls [on_tile] for [A], [B] and [C], then [on_arc]
    for [x] and [y], then [on_commit] once, and stops in front of the new
    verb. *)
Theorem tile_group_example (s : state) (rest : string) (fl e : bool) :
  all_succeed act ->
  input s = {| data := tile_group_text ++ "." ++ rest;
               fault := fl; err := e |} ->
  exists ok' s',
    conf_pass (1, s) = Some (Again (ok', s')) /\ ok' <> 0 /\
    events s' = (events s
                 ++ [Tile "A"; Tile "B"; Tile "C"; Arc "x" "y"; Commit])%list
    /\ data (input s') = "." ++ rest.
Proof.
  intros H Hin. destruct s as [c er inp cl]. simpl in Hin. subst inp.
  unfold Trellis.conf_pass, Trellis.next_entry, tile_group_text.
  destruct char_signed; run H.
  all: eexists; eexists; split; [reflexivity|].
  all: split; [exact (H Commit _)|].
  all: split; [|reflexivity].
  all: unfold events; cbn; rewrite !map_app; cbn.
  all: rewrite <- !app_assoc; reflexivity.
Qed.

(** C4: [.bram_init 5], the lines [0a], [1b], [2c], then end of stream,
    with callbacks that all succeed: [on_bram (5)], [on_data] for
    positions 0, 1, 2 with the values 0x0a, 0x1b, 0x2c, and [on_commit].
    In every block the position is a counter from 0 that goes up by one
    for each value read. *)
Theorem bram_init_example :
  (all_succeed act ->
   forall c, exists r s',
     read_conf (start c (stream bram_init_text)) = Some (r, s') /\
     r <> 0 /\
     events s' = [Bram 5; Data 5 0 10; Data 5 1 27; Data 5 2 44; Commit]) /\
  (forall index ok0 s0 ok i s,
     reaches (bram_pass index) (ok0, 0, s0) (ok, i, s) ->
     exists values,
       events s = (events s0 ++ numbered index 0 values)%list /\
       i = size_t (Z.of_nat (List.length values))).
Proof.
  split.
  - intros H c.
    unfold Trellis.read_conf, Trellis.conf_pass, Trellis.next_entry,
      bram_init_text, start, stream.
    destruct char_signed; run H.
    all: eexists; eexists; split; [reflexivity|].
    all: split; [exact (H Commit _) | reflexivity].
  - intros index ok0 s0 ok i s Hr.
    destruct (bram_counter index _ _ Hr O eq_refl) as (vs & He & Hi).
    exists vs. simpl in *. auto.
Qed.

End Parser.

(** ** Closed instances *)

(** C2: [.device x] with an [on_device] that returns failure makes
    [read_conf] fail and leaves the buffer unwritten. *)
Lemma callback_failure_writes_nothing : ~ written_iff_failure.
Proof.
  intros H.
  specialize (H unit (answer 0) true 127%nat EIO tt (stream ".device x") 0
                {| cookie := tt; error := None; input := stream "";
                   calls := [(Device "x", 0)] |} eq_refl).
  simpl in H. destruct H as [_ H]. now apply H.
Qed.

(** C7: [.comment] without text writes [empty comment], which has
    neither of the two forms. *)
Lemma empty_comment_has_other_form : ~ missing_field_form.
Proof.
  intros H.
  destruct (H unit (answer 1) 127%nat LComment (start tt (stream newline)))
    as (m & Hm & Hf).
  - lia.
  - vm_compute. discriminate.
  - vm_compute in Hm. inversion Hm; subst. vm_compute in Hf. discriminate.
Qed.

Lemma contains_first c needle hay :
  contains (String c needle) hay -> mem c hay = true.
Proof.
  intros (p & q & ->). induction p as [|a p IH]; simpl in *.
  - now rewrite Ascii.eqb_refl.
  - rewrite IH. apply orb_true_r.
Qed.

(** C6: [.frob] on a stream that fails right behind it makes [read_conf]
    fail with the message of the read error, which does not contain the
    token. *)
Lemma read_error_hides_verb : ~ unknown_verb_is_named.
Proof.
  intros H.
  destruct (H unit (answer 1) true 127%nat EIO tt
              {| data := ".frob"; fault := true; err := false |}
              {| data := ""; fault := true; err := true |} ".frob")
    as (s' & msg & Hr & Hm & Hc);
    try reflexivity; [lia|].
  vm_compute in Hr. inversion Hr; subst. simpl in Hm.
  inversion Hm; subst. apply contains_first in Hc. discriminate.
Qed.


Lemma leaf_reader_missing_field_witness :
  exists m s',
    leaf_reader (answer 1) 127%nat LDevice (start tt (stream newline))
      = (0, s') /\
    error s' = Some (snprintf 127%nat m) /\
    calls s' = [] /\ cookie s' = tt /\
    (forall m', leaf_message LDevice = Some m' -> m = m').
Proof.
  apply (leaf_reader_missing_field (answer 1) 127%nat LDevice
           (start tt (stream newline))).
  vm_compute. discriminate.
Defined.

Lemma answer_succeeds : all_succeed (answer 1).
Proof. intros e c. destruct e; discriminate. Defined.

Lemma read_conf_terminates_witness :
  exists r s',
    Trellis.read_conf (answer 1) true 127%nat EIO verbs_start = Some (r, s').
Proof.
  exact (proj1 (read_conf_terminates (answer 1) true 127%nat EIO verbs_start)).
Defined.

Lemma tile_group_example_witness :
  exists ok' s',
    Trellis.conf_pass (answer 1) true 127%nat
      (1, start tt (stream (tile_group_text ++ "." ++ "device d")))
    = Some (Again (ok', s')) /\ ok' <> 0 /\
    events s' = [Tile "A"; Tile "B"; Tile "C"; Arc "x" "y"; Commit] /\
    data (input s') = "." ++ "device d".
Proof.
  apply (tile_group_example (answer 1) true 127%nat
           (start tt (stream (tile_group_text ++ "." ++ "device d")))
           "device d" false false).
  - exact answer_succeeds.
  - reflexivity.
Defined.

Lemma bram_init_example_witness :
  exists r s',
    Trellis.read_conf (answer 1) true 127%nat EIO
      (start tt (stream bram_init_text)) = Some (r, s') /\
    r <> 0 /\
    events s' = [Bram 5; Data 5 0 10; Data 5 1 27; Data 5 2 44; Commit].
Proof.
  apply (proj1 (bram_init_example (answer 1) true 127%nat EIO)).
  exact answer_succeeds.
Defined.

Lemma unknown_verb_witness :
  exists s',
    Trellis.read_conf (answer 1) true 127%nat EIO verbs_start
    = Some (0, s') /\
    input s' = input verbs_after_frobnicate /\
    calls s' = calls verbs_after_device /\
    cookie s' = cookie verbs_after_device /\
    (ferror (input verbs_after_frobnicate) = false ->
     error s' = Some (snprintf 127 ("unknown verb '" ++ ".frobnicate"
                                    ++ "'")) /\
     ((29 <= 127)%nat ->
      exists msg, error s' = Some msg /\ contains ".frobnicate" msg)) /\
    (ferror (input verbs_after_frobnicate) = true ->
     error s' = Some (snprintf 127 EIO)).
Proof.
  apply (unknown_verb (answer 1) true 127%nat EIO verbs_start
           verbs_after_device 1 verbs_at_frobnicate ".frobnicate"
           verbs_after_frobnicate).
  - eapply reaches_next with (a' := (1, verbs_after_device));
      [vm_compute; reflexivity | apply reaches_here].
  - discriminate.
  - vm_compute. reflexivity.
  - vm_compute. reflexivity.
  - reflexivity.
  - reflexivity.
  - reflexivity.
  - reflexivity.
  - reflexivity.
  - reflexivity.
Defined.


(** A name followed directly by a newline ends the names: the body
    follows. *)
Example names_end_at_newline :
  option_map (fun x => events (snd x))
    (Trellis.read_conf (answer 1) true 127%nat EIO
       (start tt (stream (".tile_group A B C" ++ newline ++ "arc: x y"
                          ++ newline))))
  = Some [Tile "A"; Tile "B"; Tile "C"; Arc "x" "y"; Commit].
Proof. vm_compute. reflexivity. Qed.

(** A space at the end of the line of names: the keyword and the fields
    of the record on the next line become tile names. *)
Example names_go_on_after_blank :
  option_map (fun x => events (snd x))
    (Trellis.read_conf (answer 1) true 127%nat EIO
       (start tt (stream (".tile_group A B C " ++ newline ++ "arc: x y"
                          ++ newline))))
  = Some [Tile "A"; Tile "B"; Tile "C"; Tile "arc:"; Tile "x"; Tile "y";
          Commit].
Proof. vm_compute. reflexivity. Qed.

(** A stream that fails right behind an unknown verb: the message about
    the verb is replaced by the one of the read error. *)
Example read_error_replaces_message :
  option_map (fun x => (fst x, error (snd x)))
    (Trellis.read_conf (answer 1) true 127%nat EIO
       (start tt {| data := ".frob"; fault := true; err := false |}))
  = Some (0, Some EIO).
Proof. vm_compute. reflexivity. Qed.

End TrellisFacts.

(* ================================================================== *)
(** * Facts about the bitmap exporter *)

Module BitmapFacts.
Import CLib Bitmap.

(** The multiply-and-mask formula reverses the bits of a byte. *)
Lemma sample_msb_reverses (b : Z) : sample_msb b = reverse_bits (uchar b).
Proof.
  assert (Hs : sample_msb b = sample_msb (uchar b)).
  { unfold sample_msb, uchar. now rewrite Z.mod_mod by lia. }
  rewrite Hs. unfold uchar at 1 2.
  assert (Hb : 0 <= b mod 256 < 256) by (apply Z.mod_pos_bound; lia).
  assert (Hn : b mod 256 = Z.of_nat (Z.to_nat (b mod 256)))
    by (rewrite Z2Nat.id; lia).
  rewrite Hn.
  assert (Hall : forallb
                   (fun n => sample_msb (Z.of_nat n)
                             =? reverse_bits (Z.of_nat n))
                   (seq 0 256) = true) by (vm_compute; reflexivity).
  rewrite forallb_forall in Hall. apply Z.eqb_eq. apply Hall.
  apply in_seq. lia.
Qed.

Lemma fold_none (body : Z -> list Z -> option (list Z)) (l : list nat) :
  fold_left (fun acc v => match acc with
                          | Some out' => body (Z.of_nat v) out'
                          | None => None
                          end) l None = None.
Proof. induction l as [|a l IH]; simpl; auto. Qed.

Lemma fold_length (body : Z -> list Z -> option (list Z)) (k : nat) :
  (forall v o o', body v o = Some o' ->
                  List.length o' = (List.length o + k)%nat) ->
  forall (l : list nat) out out',
    fold_left (fun acc v => match acc with
                            | Some o => body (Z.of_nat v) o
                            | None => None
                            end) l (Some out) = Some out' ->
    List.length out' = (List.length out + List.length l * k)%nat.
Proof.
  intros Hb. induction l as [|a l IH]; intros out out' H; simpl in *.
  - inversion H. lia.
  - destruct (body (Z.of_nat a) out) as [o|] eqn:E.
    + apply IH in H. apply Hb in E. lia.
    + rewrite fold_none in H. discriminate.
Qed.

(** A loop whose body appends [k] bytes appends [k] bytes per turn. *)
Lemma for_range_length n (body : Z -> list Z -> option (list Z)) (k : nat) :
  (forall v o o', body v o = Some o' ->
                  List.length o' = (List.length o + k)%nat) ->
  forall out out',
    for_range n body out = Some out' ->
    List.length out' = (List.length out + Z.to_nat n * k)%nat.
Proof.
  intros Hb out out' H. unfold for_range in H.
  apply (fold_length body k Hb) in H. now rewrite length_seq in H.
Qed.

Lemma put_sample_length o y x out out' :
  put_sample o y x out = Some out' ->
  List.length out' = (List.length out + 1)%nat.
Proof.
  unfold put_sample.
  destruct (nth_error (bits o) _); [|discriminate].
  destruct (nth_error (mask o) _); [|discriminate].
  intros H. inversion H. now rewrite length_app.
Qed.

(** A successful export writes one byte for every pixel. *)
Lemma export_length h o out :
  bitmap_export h o = Some (1, Some out) ->
  List.length out
  = (List.length (bytes_of (header o))
     + Z.to_nat (height o) * (Z.to_nat (width o) * 1))%nat.
Proof.
  unfold bitmap_export.
  destruct (negb (fopen_ok h)); [discriminate|].
  destruct (negb (fprintf_ok h)); [discriminate|].
  destruct (for_range (height o) _ (bytes_of (header o))) as [out'|] eqn:E;
    [|discriminate].
  destruct (fclose_ok h); [|discriminate].
  intros H. inversion H; subst.
  apply for_range_length with (k := (Z.to_nat (width o) * 1)%nat) in E;
    [assumption|].
  intros v a a' Hv.
  apply for_range_length with (k := 1%nat) in Hv; [assumption|].
  intros x b b'. apply put_sample_length.
Qed.

(** C1: for a bitmap 16 pixels wide and one row high the exporter
    succeeds and writes, after the header, sixteen bytes, each of the two
    samples eight times over; the file of the specification has the two
    samples once each. *)
Theorem export_writes_a_byte_per_pixel :
  bitmap_export works two_bytes
  = Some (1, Some (bytes_of (header two_bytes)
                   ++ [128; 128; 128; 128; 128; 128; 128; 128;
                       12; 12; 12; 12; 12; 12; 12; 12])%list) /\
  packed_file two_bytes
  = Some (bytes_of (header two_bytes) ++ [128; 12])%list.
Proof. split; vm_compute; reflexivity. Qed.

End BitmapFacts.

(* ================================================================== *)
(** * More about the parser *)

Module TrellisMore.
Import CLib Loop Trellis CLibFacts LoopFacts TrellisFacts.

Section Parser.

Context {C : Type}.
Variable act : action C.
Variable char_signed : bool.
Variable error_cap : nat.
Variable strerror_errno : string.

#[local] Abbreviation state := (state C).
#[local] Abbreviation next_ns := (next_ns char_signed).
#[local] Abbreviation next_entry := (next_entry char_signed).
#[local] Abbreviation next_record := (next_record char_signed).
#[local] Abbreviation conf_error := (@conf_error C error_cap).
#[local] Abbreviation tile_conf_pass :=
  (tile_conf_pass act char_signed error_cap).
#[local] Abbreviation read_tile_conf :=
  (read_tile_conf act char_signed error_cap).
#[local] Abbreviation read_tile := (read_tile act char_signed error_cap).
#[local] Abbreviation tile_names_pass := (tile_names_pass act).
#[local] Abbreviation read_tile_group :=
  (read_tile_group act char_signed error_cap).
#[local] Abbreviation bram_pass := (bram_pass act char_signed error_cap).
#[local] Abbreviation read_bram := (read_bram act char_signed error_cap).
#[local] Abbreviation entry := (entry act char_signed error_cap).
#[local] Abbreviation conf_pass := (conf_pass act char_signed error_cap).
#[local] Abbreviation read_conf :=
  (read_conf act char_signed error_cap strerror_errno).

Ltac split_args args := destruct args as [|[ch|tok|num] [|arg2 args']].

(** ** What every reader keeps

    A relation between the state before, the result and the state after
    that holds of a callback, of writing an error and of doing nothing,
    and that is kept by running one reader after another and by moving
    the stream, holds of every reader. *)

Section Readers.

Variable R : state -> Z -> state -> Prop.

Hypothesis R_call : forall s e r s', call act s e = (r, s') -> R s r s'.
Hypothesis R_error : forall s msg r s',
  conf_error s msg = (r, s') -> R s r s'.
Hypothesis R_here : forall s r, r <> 0 -> R s r s.
Hypothesis R_seq : forall s ok s1 r s2,
  R s ok s1 -> ok <> 0 -> R s1 r s2 -> R s r s2.
Hypothesis R_before : forall s s1 r s2, moved s s1 -> R s1 r s2 -> R s r s2.
Hypothesis R_after : forall s r s1 s2, R s r s1 -> moved s1 s2 -> R s r s2.
Hypothesis R_failed : forall s s1 msg r s2,
  R s 0 s1 -> conf_error s1 msg = (r, s2) -> R s r s2.

Ltac leaf_kept fmt :=
  let H := fresh "H" in
  let E := fresh "E" in
  intros H;
  match type of H with
  | context [scan ?s fmt] =>
      destruct (scan s fmt) as [? ?] eqn:E;
      apply moved_scan in E; eapply R_before; [exact E|];
      repeat match type of H with
             | context [match ?x with _ => _ end] => destruct x
             end;
      first [eapply R_call; exact H | eapply R_error; exact H]
  end.

Lemma read_device_kept s r s' :
  read_device act error_cap s = (r, s') -> R s r s'.
Proof. unfold read_device. leaf_kept fmt_token. Qed.

Lemma read_comment_kept s r s' :
  read_comment act error_cap s = (r, s') -> R s r s'.
Proof. unfold read_comment. leaf_kept fmt_line. Qed.

Lemma read_sysconfig_kept s r s' :
  read_sysconfig act error_cap s = (r, s') -> R s r s'.
Proof. unfold read_sysconfig. leaf_kept fmt_pair. Qed.

Lemma read_arc_kept s r s' :
  read_arc act error_cap s = (r, s') -> R s r s'.
Proof. unfold read_arc. leaf_kept fmt_pair. Qed.

Lemma read_word_kept s r s' :
  read_word act error_cap s = (r, s') -> R s r s'.
Proof. unfold read_word. leaf_kept fmt_pair. Qed.

Lemma read_enum_kept s r s' :
  read_enum act error_cap s = (r, s') -> R s r s'.
Proof. unfold read_enum. leaf_kept fmt_pair. Qed.

Lemma read_unknown_kept s r s' :
  read_unknown act error_cap s = (r, s') -> R s r s'.
Proof. unfold read_unknown. leaf_kept fmt_token. Qed.

Lemma tile_record_kept type s r s' :
  tile_record act error_cap type s = (r, s') -> R s r s'.
Proof.
  unfold tile_record. intros H.
  repeat break_if;
    eauto using read_arc_kept, read_word_kept, read_enum_kept,
      read_unknown_kept.
Qed.

(** A loop over [ok] and the state whose passes keep [R]. *)
Lemma ok_loop_kept (pass : Z * state -> option (step (Z * state) (Z * state))) :
  (forall ok s ok' s', pass (ok, s) = Some (Again (ok', s')) ->
                       ok <> 0 /\ R s ok' s') ->
  (forall ok s ok' s', pass (ok, s) = Some (Leave (ok', s')) ->
                       ok' = ok /\ moved s s') ->
  forall fuel s0 ok s ok' s',
    R s0 ok s ->
    loop pass fuel (ok, s) = Some (inl (ok', s')) ->
    R s0 ok' s'.
Proof.
  intros Hagain Hleave fuel s0 ok s ok' s' Hr Hl.
  apply loop_last with (I := fun x => R s0 (fst x) (snd x)) in Hl.
  - destruct Hl as ([ok1 s1] & Hi & _ & Hp). simpl in Hi.
    apply Hleave in Hp. destruct Hp as [-> Hm].
    eapply R_after; eassumption.
  - intros [ok1 s1] [ok2 s2] Hi Hp. simpl in *.
    apply Hagain in Hp. destruct Hp as (Hok & Ho2).
    eapply R_seq; eassumption.
  - exact Hr.
Qed.

Lemma tile_conf_pass_kept ok s ok' s' :
  tile_conf_pass (ok, s) = Some (Again (ok', s')) ->
  ok <> 0 /\ R s ok' s'.
Proof.
  unfold Trellis.tile_conf_pass.
  destruct (ok =? 0) eqn:Eok; [discriminate|]. apply Z.eqb_neq in Eok.
  destruct (next_record (input s)) as [more f1] eqn:En.
  apply next_record_spec in En. destruct En as [Hl _].
  destruct (negb more); [discriminate|].
  destruct (scan (with_input s f1) fmt_word) as [args s2] eqn:Es.
  apply moved_scan in Es.
  split_args args; try discriminate.
  intros H.
  assert (H1 : tile_record act error_cap tok s2 = (ok', s')) by congruence.
  split; [assumption|].
  eapply R_before; [|eapply tile_record_kept; exact H1].
  eapply moved_trans; [|exact Es]. now apply moved_input.
Qed.

Lemma read_tile_conf_kept s r s' :
  read_tile_conf s = Some (r, s') -> R s r s'.
Proof.
  unfold Trellis.read_tile_conf.
  destruct (loop tile_conf_pass (String.length (data (input s))) (1, s))
    as [[[ok1 s1]|x]|] eqn:El; try discriminate.
  - apply (ok_loop_kept tile_conf_pass tile_conf_pass_kept
             (tile_conf_pass_leave act char_signed error_cap) _ s) in El;
      [|apply R_here; discriminate].
    destruct (ok1 =? 0) eqn:Eok; intros H; apply some_inj in H.
    + apply Z.eqb_eq in Eok. inversion H; subst. assumption.
    + apply Z.eqb_neq in Eok. eapply R_seq; [exact El | exact Eok|].
      eapply R_call. exact H.
  - now apply ok_loop_no_return in El; [|apply tile_conf_pass_return].
Qed.

Lemma read_tile_kept s r s' : read_tile s = Some (r, s') -> R s r s'.
Proof.
  unfold Trellis.read_tile.
  destruct (scan s fmt_token) as [args s1] eqn:Es. intros H.
  apply moved_scan in Es. eapply R_before; [exact Es|].
  split_args args;
    try (apply some_inj in H; eapply R_error; exact H).
  destruct (call act s1 (Tile tok)) as [ok s2] eqn:Ec.
  apply R_call in Ec.
  destruct (ok =? 0) eqn:Eok.
  - apply Z.eqb_eq in Eok. inversion H; subst. assumption.
  - apply Z.eqb_neq in Eok. apply read_tile_conf_kept in H.
    eapply R_seq; eassumption.
Qed.

Lemma tile_names_pass_kept ok s ok' s' :
  tile_names_pass (ok, s) = Some (Again (ok', s')) ->
  ok <> 0 /\ R s ok' s'.
Proof.
  unfold Trellis.tile_names_pass.
  destruct (ok =? 0) eqn:Eok; [discriminate|]. apply Z.eqb_neq in Eok.
  destruct (scan s fmt_token) as [args s1] eqn:Es.
  apply moved_scan in Es.
  split_args args; try discriminate.
  intros H.
  assert (H1 : call act s1 (Tile tok) = (ok', s')) by congruence.
  split; [assumption|]. eapply R_before; [exact Es|]. now apply R_call in H1.
Qed.

Lemma read_tile_group_kept s r s' :
  read_tile_group s = Some (r, s') -> R s r s'.
Proof.
  unfold Trellis.read_tile_group.
  destruct (scan s fmt_token) as [args s1] eqn:Es. intros H.
  apply moved_scan in Es. eapply R_before; [exact Es|].
  split_args args;
    try (apply some_inj in H; eapply R_error; exact H).
  destruct (call act s1 (Tile tok)) as [ok s2] eqn:Ec.
  apply R_call in Ec.
  destruct (loop tile_names_pass (String.length (data (input s1))) (ok, s2))
    as [[[ok3 s3]|x]|] eqn:El; try discriminate.
  - apply (ok_loop_kept tile_names_pass tile_names_pass_kept
             (tile_names_pass_leave act) _ s1) in El; [|exact Ec].
    destruct (ok3 =? 0) eqn:Eok.
    + apply Z.eqb_eq in Eok. inversion H; subst. assumption.
    + apply Z.eqb_neq in Eok. apply read_tile_conf_kept in H.
      eapply R_seq; eassumption.
  - now apply ok_loop_no_return in El; [|apply tile_names_pass_return].
Qed.

Lemma bram_pass_kept index ok i s ok' i' s' :
  bram_pass index (ok, i, s) = Some (Again (ok', i', s')) ->
  ok <> 0 /\ R s ok' s'.
Proof.
  unfold Trellis.bram_pass.
  destruct (ok =? 0) eqn:Eok; [discriminate|]. apply Z.eqb_neq in Eok.
  destruct (next_record (input s)) as [more f1] eqn:En.
  apply next_record_spec in En. destruct En as [Hl _].
  destruct (negb more); [discriminate|].
  destruct (scan (with_input s f1) fmt_hex) as [args s2] eqn:Es.
  apply moved_scan in Es.
  split_args args; try discriminate.
  destruct (call act s2 (Data index i num)) as [ok2 s3] eqn:Ec.
  intros H. inversion H; subst; clear H.
  apply R_call in Ec. split; [assumption|].
  eapply R_before; [|exact Ec].
  eapply moved_trans; [|exact Es]. now apply moved_input.
Qed.

Lemma bram_return_kept index ok i s r s' :
  bram_pass index (ok, i, s) = Some (Return (r, s')) ->
  ok <> 0 /\ R s r s'.
Proof.
  unfold Trellis.bram_pass.
  destruct (ok =? 0) eqn:Eok; [discriminate|]. apply Z.eqb_neq in Eok.
  destruct (next_record (input s)) as [more f1] eqn:En.
  apply next_record_spec in En. destruct En as [Hl _].
  destruct (negb more); [discriminate|].
  destruct (scan (with_input s f1) fmt_hex) as [args s2] eqn:Es.
  apply moved_scan in Es.
  assert (Hm : moved s s2).
  { eapply moved_trans; [|exact Es]. now apply moved_input. }
  split_args args;
    try (destruct (call act s2 (Data index i num)); discriminate).
  all: intros H.
  all: assert (H1 : conf_error s2 "hex bram value required" = (r, s'))
         by congruence.
  all: split; [assumption|].
  all: eapply R_before; [exact Hm|]; eapply R_error; exact H1.
Qed.

Lemma bram_loop_kept index fuel s0 ok i s x :
  R s0 ok s ->
  loop (bram_pass index) fuel (ok, i, s) = Some x ->
  match x with
  | inl (ok', _, s') => R s0 ok' s'
  | inr (r', s') => R s0 r' s'
  end.
Proof.
  intros Ho Hl.
  apply loop_last
    with (I := fun x => R s0 (fst (fst x)) (snd x)) in Hl.
  - destruct Hl as ([[ok1 i1] s1] & Hi & _ & Hp). simpl in Hi.
    destruct x as [[[ok' i'] s']|[r' s']].
    + apply bram_pass_leave in Hp. destruct Hp as (-> & _ & Hm).
      eapply R_after; eassumption.
    + apply bram_return_kept in Hp. destruct Hp as (Hok & Ho2).
      eapply R_seq; eassumption.
  - intros [[ok1 i1] s1] [[ok2 i2] s2] Hi Hp. simpl in *.
    apply bram_pass_kept in Hp. destruct Hp as (Hok & Ho2).
    eapply R_seq; eassumption.
  - exact Ho.
Qed.

Lemma read_bram_kept s r s' : read_bram s = Some (r, s') -> R s r s'.
Proof.
  unfold Trellis.read_bram.
  destruct (scan s fmt_index) as [args s1] eqn:Es. intros H.
  apply moved_scan in Es. eapply R_before; [exact Es|].
  split_args args;
    try (apply some_inj in H; eapply R_error; exact H).
  destruct (call act s1 (Bram num)) as [ok s2] eqn:Ec.
  apply R_call in Ec.
  destruct (loop (bram_pass num) (String.length (data (input s2)))
              (ok, 0, s2)) as [x|] eqn:El; [|discriminate].
  apply bram_loop_kept with (s0 := s1) in El; [|assumption].
  destruct x as [[[ok3 i3] s3]|[r3 s3]].
  - destruct (ok3 =? 0) eqn:Eok.
    + apply Z.eqb_eq in Eok. inversion H; subst. assumption.
    + apply Z.eqb_neq in Eok.
      destruct (call act s3 Commit) as [r4 s4] eqn:Ec4.
      apply R_call in Ec4. inversion H; subst.
      eapply R_seq; eassumption.
  - inversion H; subst. assumption.
Qed.

Lemma entry_kept verb s r s' : entry verb s = Some (r, s') -> R s r s'.
Proof.
  unfold Trellis.entry. intros H.
  repeat break_if;
    auto using read_tile_kept, read_tile_group_kept, read_bram_kept.
  all: apply some_inj in H.
  all: eauto using read_device_kept, read_comment_kept, read_sysconfig_kept.
Qed.

Lemma conf_pass_kept ok s ok' s' :
  conf_pass (ok, s) = Some (Again (ok', s')) ->
  ok <> 0 /\ R s ok' s'.
Proof.
  unfold Trellis.conf_pass.
  destruct (ok =? 0) eqn:Eok; [discriminate|]. apply Z.eqb_neq in Eok.
  destruct (next_entry (input s)) as [[more f1]|] eqn:En; [|discriminate].
  apply next_entry_spec in En. destruct En as [Hl _].
  destruct (negb more); [discriminate|].
  destruct (scan (with_input s f1) fmt_word) as [args s2] eqn:Es.
  apply moved_scan in Es.
  split_args args; try discriminate.
  destruct (entry tok s2) as [[r1 s1]|] eqn:Ee; [|discriminate].
  intros H. inversion H; subst; clear H.
  apply entry_kept in Ee. split; [assumption|].
  eapply R_before; [|exact Ee].
  eapply moved_trans; [|exact Es]. now apply moved_input.
Qed.

Lemma read_conf_kept s r s' : read_conf s = Some (r, s') -> R s r s'.
Proof.
  unfold Trellis.read_conf.
  destruct (loop conf_pass (String.length (data (input s))) (1, s))
    as [[[ok1 s1]|x]|] eqn:El; try discriminate.
  - apply (ok_loop_kept conf_pass conf_pass_kept
             (conf_pass_leave act char_signed error_cap) _ s) in El;
      [|apply R_here; discriminate].
    destruct (ferror (input s1)); intros H; apply some_inj in H.
    + destruct (Z.eq_dec ok1 0) as [->|Hok].
      * eapply R_failed; eassumption.
      * eapply R_seq; [exact El | exact Hok|]. eapply R_error. exact H.
    + inversion H; subst. exact El.
  - now apply ok_loop_no_return in El; [|apply conf_pass_return].
Qed.

End Readers.

(** ** Lookahead *)

#[local] Abbreviation char_int := (char_int char_signed).

(** [" %c"] over white space and then a character. *)
Lemma fscanf_char f ws c rest :
  data f = ws ++ String c rest -> all isspace ws = true ->
  isspace c = false ->
  fscanf f fmt_char
  = ([AChar c], arrive (arrive f (String c rest) false) rest false).
Proof.
  intros Hd Hws Hc. unfold fmt_char.
  assert (D1 : directive_run DSpace (data f) = (Skip, String c rest, false)).
  { rewrite Hd. unfold directive_run. now rewrite read_run_app. }
  rewrite (fscanf_cons _ _ _ _ _ _ D1). reflexivity.
Qed.

(** [" %c"] over nothing but white space. *)
Lemma fscanf_char_end f :
  all isspace (data f) = true ->
  fscanf f fmt_char = ([], arrive (arrive f "" true) "" true).
Proof.
  intros Hws. unfold fmt_char.
  assert (D1 : directive_run DSpace (data f) = (Skip, "", true)).
  { unfold directive_run. now rewrite read_run_whole. }
  rewrite (fscanf_cons _ _ _ _ _ _ D1). reflexivity.
Qed.

Lemma next_ns_char f ws c rest :
  data f = ws ++ String c rest -> all isspace ws = true ->
  isspace c = false -> char_int c <> EOF ->
  next_ns f = (char_int c,
               {| data := String c rest; fault := fault f; err := err f |}).
Proof.
  intros Hd Hws Hc He. unfold Trellis.next_ns.
  rewrite (fscanf_char f ws c rest Hd Hws Hc). unfold ungetc.
  apply Z.eqb_neq in He. rewrite He. simpl.
  rewrite unget_char, !orb_false_r. reflexivity.
Qed.

Lemma next_ns_end f :
  all isspace (data f) = true ->
  next_ns f = (EOF, {| data := ""; fault := fault f;
                       err := err f || fault f |}).
Proof.
  intros Hws. unfold Trellis.next_ns. rewrite (fscanf_char_end f Hws).
  unfold arrive. simpl. now destruct (err f), (fault f).
Qed.

(** X4: the lookahead does not consume what it reports: looking again
    gives the same character and leaves the stream as it is; the same for
    [next_record]. *)
Theorem lookahead_again f la f1 :
  next_ns f = (la, f1) -> la <> EOF ->
  next_ns f1 = (la, f1) /\ next_record f1 = (fst (next_record f), f1).
Proof.
  intros H Hla.
  destruct (next_ns_spec _ _ _ _ H) as [_ Hc].
  destruct (Hc Hla) as (c & r & Hd & Hs & Hi).
  assert (Hn : next_ns f1 = (la, f1)).
  { rewrite (next_ns_char f1 "" c r Hd eq_refl Hs) by congruence.
    rewrite Hi. f_equal. destruct f1 as [d fl e]. simpl in Hd.
    now subst d. }
  split; [exact Hn|].
  unfold Trellis.next_record. now rewrite H, Hn.
Qed.

(** ** Empty blocks and empty input *)

Lemma next_entry_leave f la f1 :
  next_ns f = (la, f1) -> la <> code "#" ->
  next_entry f = Some (negb (la =? EOF), f1).
Proof.
  intros Hn Hla. unfold Trellis.next_entry.
  rewrite (next_entry_ends char_signed f (inl (la, f1))); [reflexivity|].
  apply ends_leave. unfold next_entry_pass. simpl. rewrite Hn.
  apply Z.eqb_neq in Hla. now rewrite Hla.
Qed.

Lemma loop_leaves {A B : Type} (pass : A -> option (step A B)) a a' fuel :
  pass a = Some (Leave a') -> loop pass fuel a = Some (inl a').
Proof. intros H. destruct fuel; simpl; now rewrite H. Qed.

(** X12: a tile block with no record, one whose body is white space up to
    the next [.] or up to the end of the stream, is committed at once:
    the only call is [on_commit], and the [.] stays unread. *)
Theorem empty_block_commits (s : state) :
  (forall ws rest,
     data (input s) = ws ++ String "." rest -> all isspace ws = true ->
     read_tile_conf s
     = Some (call act
               (with_input s {| data := String "." rest;
                                fault := fault (input s);
                                err := err (input s) |})
               Commit)) /\
  (all isspace (data (input s)) = true ->
   read_tile_conf s
   = Some (call act
             (with_input s {| data := ""; fault := fault (input s);
                              err := err (input s) || fault (input s) |})
             Commit)).
Proof.
  split.
  - intros ws rest Hd Hws. unfold Trellis.read_tile_conf.
    rewrite (loop_leaves _ _ (1, with_input s
               {| data := String "." rest; fault := fault (input s);
                  err := err (input s) |})); [reflexivity|].
    unfold Trellis.tile_conf_pass, Trellis.next_record. simpl.
    rewrite (next_ns_char (input s) ws "." rest Hd Hws eq_refl)
      by (rewrite char_int_of_dot; discriminate).
    rewrite char_int_of_dot. reflexivity.
  - intros Hws. unfold Trellis.read_tile_conf.
    rewrite (loop_leaves _ _ (1, with_input s
               {| data := ""; fault := fault (input s);
                  err := err (input s) || fault (input s) |}));
      [reflexivity|].
    unfold Trellis.tile_conf_pass, Trellis.next_record. simpl.
    now rewrite (next_ns_end (input s) Hws).
Qed.

(** X6: on a stream with nothing but white space left, [read_conf] makes
    no call; it returns success and leaves the buffer alone when the
    stream ends with end-of-file, and it returns failure with
    [strerror (errno)] in the buffer when the stream ends with a read
    error. *)
Theorem blank_input (s : state) :
  all isspace (data (input s)) = true -> err (input s) = false ->
  exists s',
    calls s' = calls s /\ cookie s' = cookie s /\ data (input s') = "" /\
    (fault (input s) = false ->
     read_conf s = Some (1, s') /\ error s' = error s) /\
    (fault (input s) = true ->
     read_conf s = Some (0, s') /\
     error s' = Some (snprintf error_cap strerror_errno)).
Proof.
  intros Hws He.
  pose proof (next_ns_end (input s) Hws) as Hn.
  assert (Hl : loop conf_pass (String.length (data (input s))) (1, s)
               = Some (inl (1, with_input s
                   {| data := ""; fault := fault (input s);
                      err := err (input s) || fault (input s) |}))).
  { apply loop_leaves. unfold Trellis.conf_pass. simpl.
    rewrite (next_entry_leave _ _ _ Hn) by discriminate. reflexivity. }
  unfold Trellis.read_conf. rewrite Hl. simpl. rewrite He. simpl.
  destruct (fault (input s)); simpl.
  - exists (snd (conf_error
                   (with_input s {| data := ""; fault := true; err := true |})
                   strerror_errno)).
    simpl. repeat split; try reflexivity; discriminate.
  - exists (with_input s {| data := ""; fault := false; err := false |}).
    simpl. repeat split; try reflexivity; discriminate.
Qed.

Lemma loop_again_leaves {A B : Type} (pass : A -> option (step A B))
  a a' a'' fuel :
  pass a = Some (Again a') -> pass a' = Some (Leave a'') ->
  (0 < fuel)%nat -> loop pass fuel a = Some (inl a'').
Proof.
  intros H1 H2 Hf. destruct fuel as [|n]; [lia|].
  simpl. rewrite H1. now apply loop_leaves.
Qed.

Lemma data_nonempty (a : string) c b :
  (0 < String.length (a ++ String c b))%nat.
Proof. rewrite length_append. simpl. lia. Qed.

(** X5: the byte 255 where a verb is looked for.  Where [char] is signed
    the lookahead takes it for end-of-file: the byte is consumed and
    [read_conf] returns success, with the rest of the stream unread.
    Where [char] is unsigned the byte starts a token that is no verb, and
    [read_conf] fails. *)
Theorem byte_255_at_entry (s : state) ws rest :
  data (input s) = ws ++ String "255" rest -> all isspace ws = true ->
  err (input s) = false ->
  (char_signed = true ->
   exists s', read_conf s = Some (1, s') /\ calls s' = calls s /\
              error s' = error s /\ data (input s') = rest) /\
  (char_signed = false ->
   exists s', read_conf s = Some (0, s') /\ calls s' = calls s /\
              error s' <> None).
Proof.
  intros Hd Hws He. split; intros Hsig.
  - assert (Hn : next_ns (input s)
                 = (EOF, arrive (arrive (input s) (String "255" rest) false)
                           rest false)).
    { unfold Trellis.next_ns.
      rewrite (fscanf_char _ ws "255" rest Hd Hws eq_refl).
      unfold Trellis.char_int. rewrite Hsig. reflexivity. }
    exists (with_input s
              (arrive (arrive (input s) (String "255" rest) false)
                 rest false)).
    split; [|simpl; auto].
    unfold Trellis.read_conf.
    rewrite (loop_leaves _ _ (1, with_input s
               (arrive (arrive (input s) (String "255" rest) false)
                  rest false))).
    + simpl. rewrite He. reflexivity.
    + unfold Trellis.conf_pass. simpl.
      rewrite (next_entry_leave _ _ _ Hn) by discriminate. reflexivity.
  - assert (Hc : char_int "255" = 255).
    { unfold Trellis.char_int. rewrite Hsig. reflexivity. }
    pose proof (next_ns_char (input s) ws "255" rest Hd Hws eq_refl) as Hn.
    rewrite Hc in Hn. specialize (Hn ltac:(discriminate)).
    set (f1 := {| data := String "255" rest; fault := fault (input s);
                  err := err (input s) |}) in *.
    destruct (fscanf_word f1 "255" rest eq_refl eq_refl)
      as (t & f2 & Hw & _ & _).
    pose proof (scan_eq (with_input s f1) _ _ _ Hw) as Hs.
    change (cstr (String "255" t)) with (String "255" (cstr t)) in Hs.
    set (verb := String "255" (cstr t)) in *.
    set (bad := conf_error (with_input (with_input s f1) f2)
                  ("unknown verb '" ++ verb ++ "'")).
    assert (Hl : loop conf_pass (String.length (data (input s))) (1, s)
                 = Some (inl bad)).
    { apply loop_again_leaves with (a' := bad).
      - unfold Trellis.conf_pass. simpl.
        rewrite (next_entry_leave _ _ _ Hn) by discriminate. simpl.
        rewrite Hs.
        now rewrite (entry_unknown act char_signed error_cap verb _
                       eq_refl eq_refl eq_refl eq_refl eq_refl eq_refl).
      - reflexivity.
      - rewrite Hd. apply data_nonempty. }
    unfold Trellis.read_conf. rewrite Hl. unfold bad. simpl.
    destruct (ferror f2); eexists; (split; [reflexivity|]); simpl;
      (split; [reflexivity | discriminate]).
Qed.

Lemma next_ns_eof f f' :
  char_signed = false -> next_ns f = (EOF, f') -> data f' = "".
Proof.
  intros Hsig. unfold Trellis.next_ns, fmt_char. simpl.
  destruct (read_run None isspace (data f)) as [[ws r] h] eqn:E.
  destruct r as [|c r]; simpl; intros H.
  - inversion H. reflexivity.
  - inversion H as [[Hc Hf]]. unfold Trellis.char_int in Hc.
    rewrite Hsig in Hc. simpl in Hc. unfold code, EOF in Hc.
    pose proof (N2Z.is_nonneg (N_of_ascii c)). lia.
Qed.

Lemma next_entry_false f f' :
  char_signed = false -> next_entry f = Some (false, f') -> data f' = "".
Proof.
  intros Hsig. unfold Trellis.next_entry.
  destruct (loop (next_entry_pass char_signed) (String.length (data f))
              (0, f)) as [[[la f1]|[]]|] eqn:E; try discriminate.
  intros H. assert (Hla : negb (la =? EOF) = false) by congruence.
  assert (Hf : f1 = f') by congruence. clear H.
  apply negb_false_iff, Z.eqb_eq in Hla.
  apply loop_last with (I := fun _ => True) in E; auto.
  destruct E as ([la0 f0] & _ & _ & Hp).
  unfold next_entry_pass in Hp. simpl in Hp.
  destruct (next_ns f0) as [la1 f2] eqn:En.
  destruct (la1 =? code "#"); [discriminate|].
  assert (H1 : la1 = la) by congruence.
  assert (H2 : f2 = f1) by congruence.
  apply (next_ns_eof f0 f'); [exact Hsig|]. congruence.
Qed.

(** X7: where [char] is unsigned, [read_conf] returns success only with
    the whole stream consumed. *)
Theorem success_reads_all (s : state) r s' :
  char_signed = false -> read_conf s = Some (r, s') -> r <> 0 ->
  data (input s') = "".
Proof.
  intros Hsig. unfold Trellis.read_conf.
  destruct (loop conf_pass (String.length (data (input s))) (1, s))
    as [[[ok1 s1]|x]|] eqn:El; try discriminate.
  - destruct (ferror (input s1)).
    { unfold Trellis.conf_error. intros H Hr. inversion H. congruence. }
    intros H Hr. assert (Hok : ok1 = r) by congruence.
    assert (Hs1 : s1 = s') by congruence. clear H.
    apply loop_last with (I := fun _ => True) in El; auto.
    destruct El as ([ok0 s0] & _ & _ & Hp).
    unfold Trellis.conf_pass in Hp.
    destruct (ok0 =? 0) eqn:Eok.
    { apply Z.eqb_eq in Eok. congruence. }
    destruct (next_entry (input s0)) as [[more f1]|] eqn:En; [|discriminate].
    destruct more; simpl in Hp.
    + apply next_entry_spec in En. destruct En as [_ Hc].
      destruct (Hc eq_refl) as (c & d & Hd & Hs & _).
      destruct (fscanf_word f1 c d Hd Hs) as (t & f2 & Hw & _ & _).
      rewrite (scan_eq (with_input s0 f1) _ _ _ Hw) in Hp.
      destruct (entry _ _); discriminate.
    + assert (Hf : with_input s0 f1 = s') by congruence.
      rewrite <- Hf. simpl. now apply (next_entry_false (input s0)).
  - now apply ok_loop_no_return in El; [|apply conf_pass_return].
Qed.

(** ** The error buffer *)

Lemma substring_length (m : string) : forall n,
  (String.length (substring 0 n m) <= n)%nat.
Proof.
  induction m as [|c m IH]; intros [|n]; simpl; try lia.
  specialize (IH n). lia.
Qed.

(** X8: [read_conf] never puts more into the error buffer than it holds:
    a buffer whose content fits before the call holds a content that fits
    afterwards. *)
Theorem error_fits (s : state) r s' :
  read_conf s = Some (r, s') ->
  (forall m, error s = Some m -> (String.length m <= error_cap)%nat) ->
  forall m, error s' = Some m -> (String.length m <= error_cap)%nat.
Proof.
  apply (read_conf_kept
           (fun s r s' =>
              (forall m, error s = Some m ->
                         (String.length m <= error_cap)%nat) ->
              forall m, error s' = Some m ->
                        (String.length m <= error_cap)%nat)).
  - unfold call. intros s0 e r0 s0' H. inversion H; subst. simpl. auto.
  - unfold Trellis.conf_error. intros s0 msg r0 s0' H. inversion H; subst.
    simpl. intros _ m Hm. inversion Hm. apply substring_length.
  - auto.
  - auto.
  - intros s0 s1 r0 s2 (_ & He & _) H Hs. apply H. now rewrite He.
  - intros s0 r0 s1 s2 H (_ & He & _) Hs. rewrite He. now apply H.
  - unfold Trellis.conf_error. intros s0 s1 msg r0 s2 _ H. inversion H; subst.
    simpl. intros _ m Hm. inversion Hm. apply substring_length.
Qed.

(** ** After a callback has failed *)

(** X17: [read_conf] makes no call after a callback has returned failure:
    of the calls it makes all return success but possibly the last one,
    and when that one returns failure so does [read_conf]. *)
Theorem nothing_after_refusal (s : state) r s' :
  read_conf s = Some (r, s') ->
  exists new, calls s' = (calls s ++ new)%list /\ orderly new r.
Proof.
  apply (read_conf_kept
           (fun s r s' =>
              exists new, calls s' = (calls s ++ new)%list /\
                          orderly new r)).
  - unfold call. intros s0 e r0 s0' H. inversion H; subst. simpl.
    eexists. split; [reflexivity|]. unfold orderly.
    destruct (Z.eq_dec (fst (perform act e (cookie s0))) 0) as [Hz|Hz].
    + exists []. split; [constructor|]. right. rewrite Hz.
      split; [reflexivity | now exists e].
    + eexists. split; [|left; reflexivity]. constructor; [exact Hz|].
      constructor.
  - unfold Trellis.conf_error. intros s0 msg r0 s0' H. inversion H; subst.
    simpl. exists []. rewrite app_nil_r. split; [reflexivity|].
    exists []. split; [constructor | now left].
  - intros s0 r0 _. exists []. rewrite app_nil_r. split; [reflexivity|].
    exists []. split; [constructor | now left].
  - intros s0 ok s1 r0 s2 (n1 & H1 & l1 & Hl1 & Hc1) Hok
           (n2 & H2 & l2 & Hl2 & Hc2).
    destruct Hc1 as [-> | [Hz _]]; [|contradiction].
    exists (l1 ++ n2)%list. split; [now rewrite H2, H1, app_assoc|].
    exists (l1 ++ l2)%list. split; [now apply Forall_app|].
    destruct Hc2 as [-> | (Hz & e & ->)]; [now left|].
    right. split; [exact Hz|]. exists e. now rewrite app_assoc.
  - intros s0 s1 r0 s2 (_ & _ & Hc & _) (n & Hn & Ho).
    exists n. split; [congruence | exact Ho].
  - intros s0 r0 s1 s2 (n & Hn & Ho) (_ & _ & Hc & _).
    exists n. split; [congruence | exact Ho].
  - unfold Trellis.conf_error.
    intros s0 s1 msg r0 s2 (n & Hn & Ho) H. inversion H; subst. simpl.
    exists n. split; [exact Hn | exact Ho].
Qed.

(** ** Comment lines in front of the input *)

(** X18: a line that starts with [#] in front of the input changes
    nothing: [read_conf] gives what it gives on the stream behind the
    line. *)
Theorem leading_comment_line (s : state) line rest fl e :
  all (fun c => negb (Ascii.eqb c LF)) line = true ->
  input s = {| data := String "#" (line ++ String LF rest);
               fault := fl; err := e |} ->
  read_conf s
  = read_conf (with_input s {| data := rest; fault := fl; err := e |}).
Proof.
  intros Hline Hin.
  set (s0 := with_input s {| data := rest; fault := fl; err := e |}).
  assert (Hp : conf_pass (1, s) = conf_pass (1, s0)).
  { unfold Trellis.conf_pass. simpl. rewrite Hin.
    now rewrite (next_entry_comment char_signed line rest fl e Hline). }
  destruct (ok_loop_total act error_cap conf_pass
              (conf_pass_some act char_signed error_cap)
              (conf_pass_again act char_signed error_cap)
              (conf_pass_return act char_signed error_cap)
              (String.length (data (input s0))) 1 s0)
    as (ok' & s' & Hl); [lia|].
  assert (Hl' : loop conf_pass (String.length (data (input s))) (1, s)
                = Some (inl (ok', s'))).
  { apply (ok_loop_ends act error_cap conf_pass
             (conf_pass_some act char_signed error_cap)
             (conf_pass_again act char_signed error_cap)
             (conf_pass_return act char_signed error_cap)); [lia|].
    exists (String.length (data (input s0))).
    now rewrite (loop_same_pass conf_pass _ _ _ Hp). }
  unfold Trellis.read_conf. now rewrite Hl, Hl'.
Qed.

(** ** The calls of a block *)

Lemma call_calls (s : state) e r s' :
  call act s e = (r, s') -> calls s' = (calls s ++ [(e, r)])%list.
Proof. unfold call. intros H. inversion H. reflexivity. Qed.

Lemma tile_record_event type (s : state) r s' :
  tile_record act error_cap type s = (r, s') ->
  (r = 0 /\ calls s' = calls s) \/
  (exists e, record_event e = true /\
             calls s' = (calls s ++ [(e, r)])%list).
Proof.
  unfold tile_record, read_arc, read_word, read_enum, read_unknown.
  intros H.
  repeat break_if;
    repeat match type of H with
           | context [scan ?s0 ?fmt] =>
               let E := fresh "E" in
               destruct (scan s0 fmt) as [? ?] eqn:E;
               apply moved_scan in E; destruct E as (_ & _ & E & _)
           | context [match ?x with _ => _ end] => destruct x
           end;
    unfold call, Trellis.conf_error in H; inversion H; subst; simpl;
    rewrite ?E;
    first [ left; split; reflexivity
          | right; eexists; split; [|reflexivity]; reflexivity ].
Qed.

Lemma tile_conf_pass_record ok s ok' s' :
  tile_conf_pass (ok, s) = Some (Again (ok', s')) ->
  ok <> 0 /\
  exists type s2, calls s2 = calls s /\
                  tile_record act error_cap type s2 = (ok', s').
Proof.
  unfold Trellis.tile_conf_pass.
  destruct (ok =? 0) eqn:Eok; [discriminate|]. apply Z.eqb_neq in Eok.
  destruct (next_record (input s)) as [more f1] eqn:En.
  destruct (negb more); [discriminate|].
  destruct (scan (with_input s f1) fmt_word) as [args s2] eqn:Es.
  apply moved_scan in Es. destruct Es as (_ & _ & Hc & _).
  split_args args; try discriminate.
  intros H. split; [assumption|]. exists tok, s2.
  split; [exact Hc | congruence].
Qed.

Lemma tile_body_shape fuel (s : state) ok' s' :
  loop tile_conf_pass fuel (1, s) = Some (inl (ok', s')) ->
  exists body, calls s' = (calls s ++ body)%list /\
    Forall (fun x => record_event (fst x) = true) body /\
    (ok' <> 0 -> Forall (fun x => snd x <> 0) body).
Proof.
  intros Hl.
  apply loop_last
    with (I := fun x =>
                 exists body, calls (snd x) = (calls s ++ body)%list /\
                   Forall (fun x => record_event (fst x) = true) body /\
                   (fst x <> 0 -> Forall (fun x => snd x <> 0) body))
    in Hl.
  - destruct Hl as ([ok1 s1] & (body & Hc & Hr & Hs) & _ & Hp). simpl in *.
    apply tile_conf_pass_leave in Hp.
    destruct Hp as (-> & _ & _ & Hc' & _).
    exists body. rewrite Hc'. auto.
  - intros [ok1 s1] [ok2 s2] (body & Hc & Hr & Hs) Hp. simpl in *.
    apply tile_conf_pass_record in Hp.
    destruct Hp as (Hok & type & s3 & Hc3 & Ht).
    apply tile_record_event in Ht.
    destruct Ht as [[-> Hc2] | (e & He & Hc2)].
    + exists body. split; [congruence|]. split; [assumption|].
      intros Hz. now contradiction Hz.
    + exists (body ++ [(e, ok2)])%list.
      split; [now rewrite Hc2, Hc3, Hc, app_assoc|]. split.
      * apply Forall_app. split; [assumption|].
        constructor; [exact He | constructor].
      * intros H2. apply Forall_app. split; [auto|].
        constructor; [exact H2 | constructor].
  - exists []. rewrite app_nil_r. simpl. repeat split; constructor.
Qed.


Lemma read_tile_conf_success (s : state) r s' :
  read_tile_conf s = Some (r, s') -> r <> 0 ->
  exists body,
    calls s' = (calls s ++ body ++ [(Commit, r)])%list /\
    Forall (fun x => record_event (fst x) = true) body /\
    Forall (fun x => snd x <> 0) body.
Proof.
  unfold Trellis.read_tile_conf.
  destruct (loop tile_conf_pass (String.length (data (input s))) (1, s))
    as [[[ok1 s1]|x]|] eqn:El; try discriminate.
  - apply tile_body_shape in El. destruct El as (body & Hc & Hr & Hs).
    destruct (ok1 =? 0) eqn:Eok; intros H Hnz; apply some_inj in H.
    + inversion H; subst. now contradiction Hnz.
    + apply Z.eqb_neq in Eok. exists body.
      unfold call in H. inversion H; subst; simpl.
      rewrite Hc, app_assoc. auto.
  - now apply ok_loop_no_return in El; [|apply tile_conf_pass_return].
Qed.

(** X10: the calls of a [.tile] block that succeeds: [on_tile] with the
    name, the record callbacks, [on_commit]; each of them returned
    success. *)
Theorem tile_success_calls (s : state) r s' :
  read_tile s = Some (r, s') -> r <> 0 ->
  exists name ok body,
    calls s'
    = (calls s ++ (Tile name, ok) :: body ++ [(Commit, r)])%list /\
    ok <> 0 /\
    Forall (fun x => record_event (fst x) = true) body /\
    Forall (fun x => snd x <> 0) body.
Proof.
  unfold Trellis.read_tile.
  destruct (scan s fmt_token) as [args s1] eqn:Es. intros H Hnz.
  apply moved_scan in Es. destruct Es as (_ & _ & Hc1 & _).
  split_args args;
    try (apply some_inj in H; unfold Trellis.conf_error in H;
         inversion H; subst; now contradiction Hnz).
  destruct (call act s1 (Tile tok)) as [ok s2] eqn:Ec.
  apply call_calls in Ec.
  destruct (ok =? 0) eqn:Eok.
  { inversion H; subst. now contradiction Hnz. }
  apply Z.eqb_neq in Eok.
  apply read_tile_conf_success in H; [|exact Hnz].
  destruct H as (body & Hc & Hr & Hsu).
  exists tok, ok, body.
  split; [|auto]. rewrite Hc, Ec, Hc1.
  now rewrite <- app_assoc.
Qed.

Lemma tile_names_pass_call ok s ok' s' :
  tile_names_pass (ok, s) = Some (Again (ok', s')) ->
  ok <> 0 /\
  exists name, calls s' = (calls s ++ [(Tile name, ok')])%list.
Proof.
  unfold Trellis.tile_names_pass.
  destruct (ok =? 0) eqn:Eok; [discriminate|]. apply Z.eqb_neq in Eok.
  destruct (scan s fmt_token) as [args s1] eqn:Es.
  apply moved_scan in Es. destruct Es as (_ & _ & Hc & _).
  split_args args; try discriminate.
  intros H. split; [assumption|]. exists tok.
  unfold call in H. inversion H; subst; simpl. now rewrite Hc.
Qed.

(** X11: the calls of a [.tile_group] block that succeeds: [on_tile]
    once for each name, at least one, then the record callbacks, then
    [on_commit]; each of them returned success. *)
Theorem tile_group_success_calls (s : state) r s' :
  read_tile_group s = Some (r, s') -> r <> 0 ->
  exists names body,
    names <> [] /\
    calls s' = (calls s ++ names ++ body ++ [(Commit, r)])%list /\
    Forall (fun x => exists name, fst x = Tile name) names /\
    Forall (fun x => record_event (fst x) = true) body /\
    Forall (fun x => snd x <> 0) (names ++ body).
Proof.
  unfold Trellis.read_tile_group.
  destruct (scan s fmt_token) as [args s1] eqn:Es. intros H Hnz.
  apply moved_scan in Es. destruct Es as (_ & _ & Hc1 & _).
  split_args args;
    try (apply some_inj in H; unfold Trellis.conf_error in H;
         inversion H; subst; now contradiction Hnz).
  destruct (call act s1 (Tile tok)) as [ok s2] eqn:Ec.
  destruct (loop tile_names_pass (String.length (data (input s1)))
              (ok, s2)) as [[[ok3 s3]|x]|] eqn:El; try discriminate.
  - apply loop_last
      with (I := fun x =>
                   exists names, names <> [] /\
                     calls (snd x) = (calls s ++ names)%list /\
                     Forall (fun x => exists name, fst x = Tile name)
                       names /\
                     (fst x <> 0 -> Forall (fun x => snd x <> 0) names))
      in El.
    + destruct El as ([ok4 s4] & (names & Hne & Hc & Ht & Hsu) & _ & Hp).
      simpl in *. apply tile_names_pass_leave in Hp.
      destruct Hp as (-> & _ & _ & Hc' & _).
      destruct (ok4 =? 0) eqn:Eok.
      { inversion H; subst. now contradiction Hnz. }
      apply Z.eqb_neq in Eok.
      apply read_tile_conf_success in H; [|exact Hnz].
      destruct H as (body & Hcb & Hr & Hsb).
      exists names, body. split; [exact Hne|].
      split; [now rewrite Hcb, Hc', Hc, <- app_assoc|].
      split; [exact Ht|]. split; [exact Hr|].
      apply Forall_app. auto.
    + intros [ok4 s4] [ok5 s5] (names & Hne & Hc & Ht & Hsu) Hp.
      simpl in *. apply tile_names_pass_call in Hp.
      destruct Hp as (Hok & name & Hc5).
      exists (names ++ [(Tile name, ok5)])%list.
      split; [now destruct names|].
      split; [now rewrite Hc5, Hc, app_assoc|]. split.
      * apply Forall_app. split; [assumption|].
        constructor; [now exists name | constructor].
      * intros H5. apply Forall_app. split; [auto|].
        constructor; [exact H5 | constructor].
    + apply call_calls in Ec. simpl.
      exists [(Tile tok, ok)].
      split; [discriminate|]. split; [now rewrite Ec, Hc1|]. split.
      * constructor; [now exists tok | constructor].
      * intros Hz. constructor; [exact Hz | constructor].
  - now apply ok_loop_no_return in El; [|apply tile_names_pass_return].
Qed.

(** ** Numbers *)

Lemma to_unsigned_range neg m : is_unsigned (to_unsigned neg m).
Proof.
  unfold is_unsigned, to_unsigned. apply Z.mod_pos_bound. reflexivity.
Qed.

Lemma conv_uns_range base text a rest h :
  conv_uns base text = (Some a, rest, h) ->
  exists n, a = AUns n /\ is_unsigned n.
Proof.
  unfold conv_uns.
  destruct (read_run None isspace text) as [[ws s1] h1].
  destruct (is_empty s1); [discriminate|].
  destruct (uns_sign s1) as [neg s2].
  destruct (uns_lead base s2) as [lead s3].
  destruct (read_run None (in_base base) s3) as [[ds s4] h4].
  destruct (negb lead && is_empty ds); [discriminate|].
  intros H. inversion H. eexists. split; [reflexivity|].
  apply to_unsigned_range.
Qed.

Lemma fscanf_hex_range f v f' :
  fscanf f fmt_hex = ([AUns v], f') -> is_unsigned v.
Proof.
  unfold fmt_hex. cbn [fscanf directive_run conv_run].
  destruct (conv_uns 16 (data f)) as [[[a|] rest] h] eqn:E;
    [|discriminate].
  apply conv_uns_range in E. destruct E as (n & -> & Hn).
  intros H. inversion H; subst. exact Hn.
Qed.

Lemma fscanf_index_range f v f' :
  fscanf f fmt_index = ([AUns v], f') -> is_unsigned v.
Proof.
  unfold fmt_index. cbn [fscanf directive_run conv_run].
  destruct (read_run None (fun c => xorb false (mem c blank)) (data f))
    as [[tok rest] h].
  destruct (is_empty tok); [discriminate|].
  cbn [arrive data].
  destruct (conv_uns 10 rest) as [[[a|] rest'] h'] eqn:E; [|discriminate].
  apply conv_uns_range in E. destruct E as (n & -> & Hn).
  intros H. inversion H; subst. exact Hn.
Qed.

Lemma numbered_app index values : forall k more,
  numbered index k (values ++ more)
  = (numbered index k values
     ++ numbered index (k + List.length values) more)%list.
Proof.
  induction values as [|v values IH]; intros k more; simpl.
  - now rewrite Nat.add_0_r.
  - rewrite IH. now rewrite Nat.add_succ_r.
Qed.

Lemma size_t_succ (n : nat) :
  size_t (size_t (Z.of_nat n) + 1) = size_t (Z.of_nat (S n)).
Proof.
  unfold size_t. rewrite Nat2Z.inj_succ.
  rewrite Zplus_mod_idemp_l. reflexivity.
Qed.

Lemma bram_pass_data index ok i s ok' i' s' :
  bram_pass index (ok, i, s) = Some (Again (ok', i', s')) ->
  ok <> 0 /\ i' = size_t (i + 1) /\
  exists v, is_unsigned v /\
            calls s' = (calls s ++ [(Data index i v, ok')])%list.
Proof.
  unfold Trellis.bram_pass.
  destruct (ok =? 0) eqn:Eok; [discriminate|]. apply Z.eqb_neq in Eok.
  destruct (next_record (input s)) as [more f1] eqn:En.
  destruct (negb more); [discriminate|].
  destruct (scan (with_input s f1) fmt_hex) as [args s2] eqn:Es.
  destruct (scan_input _ _ _ _ Es) as (f2 & Hf & ->).
  split_args args; try discriminate.
  apply fscanf_hex_range in Hf.
  unfold call. simpl. intros H. inversion H; subst.
  split; [assumption|]. split; [reflexivity|]. exists num. now split.
Qed.

(** X16: the calls of a [.bram_init] block that succeeds: [on_bram]
    with the index, [on_data] once for each value with the positions
    0, 1, 2, ... in order, then [on_commit]; each of them returned
    success, and the index and the values are what an [unsigned] of 32
    bits holds. *)
Theorem bram_success_calls (s : state) r s' :
  read_bram s = Some (r, s') -> r <> 0 ->
  exists index values new,
    calls s' = (calls s ++ new)%list /\
    map fst new
    = (Bram index :: numbered index 0 values ++ [Commit])%list /\
    Forall (fun x => snd x <> 0) new /\
    is_unsigned index /\ Forall is_unsigned values.
Proof.
  unfold Trellis.read_bram.
  destruct (scan s fmt_index) as [args s1] eqn:Es. intros H Hnz.
  destruct (scan_input _ _ _ _ Es) as (f1 & Hf & ->).
  split_args args;
    try (apply some_inj in H; unfold Trellis.conf_error in H;
         inversion H; subst; now contradiction Hnz).
  apply fscanf_index_range in Hf.
  destruct (call act (with_input s f1) (Bram num)) as [ok s2] eqn:Ec.
  destruct (loop (bram_pass num) (String.length (data (input s2)))
              (ok, 0, s2)) as [[[[ok3 i3] s3]|x]|] eqn:El;
    try discriminate.
  - apply loop_last
      with (I := fun x =>
                   exists values new,
                     calls (snd x)
                     = (calls s ++ (Bram num, ok) :: new)%list /\
                     map fst new = numbered num 0 values /\
                     snd (fst x)
                     = size_t (Z.of_nat (List.length values)) /\
                     Forall is_unsigned values /\
                     (fst (fst x) <> 0 ->
                      Forall (fun x => snd x <> 0)
                        ((Bram num, ok) :: new)))
      in El.
    + destruct El
        as ([[ok4 i4] s4] & (values & new & Hc & Hm & Hi & Hv & Hsu)
            & _ & Hp).
      simpl in *. apply bram_pass_leave in Hp.
      destruct Hp as (-> & -> & _ & _ & Hc' & _).
      destruct (ok4 =? 0) eqn:Eok; apply some_inj in H.
      { inversion H; subst. now contradiction Hnz. }
      apply Z.eqb_neq in Eok.
      exists num, values, ((Bram num, ok) :: new ++ [(Commit, r)])%list.
      unfold call in H. inversion H; subst; simpl.
      split; [now rewrite Hc', Hc, <- app_assoc|].
      split; [now rewrite map_app, Hm|].
      split; [|auto].
      specialize (Hsu Eok). inversion Hsu; subst.
      constructor; [assumption|]. apply Forall_app. split; [assumption|].
      constructor; [assumption | constructor].
    + intros [[ok4 i4] s4] [[ok5 i5] s5]
        (values & new & Hc & Hm & Hi & Hv & Hsu) Hp.
      simpl in *. apply bram_pass_data in Hp.
      destruct Hp as (Hok & -> & v & Hrange & Hc5).
      exists (values ++ [v])%list, (new ++ [(Data num i4 v, ok5)])%list.
      split; [rewrite Hc5, Hc, <- app_assoc; reflexivity|].
      split.
      { rewrite map_app, Hm, numbered_app. simpl. now rewrite Hi. }
      split.
      { rewrite Hi, length_app. simpl. rewrite Nat.add_1_r.
        apply size_t_succ. }
      split; [apply Forall_app; split; [assumption|];
              constructor; [assumption | constructor]|].
      intros H5. specialize (Hsu Hok). inversion Hsu; subst.
      constructor; [assumption|]. apply Forall_app. split; [assumption|].
      constructor; [exact H5 | constructor].
    + apply call_calls in Ec. simpl in Ec.
      exists [], []. simpl.
      repeat split; try constructor; auto.
  - destruct x as [r0 s0]. apply some_inj in H.
    apply loop_last with (I := fun _ => True) in El; auto.
    destruct El as ([[ok4 i4] s4] & _ & _ & Hp).
    apply bram_pass_return in Hp. destruct Hp as (_ & _ & Hz).
    inversion H; subst. now contradiction Hnz.
Qed.

(** ** The fields of the leaf readers *)

Lemma fscanf_token_then f a f1 fmt :
  fscanf f fmt_token = ([a], f1) ->
  fscanf f (fmt_token ++ fmt)
  = let (args, f2) := fscanf f1 fmt in (a :: args, f2).
Proof.
  unfold fmt_token. cbn [app].
  destruct (directive_run (DConv false None (CSet false blank)) (data f))
    as [[o1 r1] h1] eqn:D1.
  rewrite !(fscanf_cons _ _ _ _ _ _ D1).
  assert (Ho : o1 = Stop \/ o1 = Skip).
  { unfold directive_run in D1.
    destruct (conv_run None (CSet false blank) (data f)) as [[[x|] r] h];
      inversion D1; auto. }
  destruct Ho as [-> | ->]; [discriminate|].
  destruct (directive_run (DConv true None CStr) (data (arrive f r1 h1)))
    as [[o2 r2] h2] eqn:D2.
  rewrite !(fscanf_cons _ _ _ _ _ _ D2).
  destruct o2; cbn [fscanf]; try discriminate.
  intros H. inversion H; subst. reflexivity.
Qed.

Lemma fscanf_pair_found f a f1 b f2 :
  fscanf f fmt_token = ([a], f1) -> fscanf f1 fmt_token = ([b], f2) ->
  fscanf f fmt_pair = ([a; b], f2).
Proof.
  intros H1 H2. unfold fmt_pair.
  rewrite (fscanf_token_then _ _ _ _ H1). now rewrite H2.
Qed.

Lemma fscanf_pair_short f a f1 f2 :
  fscanf f fmt_token = ([a], f1) -> fscanf f1 fmt_token = ([], f2) ->
  fscanf f fmt_pair = ([a], f2).
Proof.
  intros H1 H2. unfold fmt_pair.
  rewrite (fscanf_token_then _ _ _ _ H1). now rewrite H2.
Qed.

(** X13: the name of [.device] and the value of [unknown:] are the next
    token behind the space or tab that follows the verb, whatever white
    space, newlines included, comes before the token; the callback gets
    the token up to its first NUL, and the stream is left right behind
    the token. *)
Theorem token_field_found (k : leaf) (s : state) c ws tok rest e :
  token_event k (cstr tok) = Some e ->
  data (input s) = String c (ws ++ tok ++ rest) ->
  mem c blank = true -> all isspace ws = true ->
  is_token tok -> behind_token rest ->
  exists f', data f' = rest /\
    leaf_reader act error_cap k s = call act (with_input s f') e.
Proof.
  intros He Hd Hc Hws [Hne Htok] Hrest.
  destruct (fscanf_token_next _ _ _ _ _ Hd Hc Hws Hne Htok Hrest)
    as (f' & Hf & Hd').
  exists f'. split; [assumption|].
  destruct k; try discriminate; inversion He; subst;
    unfold leaf_reader, read_device, read_unknown;
    now rewrite (scan_eq _ _ _ _ Hf).
Qed.

(** X15: the two fields of [.sysconfig], [arc:], [word:] and [enum:].
    The first is the next token behind the space or tab that follows the
    verb.  When a space or a tab comes right behind it, the second is the
    token after that, and the callback gets both.  When other white space
    comes right behind it, a newline say, the reader fails, although a
    token follows: it makes no call, writes the buffer and leaves the
    stream right behind the first token. *)
Theorem pair_fields_boundary (k : leaf) (s : state) c ws a d ws' b rest e :
  pair_event k (cstr a) (cstr b) = Some e ->
  data (input s) = String c (ws ++ a ++ String d (ws' ++ b ++ rest)) ->
  mem c blank = true -> all isspace ws = true -> is_token a ->
  isspace d = true -> all isspace ws' = true -> is_token b ->
  behind_token rest ->
  (mem d blank = true ->
   exists f', data f' = rest /\
     leaf_reader act error_cap k s = call act (with_input s f') e) /\
  (mem d blank = false ->
   exists m s', leaf_reader act error_cap k s = (0, s') /\
     calls s' = calls s /\ cookie s' = cookie s /\
     error s' = Some (snprintf error_cap m) /\
     data (input s') = String d (ws' ++ b ++ rest)).
Proof.
  intros He Hd Hc Hws [Hna Ha] Hsd Hws' [Hnb Hb] Hrest.
  destruct (fscanf_token_next (input s) c ws a
              (String d (ws' ++ b ++ rest)) Hd Hc Hws Hna Ha)
    as (f1 & Hf1 & Hd1); [right; eauto|].
  split; intros Hbd.
  - destruct (fscanf_token_next f1 d ws' b rest Hd1 Hbd Hws' Hnb Hb Hrest)
      as (f2 & Hf2 & Hd2).
    exists f2. split; [assumption|].
    pose proof (fscanf_pair_found _ _ _ _ _ Hf1 Hf2) as Hp.
    destruct k; try discriminate; inversion He; subst;
      unfold leaf_reader, read_sysconfig, read_arc, read_word, read_enum;
      now rewrite (scan_eq _ _ _ _ Hp).
  - destruct (fscanf_token_stop f1 d _ Hd1 Hbd) as (f2 & Hf2 & Hd2).
    pose proof (fscanf_pair_short _ _ _ _ Hf1 Hf2) as Hp.
    destruct k; try discriminate;
      unfold leaf_reader, read_sysconfig, read_arc, read_word, read_enum;
      rewrite (scan_eq _ _ _ _ Hp); unfold Trellis.conf_error;
      eexists; eexists; (split; [reflexivity|]); simpl;
      rewrite Hd2, Hd1; auto.
Qed.

Lemma append_empty (x : string) : x ++ "" = x.
Proof. induction x as [|c x IH]; simpl; congruence. Qed.

(** ["%*[ \t]%m[^\n]"] in front of spaces and tabs and then a text: the
    text up to the end of the line, which stays unread. *)
Lemma fscanf_line f c bl t u rest :
  data f = String c (bl ++ String t u ++ rest) ->
  mem c blank = true -> all (fun x => mem x blank) bl = true ->
  mem t blank = false ->
  all (fun x => negb (Ascii.eqb x LF)) (String t u) = true ->
  (rest = "" \/ exists rest', rest = String LF rest') ->
  exists f', fscanf f fmt_line = ([AStr (cstr (String t u))], f') /\
             data f' = rest.
Proof.
  intros Hd Hc Hbl Ht Htext Hrest.
  assert (D1 : directive_run (DConv false None (CSet false blank)) (data f)
               = (Skip, String t (u ++ rest), false)).
  { rewrite Hd. unfold directive_run, conv_run.
    change (String c (bl ++ String t u ++ rest))
      with (String c bl ++ String t (u ++ rest)).
    rewrite read_run_app; [reflexivity | | cbn [xorb]; exact Ht].
    cbn [all xorb]. rewrite Hc. cbn [andb].
    eapply all_impl; [|exact Hbl]. auto. }
  assert (Hall : all (fun x => xorb true (mem x newline)) (String t u)
                 = true).
  { eapply all_impl; [|exact Htext].
    intros x Hx. unfold newline. simpl. simpl in Hx.
    destruct (Ascii.eqb x LF); [discriminate | reflexivity]. }
  assert (D2 : exists h,
            directive_run (DConv true None (CSet true newline))
              (String t (u ++ rest))
            = (Got (AStr (cstr (String t u))), rest, h)).
  { unfold directive_run, conv_run.
    change (String t (u ++ rest)) with (String t u ++ rest).
    destruct Hrest as [-> | (rest' & ->)].
    - exists true. rewrite append_empty.
      now rewrite (read_run_whole _ _ Hall).
    - exists false. rewrite read_run_app; [reflexivity | exact Hall|].
      reflexivity. }
  destruct D2 as [h D2].
  unfold fmt_line. rewrite (fscanf_cons _ _ _ _ _ _ D1).
  rewrite (fscanf_cons (arrive f _ _) _ _ _ _ _ D2).
  eexists. split; reflexivity.
Qed.

(** X14: the value of [.comment] is the rest of the line behind the
    spaces and tabs that follow the verb, blanks inside and at its end
    included, up to its first NUL; the newline stays unread. *)
Theorem comment_value (s : state) c bl t u rest :
  data (input s) = String c (bl ++ String t u ++ rest) ->
  mem c blank = true -> all (fun x => mem x blank) bl = true ->
  mem t blank = false ->
  all (fun x => negb (Ascii.eqb x LF)) (String t u) = true ->
  (rest = "" \/ exists rest', rest = String LF rest') ->
  exists f', data f' = rest /\
    read_comment act error_cap s
    = call act (with_input s f') (Comment (cstr (String t u))).
Proof.
  intros Hd Hc Hbl Ht Htext Hrest.
  destruct (fscanf_line _ _ _ _ _ _ Hd Hc Hbl Ht Htext Hrest)
    as (f' & Hf & Hd').
  exists f'. split; [assumption|].
  unfold read_comment. now rewrite (scan_eq _ _ _ _ Hf).
Qed.

(** ** The result of a run that succeeds *)

Lemma read_tile_last_call (s : state) r s' :
  read_tile s = Some (r, s') -> r <> 0 ->
  exists l e, calls s' = (calls s ++ l ++ [(e, r)])%list.
Proof.
  unfold Trellis.read_tile.
  destruct (scan s fmt_token) as [args s1] eqn:Es. intros H Hnz.
  apply moved_scan in Es. destruct Es as (_ & _ & Hc1 & _).
  split_args args;
    try (apply some_inj in H; unfold Trellis.conf_error in H;
         inversion H; subst; now contradiction Hnz).
  destruct (call act s1 (Tile tok)) as [ok s2] eqn:Ec.
  apply call_calls in Ec.
  destruct (ok =? 0).
  { inversion H; subst. now contradiction Hnz. }
  apply read_tile_conf_success in H; [|exact Hnz].
  destruct H as (body & Hc & _).
  exists ((Tile tok, ok) :: body), Commit.
  rewrite Hc, Ec, Hc1. now rewrite <- app_assoc.
Qed.

Lemma tile_names_loop_calls fuel ok (s : state) ok' s' :
  loop tile_names_pass fuel (ok, s) = Some (inl (ok', s')) ->
  exists names, calls s' = (calls s ++ names)%list.
Proof.
  intros Hl.
  apply loop_last
    with (I := fun x => exists names,
                 calls (snd x) = (calls s ++ names)%list) in Hl.
  - destruct Hl as ([ok1 s1] & (names & Hc) & _ & Hp). simpl in *.
    apply tile_names_pass_leave in Hp.
    destruct Hp as (_ & _ & _ & Hc' & _).
    exists names. congruence.
  - intros [ok1 s1] [ok2 s2] (names & Hc) Hp. simpl in *.
    apply tile_names_pass_call in Hp. destruct Hp as (_ & name & Hc2).
    exists (names ++ [(Tile name, ok2)])%list.
    now rewrite Hc2, Hc, app_assoc.
  - exists []. now rewrite app_nil_r.
Qed.

Lemma read_tile_group_last_call (s : state) r s' :
  read_tile_group s = Some (r, s') -> r <> 0 ->
  exists l e, calls s' = (calls s ++ l ++ [(e, r)])%list.
Proof.
  unfold Trellis.read_tile_group.
  destruct (scan s fmt_token) as [args s1] eqn:Es. intros H Hnz.
  apply moved_scan in Es. destruct Es as (_ & _ & Hc1 & _).
  split_args args;
    try (apply some_inj in H; unfold Trellis.conf_error in H;
         inversion H; subst; now contradiction Hnz).
  destruct (call act s1 (Tile tok)) as [ok s2] eqn:Ec.
  apply call_calls in Ec.
  destruct (loop tile_names_pass (String.length (data (input s1)))
              (ok, s2)) as [[[ok3 s3]|x]|] eqn:El; try discriminate.
  - apply tile_names_loop_calls in El. destruct El as (names & Hc3).
    destruct (ok3 =? 0).
    { inversion H; subst. now contradiction Hnz. }
    apply read_tile_conf_success in H; [|exact Hnz].
    destruct H as (body & Hc & _).
    exists ((Tile tok, ok) :: names ++ body)%list, Commit.
    rewrite Hc, Hc3, Ec, Hc1. simpl. now rewrite <- !app_assoc.
  - now apply ok_loop_no_return in El; [|apply tile_names_pass_return].
Qed.

Lemma bram_loop_calls index fuel ok i (s : state) ok' i' s' :
  loop (bram_pass index) fuel (ok, i, s) = Some (inl (ok', i', s')) ->
  exists new, calls s' = (calls s ++ new)%list.
Proof.
  intros Hl.
  apply loop_last
    with (I := fun x => exists new,
                 calls (snd x) = (calls s ++ new)%list) in Hl.
  - destruct Hl as ([[ok1 i1] s1] & (new & Hc) & _ & Hp). simpl in *.
    apply bram_pass_leave in Hp.
    destruct Hp as (_ & _ & _ & _ & Hc' & _).
    exists new. congruence.
  - intros [[ok1 i1] s1] [[ok2 i2] s2] (new & Hc) Hp. simpl in *.
    apply bram_pass_data in Hp. destruct Hp as (_ & _ & v & _ & Hc2).
    exists (new ++ [(Data index i1 v, ok2)])%list.
    now rewrite Hc2, Hc, app_assoc.
  - exists []. now rewrite app_nil_r.
Qed.

Lemma read_bram_last_call (s : state) r s' :
  read_bram s = Some (r, s') -> r <> 0 ->
  exists l e, calls s' = (calls s ++ l ++ [(e, r)])%list.
Proof.
  unfold Trellis.read_bram.
  destruct (scan s fmt_index) as [args s1] eqn:Es. intros H Hnz.
  apply moved_scan in Es. destruct Es as (_ & _ & Hc1 & _).
  split_args args;
    try (apply some_inj in H; unfold Trellis.conf_error in H;
         inversion H; subst; now contradiction Hnz).
  destruct (call act s1 (Bram num)) as [ok s2] eqn:Ec.
  apply call_calls in Ec.
  destruct (loop (bram_pass num) (String.length (data (input s2)))
              (ok, 0, s2)) as [[[[ok3 i3] s3]|x]|] eqn:El;
    try discriminate.
  - apply bram_loop_calls in El. destruct El as (new & Hc3).
    apply some_inj in H.
    destruct (ok3 =? 0).
    { inversion H; subst. now contradiction Hnz. }
    apply call_calls in H.
    exists ((Bram num, ok) :: new), Commit.
    rewrite H, Hc3, Ec, Hc1. simpl. now rewrite <- !app_assoc.
  - destruct x as [r0 s0]. apply some_inj in H.
    apply loop_last with (I := fun _ => True) in El; auto.
    destruct El as ([[ok4 i4] s4] & _ & _ & Hp).
    apply bram_pass_return in Hp. destruct Hp as (_ & _ & Hz).
    inversion H; subst. now contradiction Hnz.
Qed.

Lemma entry_last_call verb (s : state) r s' :
  entry verb s = Some (r, s') -> r <> 0 ->
  exists l e, calls s' = (calls s ++ l ++ [(e, r)])%list.
Proof.
  unfold Trellis.entry. intros H Hnz.
  repeat break_if;
    eauto using read_tile_last_call, read_tile_group_last_call,
      read_bram_last_call;
    apply some_inj in H;
    unfold read_device, read_comment, read_sysconfig in H;
    repeat match type of H with
           | context [scan ?s0 ?fmt] =>
               let E := fresh "E" in
               destruct (scan s0 fmt) as [? ?] eqn:E;
               apply moved_scan in E; destruct E as (_ & _ & E & _)
           | context [match ?x with _ => _ end] => destruct x
           end;
    try (unfold Trellis.conf_error in H; inversion H; subst;
         now contradiction Hnz);
    apply call_calls in H; exists []; eexists; rewrite H, E; reflexivity.
Qed.

Lemma conf_pass_entry ok (s : state) r s' :
  conf_pass (ok, s) = Some (Again (r, s')) ->
  ok <> 0 /\
  exists verb s2, calls s2 = calls s /\ entry verb s2 = Some (r, s').
Proof.
  unfold Trellis.conf_pass.
  destruct (ok =? 0) eqn:Eok; [discriminate|]. apply Z.eqb_neq in Eok.
  destruct (next_entry (input s)) as [[more f1]|]; [|discriminate].
  destruct (negb more); [discriminate|].
  destruct (scan (with_input s f1) fmt_word) as [args s2] eqn:Es.
  apply moved_scan in Es. destruct Es as (_ & _ & Hc & _).
  split_args args; try discriminate.
  destruct (entry tok s2) as [[r0 s0]|] eqn:Ee; [|discriminate].
  intros H. split; [assumption|]. exists tok, s2.
  split; [exact Hc | congruence].
Qed.

(** X19: what [read_conf] returns when it succeeds is what the last
    callback returned, whatever non-zero value that is, and 1 when it
    made no call. *)
Theorem success_is_last_answer (s : state) r s' :
  read_conf s = Some (r, s') -> r <> 0 ->
  (r = 1 /\ calls s' = calls s) \/
  (exists l e, calls s' = (calls s ++ l ++ [(e, r)])%list).
Proof.
  unfold Trellis.read_conf.
  destruct (loop conf_pass (String.length (data (input s))) (1, s))
    as [[[ok1 s1]|x]|] eqn:El; try discriminate.
  - intros H Hnz. apply some_inj in H.
    destruct (ferror (input s1)).
    { unfold Trellis.conf_error in H. inversion H; subst.
      now contradiction Hnz. }
    inversion H; subst; clear H.
    apply loop_last
      with (I := fun x =>
                   exists new, calls (snd x) = (calls s ++ new)%list /\
                     (fst x <> 0 ->
                      (fst x = 1 /\ new = []) \/
                      (exists l e, new = (l ++ [(e, fst x)])%list)))
      in El.
    + destruct El as ([ok0 s0] & (new & Hc & Hi) & _ & Hp). simpl in *.
      apply conf_pass_leave in Hp.
      destruct Hp as (-> & _ & _ & Hc' & _).
      destruct (Hi Hnz) as [[-> ->] | (l & e & ->)].
      * left. split; [reflexivity|]. rewrite Hc', Hc. apply app_nil_r.
      * right. exists l, e. now rewrite Hc', Hc.
    + intros [ok0 s0] [ok2 s2] (new & Hc & Hi) Hp. simpl in *.
      apply conf_pass_entry in Hp.
      destruct Hp as (Hok & verb & s3 & Hc3 & He).
      destruct (Z.eq_dec ok2 0) as [Hz|Hz].
      * apply entry_outcome in He.
        destruct He as (_ & (more & Hm & _) & _).
        exists (new ++ more)%list.
        split; [now rewrite Hm, Hc3, Hc, app_assoc|].
        intros Hn. now contradiction Hn.
      * apply entry_last_call in He; [|exact Hz].
        destruct He as (l & e & Hl).
        exists (new ++ l ++ [(e, ok2)])%list.
        split; [now rewrite Hl, Hc3, Hc, <- app_assoc|].
        intros _. right. exists (new ++ l)%list, e.
        now rewrite app_assoc.
    + exists []. simpl. split; [now rewrite app_nil_r|]. auto.
  - now apply ok_loop_no_return in El; [|apply conf_pass_return].
Qed.

(** ** The error buffer and failure *)

Lemma quiet_call (s : state) e r s' : call act s e = (r, s') -> quiet s r s'.
Proof.
  unfold call. intros H. inversion H; subst; clear H.
  eexists. split; [reflexivity|]. simpl. split; [|reflexivity].
  intros Hr. split; [|reflexivity]. constructor; [exact Hr | constructor].
Qed.

Lemma quiet_error (s : state) msg r s' :
  conf_error s msg = (r, s') -> quiet s r s'.
Proof.
  unfold Trellis.conf_error. intros H. inversion H; subst; clear H.
  exists []. simpl. split; [now rewrite app_nil_r|]. split.
  - intros Hr. now contradiction Hr.
  - intros l e Hl. now destruct l.
Qed.

Lemma quiet_here (s : state) r : r <> 0 -> quiet s r s.
Proof.
  intros _. exists []. split; [now rewrite app_nil_r|]. split.
  - intros _. split; [constructor | reflexivity].
  - intros l e Hl. now destruct l.
Qed.

Lemma quiet_seq (s : state) ok s1 r s2 :
  quiet s ok s1 -> ok <> 0 -> quiet s1 r s2 -> quiet s r s2.
Proof.
  intros (n1 & Hc1 & H1 & _) Hok (n2 & Hc2 & H2 & H2').
  destruct (H1 Hok) as [Hall He].
  exists (n1 ++ n2)%list. split; [now rewrite Hc2, Hc1, app_assoc|]. split.
  - intros Hr. destruct (H2 Hr) as [Hall2 He2].
    split; [now apply Forall_app | congruence].
  - intros l e Hl.
    destruct (exists_last (l := n2)) as (l2 & x & Hx).
    + intros ->. rewrite app_nil_r in Hl. subst n1.
      apply Forall_app in Hall. destruct Hall as [_ Hall].
      inversion Hall; subst. simpl in *. congruence.
    + subst n2. rewrite app_assoc in Hl.
      apply app_inj_tail in Hl. destruct Hl as [_ ->].
      rewrite (H2' l2 e eq_refl). exact He.
Qed.

Lemma quiet_before (s s1 : state) r s2 :
  moved s s1 -> quiet s1 r s2 -> quiet s r s2.
Proof.
  intros (_ & He & Hc & _) (n & Hn & H1 & H2).
  exists n. rewrite <- Hc, <- He. auto.
Qed.

Lemma quiet_after (s : state) r s1 s2 :
  quiet s r s1 -> moved s1 s2 -> quiet s r s2.
Proof.
  intros (n & Hn & H1 & H2) (_ & He & Hc & _).
  exists n. rewrite Hc, He. auto.
Qed.

(** The loop of [read_conf] is quiet. *)
Lemma conf_loop_quiet fuel (s : state) ok1 s1 :
  loop conf_pass fuel (1, s) = Some (inl (ok1, s1)) -> quiet s ok1 s1.
Proof.
  apply (ok_loop_kept quiet quiet_seq quiet_after conf_pass
           (conf_pass_kept quiet quiet_call quiet_error quiet_here
              quiet_seq quiet_before quiet_after)
           (conf_pass_leave act char_signed error_cap)).
  apply quiet_here. discriminate.
Qed.

(** C2, with failing callbacks and read errors set apart: when the buffer
    has been written, [read_conf] returned failure; when [read_conf]
    returned failure, the buffer has been written, or else it is
    untouched and the last callback invoked returned failure.  With
    callbacks that all succeed the buffer has been written if and only if
    [read_conf] returned failure.  When the last callback invoked
    returned failure and the stream has no read error, the buffer is
    unwritten; when the stream has a read error, [read_conf] returned
    failure and the buffer holds [strerror (errno)]. *)
Theorem error_buffer_and_failure (c : C) (f : FILE) r s' :
  read_conf (start c f) = Some (r, s') ->
  (error s' <> None -> r = 0) /\
  (r = 0 ->
   error s' <> None \/
   (error s' = None /\ exists l e, calls s' = (l ++ [(e, 0)])%list)) /\
  (all_succeed act -> (error s' <> None <-> r = 0)) /\
  (forall l e, calls s' = (l ++ [(e, 0)])%list ->
     ferror (input s') = false -> error s' = None) /\
  (ferror (input s') = true ->
   r = 0 /\ error s' = Some (snprintf error_cap strerror_errno)).
Proof.
  intros H. pose proof H as Ho. apply read_conf_outcome in Ho.
  destruct Ho as (_ & (new & Hn & Ha) & He & Hf). simpl in He, Hn.
  assert (H1 : error s' <> None -> r = 0).
  { intros Hw. destruct (Z.eq_dec r 0) as [|Hr]; [assumption|].
    elim Hw. now apply He. }
  split; [exact H1|]. split; [|split].
  - intros Hr. destruct (Hf Hr) as [[m Hm] | [Hx (l & e & Hl)]].
    + left. congruence.
    + right. split; [exact Hx|]. exists l, e. exact Hl.
  - intros Hall. split; [exact H1|].
    intros Hr. destruct (Hf Hr) as [[m Hm] | [_ (l & e & Hl)]].
    + congruence.
    + simpl in Hl. destruct (Ha e 0) as [c0 Hc0].
      * rewrite <- Hn, Hl. apply in_app_iff. right. left. reflexivity.
      * symmetry in Hc0. now apply Hall in Hc0.
  - clear Hn Ha He Hf H1. unfold Trellis.read_conf in H.
    destruct (loop conf_pass (String.length (data (input (start c f))))
                (1, start c f)) as [[[ok1 s1]|x]|] eqn:El;
      try discriminate.
    + apply conf_loop_quiet in El. destruct El as (added & Hn & _ & Hq).
      simpl in Hn. apply some_inj in H.
      destruct (ferror (input s1)) eqn:Hferr.
      * unfold Trellis.conf_error in H.
        assert (Hr : r = 0) by congruence.
        assert (Hs : s' = {| cookie := cookie s1;
                             error := Some (snprintf error_cap
                                              strerror_errno);
                             input := input s1; calls := calls s1 |})
          by congruence.
        rewrite Hs. simpl. split.
        -- intros l e _ Hx. congruence.
        -- auto.
      * assert (Hs : s1 = s') by congruence. rewrite <- Hs. split.
        -- intros l e Hl _. rewrite Hn in Hl. now apply (Hq l e).
        -- intros Hx. congruence.
    + now apply ok_loop_no_return in El; [|apply conf_pass_return].
Qed.

(** ** A keyword that is no record type *)

Lemma next_ns_lost f ws c rest :
  data f = ws ++ String c rest -> all isspace ws = true ->
  isspace c = false -> char_int c = EOF ->
  next_ns f = (EOF, arrive (arrive f (String c rest) false) rest false).
Proof.
  intros Hd Hws Hc He. unfold Trellis.next_ns.
  rewrite (fscanf_char f ws c rest Hd Hws Hc). now rewrite He.
Qed.

Lemma char_int_dot c : char_int c = code "." -> c = "."%char.
Proof.
  unfold Trellis.char_int.
  destruct c as [[] [] [] [] [] [] [] []]; destruct char_signed;
    vm_compute; intros H; first [reflexivity | discriminate H].
Qed.

(** A [.tile] entry, or a [.tile_group] entry, whose names are read and
    reported with success is what its body is. *)
Lemma read_tile_over (s_tile : state) name s1 ok_tile s0 :
  scan s_tile fmt_token = ([AStr name], s1) ->
  call act s1 (Tile name) = (ok_tile, s0) -> ok_tile <> 0 ->
  read_tile s_tile = read_tile_conf s0.
Proof.
  intros Hst Hct Hot. unfold Trellis.read_tile. rewrite Hst, Hct.
  apply Z.eqb_neq in Hot. now rewrite Hot.
Qed.

Lemma read_tile_group_over (s_group : state) first s1 ok_names s0 :
  scan s_group fmt_token = ([AStr first], s1) ->
  ends tile_names_pass (call act s1 (Tile first)) (inl (ok_names, s0)) ->
  ok_names <> 0 ->
  read_tile_group s_group = read_tile_conf s0.
Proof.
  intros Hst He Hok. unfold Trellis.read_tile_group. rewrite Hst.
  destruct (call act s1 (Tile first)) as [ok1 s1'] eqn:Ec.
  assert (Hin : input s1' = input s1).
  { unfold call in Ec. inversion Ec. reflexivity. }
  assert (Hl : loop tile_names_pass (String.length (data (input s1)))
                 (ok1, s1') = Some (inl (ok_names, s0))).
  { apply (ok_loop_ends act error_cap tile_names_pass
             (tile_names_pass_some act)
             (tile_names_pass_again act error_cap)
             (tile_names_pass_return act));
      [rewrite Hin; lia | exact He]. }
  rewrite Hl. apply Z.eqb_neq in Hok. now rewrite Hok.
Qed.

(** C5, with the lookahead's slip set apart.  In the body of a tile
    block a keyword that is none of [arc:], [word:], [enum:],
    [unknown:] is reached after white space.  When the lookahead reports
    its first character, the block fails, and with it the [.tile] or
    [.tile_group] entry: the message
    [unknown tile record type '<keyword>'] is written (cut to the
    buffer's capacity), nothing is read after the keyword, and the block
    makes no [on_commit] call.  When the lookahead takes the first
    character for end-of-file, the byte 255 where [char] is signed, the
    character is dropped and the block is committed instead: the
    entry's result is the one of [on_commit]. *)
Theorem unknown_tile_record (s0 s : state) ok ws c rest type s2 :
  reaches tile_conf_pass (1, s0) (ok, s) -> ok <> 0 ->
  data (input s) = ws ++ String c rest -> all isspace ws = true ->
  isspace c = false -> c <> "."%char ->
  scan (with_input s {| data := String c rest; fault := fault (input s);
                        err := err (input s) |}) fmt_word
  = ([AStr type], s2) ->
  streq type "arc:" = false -> streq type "word:" = false ->
  streq type "enum:" = false -> streq type "unknown:" = false ->
  exists r s',
    read_tile_conf s0 = Some (r, s') /\
    (forall s_tile name s1 ok_tile,
       scan s_tile fmt_token = ([AStr name], s1) ->
       call act s1 (Tile name) = (ok_tile, s0) -> ok_tile <> 0 ->
       read_tile s_tile = Some (r, s')) /\
    (forall s_group first s1 ok_names,
       scan s_group fmt_token = ([AStr first], s1) ->
       ends tile_names_pass (call act s1 (Tile first))
         (inl (ok_names, s0)) ->
       ok_names <> 0 ->
       read_tile_group s_group = Some (r, s')) /\
    (char_int c <> EOF ->
     r = 0 /\
     error s' = Some (snprintf error_cap
                        ("unknown tile record type '" ++ type ++ "'")) /\
     input s' = input s2 /\
     exists new, calls s' = (calls s0 ++ new)%list /\
                 ~ In Commit (map fst new)) /\
    (char_int c = EOF ->
     (r, s')
     = call act
         (with_input s
            (arrive (arrive (input s) (String c rest) false) rest false))
         Commit).
Proof.
  intros Hr Hok Hd Hws Hc Hdot Hs Ha Hw He Hu.
  assert (Hover : forall r s',
            read_tile_conf s0 = Some (r, s') ->
            (forall s_tile name s1 ok_tile,
               scan s_tile fmt_token = ([AStr name], s1) ->
               call act s1 (Tile name) = (ok_tile, s0) -> ok_tile <> 0 ->
               read_tile s_tile = Some (r, s')) /\
            (forall s_group first s1 ok_names,
               scan s_group fmt_token = ([AStr first], s1) ->
               ends tile_names_pass (call act s1 (Tile first))
                 (inl (ok_names, s0)) ->
               ok_names <> 0 ->
               read_tile_group s_group = Some (r, s'))).
  { intros r s' Hb. split.
    - intros s_tile name s1 ok_tile H1 H2 H3.
      now rewrite (read_tile_over _ _ _ _ _ H1 H2 H3).
    - intros s_group first s1 ok_names H1 H2 H3.
      now rewrite (read_tile_group_over _ _ _ _ _ H1 H2 H3). }
  destruct (Z.eq_dec (char_int c) EOF) as [Hla|Hla].
  - pose proof (next_ns_lost (input s) ws c rest Hd Hws Hc Hla) as Hn.
    set (f1 := arrive (arrive (input s) (String c rest) false) rest false)
      in *.
    assert (Hb : read_tile_conf s0 = Some (call act (with_input s f1) Commit)).
    { unfold Trellis.read_tile_conf.
      rewrite (ok_loop_ends act error_cap tile_conf_pass
                 (tile_conf_pass_some act char_signed error_cap)
                 (tile_conf_pass_again act char_signed error_cap)
                 (tile_conf_pass_return act char_signed error_cap)
                 _ 1 s0 (inl (ok, with_input s f1))).
      - apply Z.eqb_neq in Hok. now rewrite Hok.
      - lia.
      - eapply reaches_ends; [exact Hr|]. apply ends_leave.
        unfold Trellis.tile_conf_pass, Trellis.next_record.
        apply Z.eqb_neq in Hok. rewrite Hok, Hn. reflexivity. }
    destruct (call act (with_input s f1) Commit) as [r s'] eqn:Ec.
    exists r, s'. split; [exact Hb|].
    destruct (Hover r s' Hb) as [Ht Hg].
    split; [exact Ht|]. split; [exact Hg|]. split.
    + intros Hx. contradiction.
    + reflexivity.
  - pose proof (next_ns_char (input s) ws c rest Hd Hws Hc Hla) as Hn.
    assert (Hrec : next_record (input s)
                   = (true, {| data := String c rest;
                               fault := fault (input s);
                               err := err (input s) |})).
    { unfold Trellis.next_record. rewrite Hn.
      pose proof Hla as Hla'. apply Z.eqb_neq in Hla'. rewrite Hla'.
      destruct (char_int c =? code ".") eqn:E; [|reflexivity].
      apply Z.eqb_eq, char_int_dot in E. contradiction. }
    destruct (tile_body_fails act char_signed error_cap s0 s ok _ type s2
                Hr Hok Hrec Hs Ha Hw He Hu) as [Hf Hcalls].
    eexists. eexists. split; [exact Hf|].
    destruct (Hover _ _ Hf) as [Ht Hg].
    split; [exact Ht|]. split; [exact Hg|]. split.
    + intros _. simpl. auto.
    + intros Hx. contradiction.
Qed.

(** ** The boundary of the names of a tile group *)





End Parser.

(** ** Closed instances *)

Lemma empty_block_commits_witness :
  Trellis.read_tile_conf (answer 1) true 127%nat
    (start tt (stream (newline ++ ".device d")))
  = Some (call (answer 1)
            (with_input (start tt (stream (newline ++ ".device d")))
               (stream ".device d"))
            Commit).
Proof.
  apply (proj1 (empty_block_commits (answer 1) true 127%nat
                  (start tt (stream (newline ++ ".device d"))))
           newline "device d"); reflexivity.
Defined.

Lemma lookahead_again_witness :
  Trellis.next_ns true (stream ".x") = (46, stream ".x") /\
  Trellis.next_record true (stream ".x")
  = (fst (Trellis.next_record true (stream "  .x")), stream ".x").
Proof.
  apply (lookahead_again true (stream "  .x") 46 (stream ".x"));
    [reflexivity | unfold EOF; lia].
Defined.

Lemma blank_input_witness :
  exists s',
    calls s' = [] /\ cookie s' = tt /\ data (input s') = "" /\
    (false = false ->
     Trellis.read_conf (answer 1) true 127%nat EIO
       (start tt (stream ("  " ++ newline)))
     = Some (1, s') /\ error s' = None) /\
    (false = true ->
     Trellis.read_conf (answer 1) true 127%nat EIO
       (start tt (stream ("  " ++ newline)))
     = Some (0, s') /\
     error s' = Some (snprintf 127 EIO)).
Proof.
  apply (blank_input (answer 1) true 127%nat EIO
           (start tt (stream ("  " ++ newline)))); reflexivity.
Defined.

Lemma byte_255_at_entry_witness :
  (true = true ->
   exists s',
     Trellis.read_conf (answer 1) true 127%nat EIO
       (start tt (stream (String "255" ".device d")))
     = Some (1, s') /\
     calls s' = [] /\ error s' = None /\ data (input s') = ".device d") /\
  (true = false ->
   exists s',
     Trellis.read_conf (answer 1) true 127%nat EIO
       (start tt (stream (String "255" ".device d")))
     = Some (0, s') /\
     calls s' = [] /\ error s' <> None).
Proof.
  apply (byte_255_at_entry (answer 1) true 127%nat EIO
           (start tt (stream (String "255" ".device d"))) "" ".device d");
    reflexivity.
Defined.

Lemma success_reads_all_witness : data (input run_device_end) = "".
Proof.
  apply (success_reads_all (answer 1) false 127%nat EIO
           run_device_start 1 run_device_end);
    [reflexivity | vm_compute; reflexivity | lia].
Defined.

Lemma error_fits_witness :
  error run_verb_end = Some "unknown " /\
  (String.length "unknown " <= 8)%nat.
Proof.
  split; [reflexivity|].
  apply (error_fits (answer 1) true 8%nat EIO run_verb_start 0 run_verb_end);
    [vm_compute; reflexivity | discriminate | reflexivity].
Defined.

Lemma nothing_after_refusal_witness :
  exists new,
    calls run_device_refused = (calls run_device_start ++ new)%list /\
    orderly new 0.
Proof.
  apply (nothing_after_refusal (answer 0) true 127%nat EIO
           run_device_start 0 run_device_refused).
  vm_compute; reflexivity.
Defined.

Lemma leading_comment_line_witness :
  Trellis.read_conf (answer 1) true 127%nat EIO run_noted_start
  = Trellis.read_conf (answer 1) true 127%nat EIO
      (with_input run_noted_start (stream ".device d")).
Proof.
  apply (leading_comment_line (answer 1) true 127%nat EIO
           run_noted_start " c" ".device d" false false); reflexivity.
Defined.


Lemma tile_success_calls_witness :
  exists name ok body,
    calls run_tile_end
    = (calls run_tile_start
       ++ (Tile name, ok) :: body ++ [(Commit, 1)])%list /\
    ok <> 0 /\
    Forall (fun x => record_event (fst x) = true) body /\
    Forall (fun x => snd x <> 0) body.
Proof.
  apply (tile_success_calls (answer 1) true 127%nat run_tile_start 1
           run_tile_end); [vm_compute; reflexivity | lia].
Defined.

Lemma tile_group_success_calls_witness :
  exists names body,
    names <> [] /\
    calls run_group_end
    = (calls run_group_start ++ names ++ body ++ [(Commit, 1)])%list /\
    Forall (fun x => exists name, fst x = Tile name) names /\
    Forall (fun x => record_event (fst x) = true) body /\
    Forall (fun x => snd x <> 0) (names ++ body).
Proof.
  apply (tile_group_success_calls (answer 1) true 127%nat run_group_start 1
           run_group_end); [vm_compute; reflexivity | lia].
Defined.

Lemma bram_success_calls_witness :
  exists index values new,
    calls run_bram_end = (calls run_bram_start ++ new)%list /\
    map fst new
    = (Bram index :: numbered index 0 values ++ [Commit])%list /\
    Forall (fun x => snd x <> 0) new /\
    is_unsigned index /\ Forall is_unsigned values.
Proof.
  apply (bram_success_calls (answer 1) true 127%nat run_bram_start 1
           run_bram_end); [vm_compute; reflexivity | lia].
Defined.

Lemma token_field_found_witness :
  exists f', data f' = "" /\
    leaf_reader (answer 1) 127 LDevice
      (start tt (stream (" " ++ newline ++ "d")))
    = call (answer 1)
        (with_input (start tt (stream (" " ++ newline ++ "d"))) f')
        (Device "d").
Proof.
  apply (token_field_found (answer 1) 127%nat LDevice
           (start tt (stream (" " ++ newline ++ "d")))
           " "%char newline "d" "" (Device "d"));
    try reflexivity.
  - split; [discriminate | reflexivity].
  - left; reflexivity.
Defined.

Lemma pair_fields_boundary_witness :
  (mem LF blank = true ->
   exists f', data f' = "" /\
     leaf_reader (answer 1) 127 LArc
       (start tt (stream (" a" ++ newline ++ "b")))
     = call (answer 1)
         (with_input (start tt (stream (" a" ++ newline ++ "b"))) f')
         (Arc "a" "b")) /\
  (mem LF blank = false ->
   exists m s',
     leaf_reader (answer 1) 127 LArc
       (start tt (stream (" a" ++ newline ++ "b")))
     = (0, s') /\
     calls s' = [] /\ cookie s' = tt /\
     error s' = Some (snprintf 127 m) /\
     data (input s') = String LF "b").
Proof.
  apply (pair_fields_boundary (answer 1) 127%nat LArc
           (start tt (stream (" a" ++ newline ++ "b")))
           " "%char "" "a" LF "" "b" "" (Arc "a" "b"));
    try reflexivity.
  - split; [discriminate | reflexivity].
  - split; [discriminate | reflexivity].
  - left; reflexivity.
Defined.

Lemma comment_value_witness :
  exists f', data f' = newline /\
    read_comment (answer 1) 127
      (start tt (stream (" hi there " ++ newline)))
    = call (answer 1)
        (with_input (start tt (stream (" hi there " ++ newline))) f')
        (Comment "hi there ").
Proof.
  apply (comment_value (answer 1) 127%nat
           (start tt (stream (" hi there " ++ newline)))
           " "%char "" "h"%char "i there " newline);
    try reflexivity.
  right. now exists "".
Defined.

Lemma success_is_last_answer_witness :
  (7 = 1 /\ calls run_device_seven = calls run_device_start) \/
  (exists l e,
     calls run_device_seven
     = (calls run_device_start ++ l ++ [(e, 7)])%list).
Proof.
  apply (success_is_last_answer (answer 7) true 127%nat EIO
           run_device_start 7 run_device_seven);
    [vm_compute; reflexivity | lia].
Defined.

Lemma error_buffer_and_failure_witness :
  exists r s',
    Trellis.read_conf (answer 0) true 127%nat EIO
      (start tt (stream ".device x")) = Some (r, s') /\
    (error s' <> None -> r = 0) /\
    (r = 0 ->
     error s' <> None \/
     (error s' = None /\ exists l e, calls s' = (l ++ [(e, 0)])%list)) /\
    (all_succeed (answer 0) -> (error s' <> None <-> r = 0)) /\
    (forall l e, calls s' = (l ++ [(e, 0)])%list ->
       ferror (input s') = false -> error s' = None) /\
    (ferror (input s') = true ->
     r = 0 /\ error s' = Some (snprintf 127 EIO)).
Proof.
  eexists. eexists. split; [vm_compute; reflexivity|].
  apply (error_buffer_and_failure (answer 0) true 127%nat EIO tt
           (stream ".device x")).
  vm_compute. reflexivity.
Defined.

Lemma unknown_tile_record_witness :
  (exists r s',
     Trellis.read_tile_conf (answer 1) true 127%nat run_ff_body
     = Some (r, s') /\
     Trellis.read_tile (answer 1) true 127%nat run_ff_start
     = Some (r, s') /\
     (r, s')
     = call (answer 1)
         (with_input run_ff_after_arc
            (arrive (arrive (input run_ff_after_arc)
                       (String "255" ("oo: 1" ++ newline)) false)
               ("oo: 1" ++ newline) false))
         Commit) /\
  (exists r s',
     Trellis.read_tile_conf (answer 1) false 127%nat run_ff_body
     = Some (r, s') /\
     Trellis.read_tile (answer 1) false 127%nat run_ff_start
     = Some (r, s') /\
     r = 0 /\
     error s' = Some (snprintf 127%nat
                        ("unknown tile record type '" ++ String "255" "oo:"
                         ++ "'")) /\
     input s' = input run_ff_keyword /\
     exists new, calls s' = (calls run_ff_body ++ new)%list /\
                 ~ In Commit (map fst new)).
Proof.
  split.
  - destruct (unknown_tile_record (answer 1) true 127%nat
                run_ff_body run_ff_after_arc 1 newline "255"%char
                ("oo: 1" ++ newline) (String "255" "oo:") run_ff_keyword)
      as (r & s' & Hb & Ht & _ & _ & Hlost);
      try reflexivity; try discriminate.
    + eapply reaches_next with (a' := (1, run_ff_after_arc));
        [vm_compute; reflexivity | apply reaches_here].
    + exists r, s'. split; [exact Hb|]. split.
      * apply (Ht run_ff_start "T" run_ff_named 1);
          [reflexivity | reflexivity | discriminate].
      * apply Hlost. reflexivity.
  - destruct (unknown_tile_record (answer 1) false 127%nat
                run_ff_body run_ff_after_arc 1 newline "255"%char
                ("oo: 1" ++ newline) (String "255" "oo:") run_ff_keyword)
      as (r & s' & Hb & Ht & _ & Hseen & _);
      try reflexivity; try discriminate.
    + eapply reaches_next with (a' := (1, run_ff_after_arc));
        [vm_compute; reflexivity | apply reaches_here].
    + exists r, s'. split; [exact Hb|]. split.
      * apply (Ht run_ff_start "T" run_ff_named 1);
          [reflexivity | reflexivity | discriminate].
      * apply Hseen. discriminate.
Defined.

(** The run of [read_conf] over this block with [char] signed: the block
    is committed, and what is left of the keyword is taken for a verb. *)
Example byte_255_ends_tile_body :
  option_map (fun x => (fst x, events (snd x), error (snd x)))
    (Trellis.read_conf (answer 1) true 127%nat EIO
       (start tt (stream (".tile T" ++ newline ++ "arc: a b" ++ newline
                          ++ String "255" ("oo: 1" ++ newline)))))
  = Some (0, [Tile "T"; Arc "a" "b"; Commit], Some "unknown verb 'oo:'").
Proof. vm_compute. reflexivity. Qed.


End TrellisMore.

(* ================================================================== *)
(** * More about the bitmap exporter *)

Module BitmapMore.
Import CLib Bitmap BitmapFacts.

Lemma sample_msb_low (b : Z) : sample_msb b = sample_msb (b mod 256).
Proof. unfold sample_msb, uchar. now rewrite Z.mod_mod by lia. Qed.

Lemma byte_cases (P : Z -> bool) :
  forallb (fun n => P (Z.of_nat n)) (seq 0 256) = true ->
  forall b, P (b mod 256) = true.
Proof.
  intros H b. rewrite forallb_forall in H.
  assert (Hb : 0 <= b mod 256 < 256) by (apply Z.mod_pos_bound; lia).
  rewrite <- (Z2Nat.id (b mod 256)) by lia. apply H. apply in_seq. lia.
Qed.

(** X1: [sample_msb] mirrors the low byte of its argument: the result is a
    byte, its bit [i] is bit [7 - i] of the argument, and mirroring twice
    gives the low byte back. *)
Theorem sample_msb_mirrors (b : Z) :
  0 <= sample_msb b < 256 /\
  (forall i, 0 <= i < 8 ->
     Z.testbit (sample_msb b) i = Z.testbit b (7 - i)) /\
  sample_msb (sample_msb b) = b mod 256.
Proof.
  split; [|split].
  - unfold sample_msb, uchar. apply Z.mod_pos_bound. lia.
  - intros i Hi. rewrite sample_msb_low.
    rewrite <- (Z.mod_pow2_bits_low b 8 (7 - i)) by lia.
    change (2 ^ 8) with 256.
    pose proof (byte_cases
      (fun n => forallb
         (fun j => Bool.eqb (Z.testbit (sample_msb n) (Z.of_nat j))
                            (Z.testbit n (7 - Z.of_nat j)))
         (seq 0 8))) as H.
    specialize (H ltac:(vm_compute; reflexivity) b).
    rewrite forallb_forall in H.
    specialize (H (Z.to_nat i)). rewrite Z2Nat.id in H by lia.
    apply Bool.eqb_prop. apply H. apply in_seq. lia.
  - rewrite (sample_msb_low b).
    pose proof (byte_cases (fun n => sample_msb (sample_msb n) =? n)) as H.
    specialize (H ltac:(vm_compute; reflexivity) b).
    now apply Z.eqb_eq in H.
Qed.

Lemma flat_map_map {A B D : Type} (g : A -> B) (f : B -> list D) l :
  flat_map f (map g l) = flat_map (fun a => f (g a)) l.
Proof. induction l as [|a l IH]; simpl; [reflexivity | now rewrite IH]. Qed.

Lemma flat_map_single {A B : Type} (f : A -> B) l :
  flat_map (fun a => [f a]) l = map f l.
Proof. induction l as [|a l IH]; simpl; [reflexivity | now rewrite IH]. Qed.

Lemma fold_appends (body : Z -> list Z -> option (list Z))
  (f : Z -> list Z) :
  (forall v o o', body v o = Some o' -> o' = (o ++ f v)%list) ->
  forall (l : list nat) out out',
    fold_left (fun acc v => match acc with
                            | Some o => body (Z.of_nat v) o
                            | None => None
                            end) l (Some out) = Some out' ->
    out' = (out ++ flat_map (fun v => f (Z.of_nat v)) l)%list.
Proof.
  intros Hb. induction l as [|a l IH]; intros out out' H; simpl in *.
  - inversion H. now rewrite app_nil_r.
  - destruct (body (Z.of_nat a) out) as [o|] eqn:E.
    + apply IH in H. apply Hb in E. subst. now rewrite <- app_assoc.
    + rewrite fold_none in H. discriminate.
Qed.

(** A loop whose body appends [f v] in turn [v] appends them in order. *)
Lemma for_range_appends n (body : Z -> list Z -> option (list Z)) f :
  (forall v o o', body v o = Some o' -> o' = (o ++ f v)%list) ->
  forall out out',
    for_range n body out = Some out' ->
    out' = (out ++ flat_map f (range n))%list.
Proof.
  intros Hb out out' H. unfold for_range in H.
  apply (fold_appends body f Hb) in H. unfold range.
  now rewrite flat_map_map.
Qed.

Lemma put_sample_appends o y x out out' :
  put_sample o y x out = Some out' ->
  out' = (out ++ [sample_at o y x])%list.
Proof.
  unfold put_sample, sample_at.
  destruct (nth_error (bits o) _) as [b|] eqn:Eb; [|discriminate].
  destruct (nth_error (mask o) _) as [m|] eqn:Em; [|discriminate].
  intros H. inversion H; subst.
  now rewrite (nth_error_nth _ _ 0 Eb), (nth_error_nth _ _ 0 Em).
Qed.

(** X2: the file of a successful export is the header followed, row by
    row and pixel by pixel, by the mirrored masked byte that holds the
    pixel. *)
Theorem export_content h o out :
  bitmap_export h o = Some (1, Some out) ->
  out = (bytes_of (header o) ++ samples o)%list.
Proof.
  unfold bitmap_export.
  destruct (negb (fopen_ok h)); [discriminate|].
  destruct (negb (fprintf_ok h)); [discriminate|].
  destruct (for_range (height o) _ (bytes_of (header o))) as [out'|] eqn:E;
    [|discriminate].
  destruct (fclose_ok h); [|discriminate].
  intros H. inversion H; subst.
  apply for_range_appends
    with (f := fun y => map (sample_at o y) (range (width o))) in E;
    [assumption|].
  intros y a a' Hy.
  apply for_range_appends with (f := fun x => [sample_at o y x]) in Hy.
  - now rewrite flat_map_single in Hy.
  - intros x b b'. apply put_sample_appends.
Qed.

Lemma export_content_witness :
  exists out,
    bitmap_export works two_bytes = Some (1, Some out) /\
    out = (bytes_of (header two_bytes) ++ samples two_bytes)%list.
Proof.
  eexists. split; [vm_compute; reflexivity|].
  apply (export_content works two_bytes). vm_compute. reflexivity.
Defined.

Lemma fold_defined (body : Z -> list Z -> option (list Z)) :
  forall (l : list nat),
    (forall v o, In v l -> exists o', body (Z.of_nat v) o = Some o') ->
    forall out, exists out',
      fold_left (fun acc v => match acc with
                              | Some o => body (Z.of_nat v) o
                              | None => None
                              end) l (Some out) = Some out'.
Proof.
  induction l as [|a l IH]; intros Hb out; simpl.
  - eauto.
  - destruct (Hb a out (or_introl eq_refl)) as [o Ho]. rewrite Ho.
    apply IH. intros v o' Hv. apply Hb. now right.
Qed.

(** A loop whose body is defined in every turn is defined. *)
Lemma for_range_defined n (body : Z -> list Z -> option (list Z)) :
  (forall v o, 0 <= v < n -> exists o', body v o = Some o') ->
  forall out, exists out', for_range n body out = Some out'.
Proof.
  intros Hb out. unfold for_range. apply fold_defined.
  intros v o Hv. apply Hb. apply in_seq in Hv. lia.
Qed.

Lemma put_sample_defined o y x out :
  planes_fit o -> 0 <= y < height o -> 0 <= x < width o ->
  exists out', put_sample o y x out = Some out'.
Proof.
  intros (Hp & Hw & Hb & Hm) Hy Hx. unfold put_sample, size_t.
  set (i := y * pitch o + Z.shiftr x 3).
  assert (Hi : 0 <= i < pitch o * height o).
  { unfold i. rewrite Z.shiftr_div_pow2 by lia. change (2 ^ 3) with 8.
    assert (0 <= x / 8 < pitch o).
    { split; [apply Z.div_pos; lia|].
      apply Z.div_lt_upper_bound; lia. }
    nia. }
  assert (Hmod : 0 <= i mod 2 ^ 64 <= i).
  { split; [apply Z.mod_pos_bound; lia | apply Z.mod_le; lia]. }
  destruct (nth_error (bits o) (Z.to_nat (i mod 2 ^ 64))) as [b|] eqn:Eb.
  - destruct (nth_error (mask o) (Z.to_nat (i mod 2 ^ 64))) as [m|] eqn:Em.
    + eauto.
    + apply nth_error_None in Em. lia.
  - apply nth_error_None in Eb. lia.
Qed.

(** X3: when the planes hold [pitch * height] bytes and a row of [pitch]
    bytes holds [width] pixels, every read of the loops is inside the
    planes, and the export succeeds on a host whose calls succeed. *)
Theorem export_in_bounds h o :
  fopen_ok h = true -> fprintf_ok h = true -> fclose_ok h = true ->
  planes_fit o ->
  exists out, bitmap_export h o = Some (1, Some out).
Proof.
  intros Ho Hp Hc Hfit.
  assert (Hd : exists out,
             for_range (height o)
               (fun y => for_range (width o) (fun x => put_sample o y x))
               (bytes_of (header o)) = Some out).
  { apply for_range_defined. intros y a Hy.
    apply for_range_defined. intros x b Hx.
    now apply put_sample_defined. }
  destruct Hd as [out Hd]. exists out.
  unfold bitmap_export. now rewrite Ho, Hp, Hd, Hc.
Qed.

Lemma export_in_bounds_witness :
  exists out, bitmap_export works two_bytes = Some (1, Some out).
Proof.
  apply (export_in_bounds works two_bytes); try reflexivity.
  unfold planes_fit. simpl. lia.
Defined.

End BitmapMore.
